(** * Multi-tenant ingestion control plane (tracefox-ai/tf-app)

    A shallow embedding of the ingestion-token registry, the shard
    allocator, the tenant storage provisioner, the collector-config
    synthesizer and the OpAMP endpoint, with the properties of the
    specification stated and settled against it. *)

From Stdlib Require Import Strings.Ascii Strings.Byte.
From stdpp Require Import base decidable option list sorting gmap strings pretty.

Local Open Scope string_scope.

(** ** JavaScript values *)

Module Js.

(** [!!s] for an optional string: [undefined], [null] and the empty
    string are falsy. *)
Definition truthy (v : option string) : bool :=
  match v with
  | Some s => bool_decide (s ≠ "")
  | None => false
  end.

(** What an [await]ed call gives back: a value, or a thrown [Error]
    carrying its message. *)
Inductive result (A : Type) : Type :=
| Ok (a : A)
| Throw (message : string).
Global Arguments Ok {A} a.
Global Arguments Throw {A} message.

End Js.
Export Js.

(** ** [async] functions *)

Module Async.

(** An [async] function over a store [S]: it leaves a store behind and
    returns or throws. *)
Definition M (S A : Type) : Type := S → S * result A.

Definition ret {S A} (a : A) : M S A := λ db, (db, Ok a).
Definition throw {S A} (message : string) : M S A := λ db, (db, Throw message).
Definition bind {S A B} (m : M S A) (k : A → M S B) : M S B := λ db,
  match m db with
  | (db', Ok a) => k a db'
  | (db', Throw e) => (db', Throw e)
  end.
(** A read-only query, awaited. *)
Definition query {S A} (q : S → A) : M S A := λ db, (db, Ok (q db)).

Declare Scope await_scope.
Delimit Scope await_scope with await.
Notation "'await' x ← m ;; k" := (bind m (λ x, k))
  (at level 10, x name, m at level 99, k at level 200) : await_scope.

End Async.

(** ** models/ingestionToken.ts *)

(** A [mongoose.Types.ObjectId], through its [toString()]. *)
Abbreviation ObjectId := string (only parsing).
(** A [Date], in milliseconds since the epoch. *)
Abbreviation Date := Z (only parsing).

Inductive IngestionTokenStatus := active | revoked.

Global Instance IngestionTokenStatus_eq_dec : EqDecision IngestionTokenStatus.
Proof. solve_decision. Defined.

Record IIngestionToken := mkToken {
  _id : ObjectId;
  team : ObjectId;
  tokenHash : string;
  tokenPrefix : string;
  status : IngestionTokenStatus;
  assignedShard : option string;
  description : option string;
  lastUsedAt : option Date;
  revokedAt : option Date;
  createdAt : option Date;
  updatedAt : option Date
}.

Global Instance IIngestionToken_eq_dec : EqDecision IIngestionToken.
Proof. solve_decision. Defined.

(** The [IngestionToken] collection, in insertion order. *)
Abbreviation Tokens := (list IIngestionToken) (only parsing).

(** ** The MongoDB operations the controllers use *)

Module Mongo.
Section Collection.
Context {Doc : Type}.
Variable P : Doc → Prop.
Context `{!∀ d, Decision (P d)}.

(** [Model.find(filter)]. *)
Definition find (db : list Doc) : list Doc := filter P db.

(** [Model.findOne(filter)]: the first match in natural order. *)
Definition findOne (db : list Doc) : option Doc := snd <$> list_find P db.

(** [Model.findOneAndUpdate(filter, update, { new: true })]. *)
Definition findOneAndUpdate (upd : Doc → Doc) (db : list Doc)
  : list Doc * option Doc :=
  match list_find P db with
  | Some (i, d) => (<[i := upd d]> db, Some (upd d))
  | None => (db, None)
  end.

End Collection.
End Mongo.

(** ** utils/sharding.ts *)

Module Sharding.

(** The template literal [`shard-${i}`]. *)
Definition shardIdOf (i : nat) : string := "shard-" +:+ pretty i.

(** The [find] filter of [findNextAvailableShard]. *)
Definition activeFilter (excludeTeamId : option string)
    (t : IIngestionToken) : Prop :=
  status t = active ∧
  (if truthy excludeTeamId then Some (team t) ≠ excludeTeamId else True).

Global Instance activeFilter_dec e t : Decision (activeFilter e t).
Proof. unfold activeFilter. destruct (truthy e); apply _. Defined.

(** The body of the first loop: one token is added to the
    [Map<string, Set<string>>]. *)
Definition addToken (teamsPerShard : gmap string (gset string))
    (token : IIngestionToken) : gmap string (gset string) :=
  if negb (truthy (assignedShard token)) then teamsPerShard
  else
    let shard := default "" (assignedShard token) in
    let teamId := team token in
    let teamsPerShard :=
      if decide (is_Some (teamsPerShard !! shard)) then teamsPerShard
      else <[shard := ∅]> teamsPerShard in
    <[shard := default ∅ (teamsPerShard !! shard) ∪ {[teamId]}]> teamsPerShard.

Definition teamsPerShardOf (activeTokens : Tokens)
  : gmap string (gset string) :=
  foldl addToken ∅ activeTokens.

(** The second loop, [for (let i = 0; i < shardCount; i++)], entered at
    [i] with [todo = shardCount - i] iterations left. *)
Fixpoint firstFreeFrom (teamsPerShard : gmap string (gset string))
    (i todo : nat) : option string :=
  match todo with
  | O => None
  | S todo' =>
      let shardId := shardIdOf i in
      match teamsPerShard !! shardId with
      | None => Some shardId
      | Some teamsInShard =>
          if decide (size teamsInShard = 0) then Some shardId
          else firstFreeFrom teamsPerShard (S i) todo'
      end
  end.

(** What the second loop tests on a shard id. *)
Definition freeIn (teamsPerShard : gmap string (gset string))
    (s : string) : Prop :=
  match teamsPerShard !! s with
  | None => True
  | Some teamsInShard => size teamsInShard = 0
  end.

(** [findNextAvailableShard(shardCount, excludeTeamId?)]; [None] is the
    [null] the caller turns into the exhaustion error. *)
Definition findNextAvailableShard (shardCount : nat)
    (excludeTeamId : option string) (db : Tokens) : option string :=
  let activeTokens := Mongo.find (activeFilter excludeTeamId) db in
  firstFreeFrom (teamsPerShardOf activeTokens) 0 shardCount.

(** Some team has an active token assigned to shard [s]. *)
Definition occupied (db : Tokens) (s : string) : Prop :=
  ∃ t, t ∈ db ∧ status t = active ∧ assignedShard t = Some s.

(** The bit operators of JavaScript on numbers that are integers:
    [ToInt32], [ToUint32], [a << k], [a | b] and [a >>> k]. *)
Definition toInt32 (z : Z) : Z := ((z + 2 ^ 31) `mod` 2 ^ 32 - 2 ^ 31)%Z.
Definition toUint32 (z : Z) : Z := (z `mod` 2 ^ 32)%Z.

Definition shl (a k : Z) : Z :=
  toInt32 (Z.shiftl (toInt32 a) (toUint32 k `mod` 32)).
Definition bor (a b : Z) : Z := toInt32 (Z.lor (toInt32 a) (toInt32 b)).
Definition ushr (a k : Z) : Z := Z.shiftr (toUint32 a) (toUint32 k `mod` 32).

(** [hash[i]!] as the bit operators read it: the byte, or 0 for the
    [undefined] past the end of the buffer. *)
Definition byteAt (hash : list byte) (i : nat) : Z :=
  default 0%Z ((λ b, Z.of_N (Byte.to_N b)) <$> hash !! i).

Section ShardIdForTeam.
(** [crypto.createHash('sha256').update(teamId).digest()]. *)
Variable sha256 : string → list byte.

(** [shardIdForTeam(teamId, shardCount)]; the remainder by 0 is [NaN]. *)
Definition shardIdForTeam (teamId : string) (shardCount : nat) : string :=
  let hash := sha256 teamId in
  let n :=
    bor (bor (bor (shl (byteAt hash 0) 24) (shl (byteAt hash 1) 16))
           (shl (byteAt hash 2) 8))
      (shl (byteAt hash 3) 0) in
  match shardCount with
  | O => "shard-NaN"
  | _ => "shard-" +:+ pretty (ushr n 0 `mod` Z.of_nat shardCount)%Z
  end.
End ShardIdForTeam.

End Sharding.

(** ** utils/ingestionTokens.ts *)

Module IngestionTokens.
Section Codec.
(** [crypto.createHash('sha256').update(token).digest('hex')]. *)
Variable sha256hex : string → string.

Definition hashIngestionToken (token : string) : string := sha256hex token.

(** [raw] is [crypto.randomBytes(32).toString('base64url')]. *)
Definition generateIngestionToken (raw : string) : string :=
  "hdx_ingest_" +:+ raw.

(** [token.slice(0, chars)], [chars] defaulting to 12. *)
Definition tokenPrefix (token : string) (chars : nat) : string :=
  String.substring 0 chars token.
End Codec.
End IngestionTokens.

(** ** controllers/ingestionToken.ts (and controllers/ingestionAuth.ts) *)

Module Controller.

Import Async.
Local Open Scope await_scope.

(** [IngestionToken.create(doc)]: [_id] has its unique index, and so has
    [tokenHash] ([unique: true] in the schema); the document is appended.
    The [required] validators pass, the prefix and the hash of a generated
    token being non-empty. *)
Definition duplicateKey (doc d : IIngestionToken) : Prop :=
  _id d = _id doc ∨ tokenHash d = tokenHash doc.

Definition create (doc : IIngestionToken) : M Tokens IIngestionToken := λ db,
  if decide (Exists (duplicateKey doc) db)
  then (db, Throw "E11000 duplicate key error collection")
  else ((db ++ [doc])%list, Ok doc).

(** The update documents; [timestamps: true] refreshes [updatedAt]. *)
Definition setRevoked (now : Date) (t : IIngestionToken) : IIngestionToken :=
  {| _id := _id t; team := team t; tokenHash := tokenHash t;
     tokenPrefix := tokenPrefix t; status := revoked;
     assignedShard := assignedShard t; description := description t;
     lastUsedAt := lastUsedAt t; revokedAt := Some now;
     createdAt := createdAt t; updatedAt := Some now |}.

Definition setAssignedShard (shard : string) (now : Date)
    (t : IIngestionToken) : IIngestionToken :=
  {| _id := _id t; team := team t; tokenHash := tokenHash t;
     tokenPrefix := tokenPrefix t; status := status t;
     assignedShard := Some shard; description := description t;
     lastUsedAt := lastUsedAt t; revokedAt := revokedAt t;
     createdAt := createdAt t; updatedAt := Some now |}.

Definition setLastUsedAt (now : Date) (t : IIngestionToken) : IIngestionToken :=
  {| _id := _id t; team := team t; tokenHash := tokenHash t;
     tokenPrefix := tokenPrefix t; status := status t;
     assignedShard := assignedShard t; description := description t;
     lastUsedAt := Some now; revokedAt := revokedAt t;
     createdAt := createdAt t; updatedAt := Some now |}.

Record Resolved := mkResolved {
  r_tokenId : string;
  r_tokenHash : string;
  r_teamId : string;
  r_assignedShard : option string
}.

Section Controller.
Variable sha256hex : string → string.
(** [config.INGESTION_SHARD_COUNT]. *)
Variable INGESTION_SHARD_COUNT : nat.

Definition resolveIngestionToken (token : string) (db : Tokens)
  : option Resolved :=
  let tokenHash_ := IngestionTokens.hashIngestionToken sha256hex token in
  match Mongo.findOne (λ d, tokenHash d = tokenHash_ ∧ status d = active) db with
  | None => None
  | Some doc =>
      Some {| r_tokenId := _id doc; r_tokenHash := tokenHash_;
              r_teamId := team doc; r_assignedShard := assignedShard doc |}
  end.

(** [updateOne(...).catch(() => {})]: never throws. *)
Definition markIngestionTokenUsed (tokenId : ObjectId) (now : Date) : M Tokens unit :=
  λ db, (fst (Mongo.findOneAndUpdate (λ d, _id d = tokenId)
                (setLastUsedAt now) db), Ok ()).

(** The shard the new token gets: [params.assignedShard] when given, the
    shard of the team's first active token when it has one, the
    allocator's answer otherwise. *)
Definition chooseShard (teamId : ObjectId) (paramShard : option string)
  : M Tokens (option string) :=
  if truthy paramShard then ret paramShard
  else
    await existingToken ←
      query (Mongo.findOne (λ d, team d = teamId ∧ status d = active)) ;;
    if truthy (existingToken ≫= assignedShard)
    then ret (existingToken ≫= assignedShard)
    else
      await nextShard ←
        query (Sharding.findNextAvailableShard INGESTION_SHARD_COUNT None) ;;
      if negb (truthy nextShard)
      then throw "No available ingestion shards found for new team."
      else ret nextShard.

(** [raw] is the random body of the token, [newId] the [_id] mongoose
    generates and [now] the clock at insertion. *)
Definition createIngestionToken (teamId : ObjectId)
    (description_ paramShard : option string)
    (raw : string) (newId : ObjectId) (now : Date)
  : M Tokens (string * IIngestionToken) :=
  let token := IngestionTokens.generateIngestionToken raw in
  let tokenHash_ := IngestionTokens.hashIngestionToken sha256hex token in
  await assignedShard_ ← chooseShard teamId paramShard ;;
  await doc ← create
    {| _id := newId; team := teamId; tokenHash := tokenHash_;
       tokenPrefix := IngestionTokens.tokenPrefix token 12;
       status := active; assignedShard := assignedShard_;
       description := description_; lastUsedAt := None; revokedAt := None;
       createdAt := Some now; updatedAt := Some now |} ;;
  ret (token, doc).

(** [listIngestionTokens], a [find] by team sorted by [createdAt]
    descending, only reads the collection. *)
Definition newerFirst (a b : IIngestionToken) : Prop :=
  (default 0 (createdAt b) ≤ default 0 (createdAt a))%Z.

Global Instance newerFirst_dec : RelDecision newerFirst.
Proof. intros a b. unfold newerFirst. apply _. Defined.

Definition listIngestionTokens (teamId : ObjectId) (db : Tokens) : Tokens :=
  merge_sort newerFirst (Mongo.find (λ d, team d = teamId) db).

Definition revokeIngestionToken (teamId tokenId : ObjectId) (now : Date)
  : M Tokens (option IIngestionToken) :=
  λ db,
    let '(db', updated) :=
      Mongo.findOneAndUpdate (λ d, _id d = tokenId ∧ team d = teamId)
        (setRevoked now) db in
    (db', Ok updated).

Definition rotateIngestionToken (teamId tokenId : ObjectId)
    (nowRevoke : Date) (raw : string) (newId : ObjectId) (nowCreate : Date)
  : M Tokens (string * IIngestionToken) :=
  await _ ← revokeIngestionToken teamId tokenId nowRevoke ;;
  createIngestionToken teamId None None raw newId nowCreate.

(** The teams the warning of [assignIngestionTokenShard] lists. *)
Definition teamsInShard (teamId : ObjectId) (shard : string) (db : Tokens)
  : gset string :=
  list_to_set (team <$> Mongo.find
    (λ d, assignedShard d = Some shard ∧ status d = active) db) ∖ {[teamId]}.

Definition assignIngestionTokenShard (teamId tokenId : ObjectId)
    (shard : string) (now : Date) : M Tokens (option IIngestionToken) :=
  λ db,
    let '(db', updated) :=
      Mongo.findOneAndUpdate
        (λ d, _id d = tokenId ∧ team d = teamId ∧ status d = active)
        (setAssignedShard shard now) db in
    (db', Ok updated).

End Controller.
End Controller.

(** ** routers/api/ingestionTokens.ts *)

Module Router.
Import Controller.

(** What a handler does with [res] and [next]. *)
Inductive Response :=
| Status (code : nat)
    (** [res.sendStatus(code)], [res.status(code).send()] *)
| JsonToken (token : string) (tokenRecord : IIngestionToken)
    (** [res.json({ token, tokenRecord: {...} })], status 200 *)
| JsonShard (id : string) (shard : option string)
    (** [res.json({ id, assignedShard })], status 200 *)
| Next (message : string).
    (** [next(e)]: the error goes to the error middleware *)

Definition statusCode (r : Response) : option nat :=
  match r with
  | Status code => Some code
  | JsonToken _ _ | JsonShard _ _ => Some 200
  | Next _ => None
  end.

Section Router.
Variable sha256hex : string → string.
Variable INGESTION_SHARD_COUNT : nat.

(** [router.post('/')], after [validateRequest] and with the [teamId]
    of the session. *)
Definition postToken (teamId : ObjectId) (description_ : option string)
    (raw : string) (newId : ObjectId) (now : Date) (db : Tokens)
  : Tokens * Response :=
  match createIngestionToken sha256hex INGESTION_SHARD_COUNT
          teamId description_ None raw newId now db with
  | (db', Ok (token, tokenRecord)) => (db', JsonToken token tokenRecord)
  | (db', Throw e) => (db', Next e)
  end.

(** [router.post('/:id/rotate')]. *)
Definition postRotate (teamId id : ObjectId) (nowRevoke : Date)
    (raw : string) (newId : ObjectId) (nowCreate : Date) (db : Tokens)
  : Tokens * Response :=
  match rotateIngestionToken sha256hex INGESTION_SHARD_COUNT
          teamId id nowRevoke raw newId nowCreate db with
  | (db', Ok (token, tokenRecord)) => (db', JsonToken token tokenRecord)
  | (db', Throw e) => (db', Next e)
  end.

(** [router.delete('/:id')]. *)
Definition deleteToken (teamId id : ObjectId) (now : Date) (db : Tokens)
  : Tokens * Response :=
  match revokeIngestionToken teamId id now db with
  | (db', Ok None) => (db', Status 404)
  | (db', Ok (Some _)) => (db', Status 200)
  | (db', Throw e) => (db', Next e)
  end.

(** [router.patch('/:id/shard')]. *)
Definition patchShard (teamId id : ObjectId) (shard : string) (now : Date)
    (db : Tokens) : Tokens * Response :=
  match assignIngestionTokenShard teamId id shard now db with
  | (db', Ok None) => (db', Status 404)
  | (db', Ok (Some updated)) =>
      (db', JsonShard (_id updated) (assignedShard updated))
  | (db', Throw e) => (db', Next e)
  end.
End Router.
End Router.

(** ** models/connection.ts *)

Module Connection.
Record IConnection := mkConnection {
  _id : ObjectId;
  host : option string;
  name : option string;
  password : option string;
  username : option string;
  team : ObjectId;
  isManaged : bool
}.
End Connection.

Abbreviation Connections := (list Connection.IConnection) (only parsing).

(** ** opamp/controllers/opampController.ts: the collector configuration *)

Module Collector.

(** The part of the [CollectorConfig] type the synthesizer fills in;
    objects keep the order of their keys. *)
Record Cors := mkCors {
  allowed_origins : list string;
  allowed_headers : list string
}.

Record HealthCheck := mkHealthCheck {
  hc_endpoint : string
}.

Record Grpc := mkGrpc {
  grpc_endpoint : string;
  grpc_include_metadata : bool
}.

Record Http := mkHttp {
  http_endpoint : string;
  http_include_metadata : bool;
  cors : Cors
}.

Inductive Receiver :=
| ReceiverNull
| ReceiverOtlp (grpc : Grpc) (http : Http).

Record RetryOnFailure := mkRetry {
  enabled : bool;
  initial_interval : string;
  max_interval : string;
  max_elapsed_time : string
}.

Record Clickhouse := mkClickhouse {
  endpoint : string;
  database : string;
  username : string;
  password : string;
  ttl : string;
  timeout : string;
  retry_on_failure : RetryOnFailure
}.

Inductive Exporter :=
| ExporterNull
| ExporterClickhouse (c : Clickhouse).

Record Pipeline := mkPipeline {
  p_receivers : list string;
  p_processors : list string;
  p_exporters : list string
}.

Record Service := mkService {
  s_extensions : list string;
  pipelines : list (string * Pipeline)
}.

Record CollectorConfig := mkConfig {
  extensions : list (string * HealthCheck);
  receivers : list (string * Receiver);
  connectors : list (string * unit);
  exporters : list (string * Exporter);
  service : Service
}.

Definition otlpReceiver : Receiver :=
  ReceiverOtlp
    {| grpc_endpoint := "0.0.0.0:4317"; grpc_include_metadata := true |}
    {| http_endpoint := "0.0.0.0:4318"; http_include_metadata := true;
       cors := {| allowed_origins := ["*"]; allowed_headers := ["*"] |} |}.

(** The literal returned when no team is assigned to the shard. *)
Definition nopConfigNoTeam : CollectorConfig :=
  {| extensions := [("health_check", {| hc_endpoint := ":13133" |})];
     receivers := [("nop", ReceiverNull); ("otlp/hyperdx", otlpReceiver)];
     connectors := [];
     exporters := [("nop", ExporterNull)];
     service :=
       {| s_extensions := ["health_check"];
          pipelines :=
            [("logs/nop",
              {| p_receivers := ["otlp/hyperdx"]; p_processors := ["batch"];
                 p_exporters := ["nop"] |});
             ("traces/nop",
              {| p_receivers := ["otlp/hyperdx"]; p_processors := ["batch"];
                 p_exporters := ["nop"] |});
             ("metrics/nop",
              {| p_receivers := ["otlp/hyperdx"]; p_processors := ["batch"];
                 p_exporters := ["nop"] |})] |} |}.

(** The literal returned when the team has no managed connection with
    a password. *)
Definition nopConfigNoConnection : CollectorConfig :=
  {| extensions := [("health_check", {| hc_endpoint := ":13133" |})];
     receivers := [("nop", ReceiverNull); ("otlp/hyperdx", otlpReceiver)];
     connectors := [];
     exporters := [("nop", ExporterNull)];
     service :=
       {| s_extensions := ["health_check"];
          pipelines :=
            [("logs/nop",
              {| p_receivers := ["otlp/hyperdx"]; p_processors := ["batch"];
                 p_exporters := ["nop"] |});
             ("traces/nop",
              {| p_receivers := ["otlp/hyperdx"]; p_processors := ["batch"];
                 p_exporters := ["nop"] |});
             ("metrics/nop",
              {| p_receivers := ["otlp/hyperdx"]; p_processors := ["batch"];
                 p_exporters := ["nop"] |})] |} |}.

Definition tenantPipeline : Pipeline :=
  {| p_receivers := ["otlp/hyperdx"];
     p_processors := ["memory_limiter"; "batch"];
     p_exporters := ["clickhouse"] |}.

(** The tenant-routed literal. *)
Definition tenantConfig (database_ teamUser password_ : string)
  : CollectorConfig :=
  {| extensions := [("health_check", {| hc_endpoint := ":13133" |})];
     receivers := [("nop", ReceiverNull); ("otlp/hyperdx", otlpReceiver)];
     connectors := [];
     exporters :=
       [("nop", ExporterNull);
        ("clickhouse",
         ExporterClickhouse
           {| endpoint := "${env:CLICKHOUSE_ENDPOINT}";
              database := database_;
              username := teamUser;
              password := password_;
              ttl := "720h";
              timeout := "5s";
              retry_on_failure :=
                {| enabled := true; initial_interval := "5s";
                   max_interval := "30s"; max_elapsed_time := "300s" |} |})];
     service :=
       {| s_extensions := ["health_check"];
          pipelines :=
            [("logs", tenantPipeline); ("traces", tenantPipeline);
             ("metrics", tenantPipeline)] |} |}.

(** [Array.from(new Set(xs))]: the distinct values, by first occurrence. *)
Definition distinct (xs : list string) : list string :=
  foldl (λ seen x, if decide (x ∈ seen) then seen else (seen ++ [x])%list) [] xs.

(** [.sort()] compares strings code unit by code unit, which
    [String.le] does on the ASCII ids. *)
Definition teamIdsOf (shardId : string) (db : Tokens) : list string :=
  let tokens :=
    Mongo.find (λ t, status t = active ∧ assignedShard t = Some shardId) db in
  merge_sort String.le (distinct (team <$> tokens)).

(** [teamIds[0]]. *)
Definition selectedTeam (shardId : string) (db : Tokens) : option string :=
  teamIdsOf shardId db !! 0.

(** [buildShardCollectorConfig(shardId)], over the two collections it
    reads. *)
Definition buildShardCollectorConfig (shardId : string) (db : Tokens)
    (conns : Connections) : CollectorConfig :=
  let teamId := selectedTeam shardId db in
  if negb (truthy teamId) then nopConfigNoTeam
  else
    let teamId := default "" teamId in
    let teamUser := "tenant_" +:+ teamId in
    let database_ := "tenant_" +:+ teamId in
    let conn :=
      Mongo.findOne
        (λ c, Connection.team c = teamId ∧ Connection.isManaged c = true)
        conns in
    if negb (truthy (conn ≫= Connection.password)) then nopConfigNoConnection
    else tenantConfig database_ teamUser
           (default "" (conn ≫= Connection.password)).

(** The signal a pipeline key [type[/name]] belongs to. *)
Fixpoint signalOf (key : string) : string :=
  match key with
  | EmptyString => EmptyString
  | String c rest =>
      if Ascii.eqb c "/"%char then EmptyString else String c (signalOf rest)
  end.

End Collector.

(** ** Buffers and [Buffer.toString('hex')] *)

Global Instance byte_eq_dec : EqDecision byte := Byte.byte_eq_dec.

Module Hex.
Definition hexDigit (n : N) : ascii :=
  match n with
  | 0 => "0" | 1 => "1" | 2 => "2" | 3 => "3" | 4 => "4" | 5 => "5"
  | 6 => "6" | 7 => "7" | 8 => "8" | 9 => "9" | 10 => "a" | 11 => "b"
  | 12 => "c" | 13 => "d" | 14 => "e" | _ => "f"
  end%N%char.

Definition hexOfByte (b : byte) : string :=
  let n := Byte.to_N b in
  String (hexDigit (n / 16)) (String (hexDigit (n mod 16)) EmptyString).

Definition toHex (bytes : list byte) : string :=
  foldr (λ b s, hexOfByte b +:+ s) "" bytes.
End Hex.

(** ** The OpAMP messages (opamp/utils/protobuf) *)

Module Opamp.

(** Modelled from the spec: the message types of [opamp/utils/protobuf]
    are not among the sources; these are the fields of the OpAMP
    [AgentToServer] frame that the controller and the registry read. *)
Record AnyValue := mkAnyValue { stringValue : option string }.

Record KeyValue := mkKeyValue { key : string; value : option AnyValue }.

Record AgentDescription := mkAgentDescription {
  identifyingAttributes : option (list KeyValue)
}.

Record AgentToServer := mkAgentToServer {
  a2s_instanceUid : list byte;
  a2s_agentDescription : option AgentDescription;
  a2s_capabilities : option N;
  a2s_lastRemoteConfigHash : option (list byte)
}.

(** [AgentCapabilities_AcceptsRemoteConfig = 0x00000002]. *)
Definition AcceptsRemoteConfig_bit : N := 1.

End Opamp.

(** ** opamp/services/agentService *)

Module AgentService.
Import Opamp.

(** Modelled from the spec: the agent registry ([agentService], with
    [processAgentStatus] and [agentAcceptsRemoteConfig]) is imported by
    the controller but is not among the sources. The spec has it as an
    in-memory map from [instance_uid] to the last-seen agent state
    (identifying attributes, capabilities, last config hash, last seen
    time); [process] merges the incoming fields into the stored entry,
    creating it if absent, and returns the merged entry. *)
Record Agent := mkAgent {
  instanceUid : list byte;
  agentDescription : option AgentDescription;
  capabilities : N;
  lastConfigHash : option (list byte);
  lastSeenAt : Date
}.

Abbreviation Registry := (gmap string Agent) (only parsing).

(** Modelled from the spec: an incoming field replaces the stored one,
    an absent field keeps it. *)
Definition orElse {A} (incoming stored : option A) : option A :=
  match incoming with
  | Some x => Some x
  | None => stored
  end.

(** Modelled from the spec: "merge incoming fields into the stored
    entry". *)
Definition merge (msg : AgentToServer) (now : Date) (stored : option Agent)
  : Agent :=
  {| instanceUid := a2s_instanceUid msg;
     agentDescription :=
       orElse (a2s_agentDescription msg) (stored ≫= agentDescription);
     capabilities :=
       default 0%N (orElse (a2s_capabilities msg) (capabilities <$> stored));
     lastConfigHash :=
       orElse (a2s_lastRemoteConfigHash msg) (stored ≫= lastConfigHash);
     lastSeenAt := now |}.

(** Modelled from the spec: [process(agent_to_server)] updates the
    entry under the agent's [instance_uid], "creating it if absent", and
    "returns the merged entry". *)
Definition processAgentStatus (msg : AgentToServer) (now : Date)
    (registry : Registry) : Registry * Agent :=
  let uid := Hex.toHex (a2s_instanceUid msg) in
  let agent := merge msg now (registry !! uid) in
  (<[uid := agent]> registry, agent).

(** Modelled from the spec: "the agent's capabilities include
    [AcceptsRemoteConfig]". *)
Definition agentAcceptsRemoteConfig (agent : Agent) : bool :=
  N.testbit (capabilities agent) AcceptsRemoteConfig_bit.

End AgentService.

(** ** opamp/controllers/opampController.ts: the endpoint *)

Module OpampController.
Import Opamp AgentService.

(** [attrs?.find(a => a.key === key)?.value?.stringValue ?? null]. *)
Definition getStringAttr (attrs : option (list KeyValue)) (key_ : string)
  : option string :=
  attr ← attrs ≫= (λ l, snd <$> list_find (λ a, key a = key_) l);
  v ← value attr;
  stringValue v.

Record Request := mkRequest {
  contentType : option string;   (** [req.get('Content-Type')] *)
  body : list byte               (** [req.body] *)
}.

Inductive Body :=
| Text (s : string)
| Binary (bytes : list byte).

Record Response := mkResponse {
  status : nat;
  responseContentType : option string;
  sent : Body
}.

(** What the server holds: the two collections the synthesizer reads and
    the in-memory agent registry. *)
Record ServerState := mkServerState {
  tokens : Tokens;
  connections : Connections;
  agents : Registry
}.

Section Handler.
(** The functions of [opamp/utils/protobuf] and [JSON.stringify], which
    are not among the sources. *)
Context {RemoteConfig : Type}.
Variable decodeAgentToServer : list byte → result AgentToServer.
Variable serverCapabilities : N.
Variable createRemoteConfig : list (string * list byte) → string → RemoteConfig.
Variable encodeServerToAgent :
  list byte → N → option RemoteConfig → list byte.
Variable stringify : Collector.CollectorConfig → list byte.

Definition unsupportedMediaType : Response :=
  {| status := 415; responseContentType := None;
     sent := Text "Unsupported Media Type: Content-Type must be application/x-protobuf" |}.

(** The [catch] branch. *)
Definition internalServerError : Response :=
  {| status := 500; responseContentType := None;
     sent := Text "Internal Server Error" |}.

(** [res.setHeader('Content-Type', ...); res.send(encodedResponse)]. *)
Definition protobufResponse (encoded : list byte) : Response :=
  {| status := 200; responseContentType := Some "application/x-protobuf";
     sent := Binary encoded |}.

Definition handleOpampMessage (req : Request) (now : Date) (st : ServerState)
  : ServerState * Response :=
  if decide (contentType req ≠ Some "application/x-protobuf")
  then (st, unsupportedMediaType)
  else
    match decodeAgentToServer (body req) with
    | Throw _ => (st, internalServerError)
    | Ok agentToServer =>
        let '(registry, agent) :=
          processAgentStatus agentToServer now (agents st) in
        let st' := {| tokens := tokens st; connections := connections st;
                      agents := registry |} in
        if agentAcceptsRemoteConfig agent then
          let shardId :=
            getStringAttr (agentDescription agent ≫= identifyingAttributes)
              "hdx.shard_id" in
          if negb (truthy shardId) then (st', internalServerError)
          else
            let otelCollectorConfig :=
              Collector.buildShardCollectorConfig (default "" shardId)
                (tokens st) (connections st) in
            let remoteConfig :=
              createRemoteConfig
                [("config.json", stringify otelCollectorConfig)]
                "application/json" in
            (st', protobufResponse
                    (encodeServerToAgent (instanceUid agent)
                       serverCapabilities (Some remoteConfig)))
        else
          (st', protobufResponse
                  (encodeServerToAgent (instanceUid agent)
                     serverCapabilities None))
    end.
End Handler.
End OpampController.

(** ** controllers/clickhouseTenantProvisioning.ts *)

Module Provisioning.
Import Async.
Local Open Scope await_scope.

Record ProvisionedTenantClickhouse := mkProvisioned {
  database : string;
  username : string;
  password : string
}.

(** [s.replace(/c/g, by)]. *)
Fixpoint replaceAll (c : ascii) (by_ : string) (s : string) : string :=
  match s with
  | EmptyString => EmptyString
  | String a rest =>
      if Ascii.eqb a c then by_ +:+ replaceAll c by_ rest
      else String a (replaceAll c by_ rest)
  end.

Definition quoteIdent (name : string) : string :=
  let safe := replaceAll "`" "" name in
  "`" +:+ safe +:+ "`".

Definition quoteStr (value : string) : string :=
  "'" +:+ replaceAll "'" "\'" value +:+ "'".

(** What [fetch] comes to for one statement. *)
Inductive FetchOutcome :=
| ResOk
| ResNotOk (status : nat) (body : string)
| FetchFails (message : string).

Definition getTenantDbName (teamId : string) : string := "tenant_" +:+ teamId.
Definition getTenantDbUser (teamId : string) : string := "tenant_" +:+ teamId.

(** The template literal of the [otel_logs] statement, after the
    interpolated database name. *)
Definition otel_logs_schema : string :=
  ".otel_logs
(
  `Timestamp` DateTime64(9) CODEC(Delta(8), ZSTD(1)),
  `TimestampTime` DateTime DEFAULT toDateTime(Timestamp),
  `TraceId` String CODEC(ZSTD(1)),
  `SpanId` String CODEC(ZSTD(1)),
  `TraceFlags` UInt8,
  `SeverityText` LowCardinality(String) CODEC(ZSTD(1)),
  `SeverityNumber` UInt8,
  `ServiceName` LowCardinality(String) CODEC(ZSTD(1)),
  `Body` String CODEC(ZSTD(1)),
  `ResourceSchemaUrl` LowCardinality(String) CODEC(ZSTD(1)),
  `ResourceAttributes` Map(LowCardinality(String), String) CODEC(ZSTD(1)),
  `ScopeSchemaUrl` LowCardinality(String) CODEC(ZSTD(1)),
  `ScopeName` String CODEC(ZSTD(1)),
  `ScopeVersion` LowCardinality(String) CODEC(ZSTD(1)),
  `ScopeAttributes` Map(LowCardinality(String), String) CODEC(ZSTD(1)),
  `LogAttributes` Map(LowCardinality(String), String) CODEC(ZSTD(1)),
  INDEX idx_trace_id TraceId TYPE bloom_filter(0.001) GRANULARITY 1,
  INDEX idx_res_attr_key mapKeys(ResourceAttributes) TYPE bloom_filter(0.01) GRANULARITY 1,
  INDEX idx_res_attr_value mapValues(ResourceAttributes) TYPE bloom_filter(0.01) GRANULARITY 1,
  INDEX idx_scope_attr_key mapKeys(ScopeAttributes) TYPE bloom_filter(0.01) GRANULARITY 1,
  INDEX idx_scope_attr_value mapValues(ScopeAttributes) TYPE bloom_filter(0.01) GRANULARITY 1,
  INDEX idx_log_attr_key mapKeys(LogAttributes) TYPE bloom_filter(0.01) GRANULARITY 1,
  INDEX idx_log_attr_value mapValues(LogAttributes) TYPE bloom_filter(0.01) GRANULARITY 1
)
ENGINE = MergeTree
PARTITION BY toDate(TimestampTime)
PRIMARY KEY (ServiceName, TimestampTime)
ORDER BY (ServiceName, TimestampTime, Timestamp)
TTL TimestampTime + toIntervalDay(30)
SETTINGS index_granularity = 8192, ttl_only_drop_parts = 1;
  ".

(** The template literal of the [otel_traces] statement, after the
    interpolated database name. *)
Definition otel_traces_schema : string :=
  ".otel_traces
(
  `Timestamp` DateTime64(9) CODEC(Delta(8), ZSTD(1)),
  `TraceId` String CODEC(ZSTD(1)),
  `SpanId` String CODEC(ZSTD(1)),
  `ParentSpanId` String CODEC(ZSTD(1)),
  `TraceState` String CODEC(ZSTD(1)),
  `SpanName` LowCardinality(String) CODEC(ZSTD(1)),
  `SpanKind` LowCardinality(String) CODEC(ZSTD(1)),
  `ServiceName` LowCardinality(String) CODEC(ZSTD(1)),
  `ResourceAttributes` Map(LowCardinality(String), String) CODEC(ZSTD(1)),
  `ScopeName` String CODEC(ZSTD(1)),
  `ScopeVersion` String CODEC(ZSTD(1)),
  `SpanAttributes` Map(LowCardinality(String), String) CODEC(ZSTD(1)),
  `Duration` UInt64 CODEC(ZSTD(1)),
  `StatusCode` LowCardinality(String) CODEC(ZSTD(1)),
  `StatusMessage` String CODEC(ZSTD(1)),
  `Events.Timestamp` Array(DateTime64(9)) CODEC(ZSTD(1)),
  `Events.Name` Array(LowCardinality(String)) CODEC(ZSTD(1)),
  `Events.Attributes` Array(Map(LowCardinality(String), String)) CODEC(ZSTD(1)),
  `Links.TraceId` Array(String) CODEC(ZSTD(1)),
  `Links.SpanId` Array(String) CODEC(ZSTD(1)),
  `Links.TraceState` Array(String) CODEC(ZSTD(1)),
  `Links.Attributes` Array(Map(LowCardinality(String), String)) CODEC(ZSTD(1)),
  INDEX idx_trace_id TraceId TYPE bloom_filter(0.001) GRANULARITY 1,
  INDEX idx_res_attr_key mapKeys(ResourceAttributes) TYPE bloom_filter(0.01) GRANULARITY 1,
  INDEX idx_res_attr_value mapValues(ResourceAttributes) TYPE bloom_filter(0.01) GRANULARITY 1,
  INDEX idx_span_attr_key mapKeys(SpanAttributes) TYPE bloom_filter(0.01) GRANULARITY 1,
  INDEX idx_span_attr_value mapValues(SpanAttributes) TYPE bloom_filter(0.01) GRANULARITY 1,
  INDEX idx_duration Duration TYPE minmax GRANULARITY 1
)
ENGINE = MergeTree
PARTITION BY toDate(Timestamp)
ORDER BY (ServiceName, SpanName, toDateTime(Timestamp))
TTL toDate(Timestamp) + toIntervalDay(30)
SETTINGS index_granularity = 8192, ttl_only_drop_parts = 1;
  ".

(** The template literal of the [hyperdx_sessions] statement, after the
    interpolated database name. *)
Definition hyperdx_sessions_schema : string :=
  ".hyperdx_sessions
(
  `Timestamp` DateTime64(9) CODEC(Delta(8), ZSTD(1)),
  `TimestampTime` DateTime DEFAULT toDateTime(Timestamp),
  `TraceId` String CODEC(ZSTD(1)),
  `SpanId` String CODEC(ZSTD(1)),
  `TraceFlags` UInt8,
  `SeverityText` LowCardinality(String) CODEC(ZSTD(1)),
  `SeverityNumber` UInt8,
  `ServiceName` LowCardinality(String) CODEC(ZSTD(1)),
  `Body` String CODEC(ZSTD(1)),
  `ResourceSchemaUrl` LowCardinality(String) CODEC(ZSTD(1)),
  `ResourceAttributes` Map(LowCardinality(String), String) CODEC(ZSTD(1)),
  `ScopeSchemaUrl` LowCardinality(String) CODEC(ZSTD(1)),
  `ScopeName` String CODEC(ZSTD(1)),
  `ScopeVersion` LowCardinality(String) CODEC(ZSTD(1)),
  `ScopeAttributes` Map(LowCardinality(String), String) CODEC(ZSTD(1)),
  `LogAttributes` Map(LowCardinality(String), String) CODEC(ZSTD(1)),
  INDEX idx_trace_id TraceId TYPE bloom_filter(0.001) GRANULARITY 1,
  INDEX idx_res_attr_key mapKeys(ResourceAttributes) TYPE bloom_filter(0.01) GRANULARITY 1,
  INDEX idx_res_attr_value mapValues(ResourceAttributes) TYPE bloom_filter(0.01) GRANULARITY 1,
  INDEX idx_scope_attr_key mapKeys(ScopeAttributes) TYPE bloom_filter(0.01) GRANULARITY 1,
  INDEX idx_scope_attr_value mapValues(ScopeAttributes) TYPE bloom_filter(0.01) GRANULARITY 1,
  INDEX idx_log_attr_key mapKeys(LogAttributes) TYPE bloom_filter(0.01) GRANULARITY 1,
  INDEX idx_log_attr_value mapValues(LogAttributes) TYPE bloom_filter(0.01) GRANULARITY 1
)
ENGINE = MergeTree
PARTITION BY toDate(TimestampTime)
PRIMARY KEY (ServiceName, TimestampTime)
ORDER BY (ServiceName, TimestampTime, Timestamp)
TTL TimestampTime + toIntervalDay(30)
SETTINGS index_granularity = 8192, ttl_only_drop_parts = 1;
  ".

Section Provisioner.
(** [config.CLICKHOUSE_ADMIN_HOST] and
    [config.CLICKHOUSE_TENANT_PROVISIONING_ENABLED]. *)
Variable CLICKHOUSE_ADMIN_HOST : option string.
Variable CLICKHOUSE_TENANT_PROVISIONING_ENABLED : bool.
(** The admin endpoint's answer to a statement. *)
Variable respond : string → FetchOutcome.

(** [clickhouseAdminQuery(sql)]; the store is the list of the
    statements the endpoint has executed, oldest first. *)
Definition clickhouseAdminQuery (sql : string) : M (list string) unit :=
  if negb (truthy CLICKHOUSE_ADMIN_HOST)
  then throw "CLICKHOUSE_ADMIN_HOST is not set"
  else λ executed,
    match respond sql with
    | ResOk => ((executed ++ [sql])%list, Ok ())
    | ResNotOk status body =>
        (executed,
         Throw ("ClickHouse admin query failed: " +:+ pretty status +:+ " " +:+ body))
    | FetchFails message => (executed, Throw message)
    end.

(** [randomBytes] is [crypto.randomBytes(24)]. *)
Definition provisionTenantClickhouse (teamId : string)
    (randomBytes : list byte)
  : M (list string) (option ProvisionedTenantClickhouse) :=
  if negb CLICKHOUSE_TENANT_PROVISIONING_ENABLED then ret None
  else
    let database_ := getTenantDbName teamId in
    let username_ := getTenantDbUser teamId in
    let password_ := Hex.toHex randomBytes in
    await _ ← clickhouseAdminQuery
      ("CREATE DATABASE IF NOT EXISTS " +:+ quoteIdent database_) ;;
    await _ ← clickhouseAdminQuery
      ("CREATE USER IF NOT EXISTS " +:+ quoteIdent username_ +:+
       " IDENTIFIED WITH plaintext_password BY " +:+ quoteStr password_) ;;
    await _ ← clickhouseAdminQuery
      ("GRANT SELECT, INSERT, ALTER, CREATE, DROP, TRUNCATE ON " +:+
       quoteIdent database_ +:+ ".* TO " +:+ quoteIdent username_) ;;
    await _ ← clickhouseAdminQuery
      ("
CREATE TABLE IF NOT EXISTS " +:+ quoteIdent database_ +:+ otel_logs_schema) ;;
    await _ ← clickhouseAdminQuery
      ("
CREATE TABLE IF NOT EXISTS " +:+ quoteIdent database_ +:+ otel_traces_schema) ;;
    await _ ← clickhouseAdminQuery
      ("
CREATE TABLE IF NOT EXISTS " +:+ quoteIdent database_ +:+ hyperdx_sessions_schema) ;;
    ret (Some {| database := database_; username := username_;
                 password := password_ |}).
End Provisioner.

(** [needle] occurs in [hay]. *)
Fixpoint contains (needle hay : string) : bool :=
  String.prefix needle hay ||
  match hay with
  | EmptyString => false
  | String _ rest => contains needle rest
  end.

(** The statement is an idempotent creation of table [table] in the
    database quoted as [db]. *)
Definition createsTable (db table stmt : string) : Prop :=
  contains ("CREATE TABLE IF NOT EXISTS " +:+ db +:+ "." +:+ table) stmt = true.

Definition canonicalTables : list string :=
  ["otel_logs"; "otel_traces"; "otel_metrics_gauge"; "otel_metrics_sum";
   "otel_metrics_histogram"; "hyperdx_sessions"].

(** The specification's wording: with provisioning enabled (and the
    admin endpoint accepting every statement), every canonical table is
    created in [tenant_<team_id>]. *)
Definition provisionsCanonicalTables : Prop :=
  ∀ host teamId randomBytes table,
    truthy (Some host) = true →
    table ∈ canonicalTables →
    ∃ stmt,
      stmt ∈ (provisionTenantClickhouse (Some host) true (λ _, ResOk)
                teamId randomBytes []).1 ∧
      createsTable (quoteIdent (getTenantDbName teamId)) table stmt.

End Provisioning.

(** ** models/teamMembership.ts *)

Module TeamMembership.

Inductive TeamRole := owner | admin | member.
Inductive TeamMembershipStatus := active | invited | disabled.

Global Instance TeamRole_eq_dec : EqDecision TeamRole.
Proof. solve_decision. Defined.
Global Instance TeamMembershipStatus_eq_dec : EqDecision TeamMembershipStatus.
Proof. solve_decision. Defined.

(** The fields of [ITeamMembership]. *)
Record ITeamMembership := mkMembership {
  _id : ObjectId;
  team : ObjectId;
  user : ObjectId;
  role : TeamRole;
  status : TeamMembershipStatus
}.

End TeamMembership.

Abbreviation Memberships :=
  (list TeamMembership.ITeamMembership) (only parsing).

(** ** controllers/teamMembership.ts *)

Module TeamMembershipController.
Import Async TeamMembership.
Local Open Scope await_scope.

(** [TeamMembership.create(doc)]: [_id] has its unique index and the
    schema declares the unique index [{ team: 1, user: 1 }]. *)
Definition duplicateKey (doc d : ITeamMembership) : Prop :=
  _id d = _id doc ∨ (team d = team doc ∧ user d = user doc).

Definition create (doc : ITeamMembership) : M Memberships ITeamMembership :=
  λ db,
    if decide (Exists (duplicateKey doc) db)
    then (db, Throw "E11000 duplicate key error collection")
    else ((db ++ [doc])%list, Ok doc).

Section Controller.
(** [new mongoose.Types.ObjectId(id)]: the id, or the error the
    constructor throws on a string that is not one. *)
Variable toObjectId : string → result ObjectId.

Definition newObjectId {S} (id : string) : M S ObjectId :=
  λ db, (db, toObjectId id).

(** [newId] is the [_id] mongoose generates for a new document. *)
Definition ensureTeamMembership (userId teamId : string)
    (roleIfCreate : option TeamRole) (newId : ObjectId)
  : M Memberships ITeamMembership :=
  await user_ ← newObjectId userId ;;
  await team_ ← newObjectId teamId ;;
  await existing ←
    query (Mongo.findOne (λ m, user m = user_ ∧ team m = team_)) ;;
  match existing with
  | Some m => ret m
  | None =>
      create {| _id := newId; team := team_; user := user_;
                role := default member roleIfCreate; status := active |}
  end.

Definition userHasMembership (userId teamId : string) : M Memberships bool :=
  await user_ ← newObjectId userId ;;
  await team_ ← newObjectId teamId ;;
  await membership ←
    query (Mongo.findOne
             (λ m, user m = user_ ∧ team m = team_ ∧ status m = active)) ;;
  ret (bool_decide (is_Some membership)).

End Controller.
End TeamMembershipController.

(** ** The team databases: [sanitizeDatabaseName] *)

Module TeamDatabase.

(** The classes [[a-zA-Z0-9_]] and [\d]. *)
Definition isDigit (c : ascii) : bool :=
  let n := nat_of_ascii c in ((48 <=? n) && (n <=? 57))%nat.

Definition isWordChar (c : ascii) : bool :=
  let n := nat_of_ascii c in
  ((97 <=? n)%nat && (n <=? 122)%nat) || ((65 <=? n)%nat && (n <=? 90)%nat) ||
  isDigit c || (n =? 95)%nat.

(** [name.replace(/[^a-zA-Z0-9_]/g, '_')], one character of the string
    per code unit. *)
Fixpoint replaceNonWord (name : string) : string :=
  match name with
  | EmptyString => EmptyString
  | String c rest =>
      String (if isWordChar c then c else "_"%char) (replaceNonWord rest)
  end.

(** [/^\d/.test(s)]. *)
Definition startsWithDigit (s : string) : bool :=
  match s with
  | EmptyString => false
  | String c _ => isDigit c
  end.

Definition sanitizeDatabaseName (name : string) : string :=
  let sanitized := replaceNonWord name in
  if startsWithDigit sanitized then "db_" +:+ sanitized else sanitized.

End TeamDatabase.

(** ** Vocabulary of the properties *)

Module Spec.
Import Controller.

(** A token with id [tokenId] exists under team [teamId]. *)
Definition tokenOfTeam (db : Tokens) (teamId tokenId : ObjectId) : Prop :=
  ∃ t, t ∈ db ∧ _id t = tokenId ∧ team t = teamId.

Section Spec.
Variable sha256hex : string → string.
Variable N : nat.

Definition exhausted : string :=
  "No available ingestion shards found for new team.".

(** The allocator's answer as [chooseShard] passes it on. *)
Definition allocated (db : Tokens) : result (option string) :=
  match Sharding.findNextAvailableShard N None db with
  | Some s => Ok (Some s)
  | None => Throw exhausted
  end.

(** The document [createIngestionToken] hands to [create]. *)
Definition newDoc (teamId : ObjectId) (description_ shard : option string)
    (raw : string) (newId : ObjectId) (now : Date) : IIngestionToken :=
  let token := IngestionTokens.generateIngestionToken raw in
  {| _id := newId; team := teamId;
     tokenHash := IngestionTokens.hashIngestionToken sha256hex token;
     tokenPrefix := IngestionTokens.tokenPrefix token 12;
     status := active; assignedShard := shard;
     description := description_; lastUsedAt := None; revokedAt := None;
     createdAt := Some now; updatedAt := Some now |}.

(** No stored document has the new [_id] or the new token's hash. *)
Definition freshKeys (raw : string) (newId : ObjectId) (db : Tokens) : Prop :=
  ∀ d, d ∈ db →
    _id d ≠ newId ∧
    tokenHash d ≠ IngestionTokens.hashIngestionToken sha256hex
                     (IngestionTokens.generateIngestionToken raw).

End Spec.

(** I4: all active tokens of a team share one [assignedShard]. *)
Definition I4 (db : Tokens) (teamId : ObjectId) : Prop :=
  ∀ t1 t2, t1 ∈ db → t2 ∈ db →
    team t1 = teamId → team t2 = teamId →
    status t1 = active → status t2 = active →
    assignedShard t1 = assignedShard t2.

(** Sequences of registry calls. *)

Inductive Call :=
| CallCreate (teamId : ObjectId) (description_ paramShard : option string)
    (raw : string) (newId : ObjectId) (now : Date)
| CallRevoke (teamId tokenId : ObjectId) (now : Date)
| CallRotate (teamId tokenId : ObjectId) (nowRevoke : Date) (raw : string)
    (newId : ObjectId) (nowCreate : Date)
| CallAssign (teamId tokenId : ObjectId) (shard : string) (now : Date)
| CallMarkUsed (tokenId : ObjectId) (now : Date).

(** The call is [assign_shard] addressed to that token of that team. *)
Definition reassigns (teamId tokenId : ObjectId) (c : Call) : Prop :=
  match c with
  | CallAssign tm id _ _ => tm = teamId ∧ id = tokenId
  | _ => False
  end.

Section Calls.
Variable sha256hex : string → string.
Variable N : nat.

(** The collection a call leaves behind, whether it returns or throws. *)
Definition step (db : Tokens) (c : Call) : Tokens :=
  match c with
  | CallCreate teamId desc param raw newId now =>
      (createIngestionToken sha256hex N teamId desc param raw newId now db).1
  | CallRevoke teamId tokenId now =>
      (revokeIngestionToken teamId tokenId now db).1
  | CallRotate teamId tokenId nowRevoke raw newId nowCreate =>
      (rotateIngestionToken sha256hex N teamId tokenId nowRevoke raw newId
         nowCreate db).1
  | CallAssign teamId tokenId shard now =>
      (assignIngestionTokenShard teamId tokenId shard now db).1
  | CallMarkUsed tokenId now =>
      (markIngestionTokenUsed tokenId now db).1
  end.

Definition runCalls (calls : list Call) (db : Tokens) : Tokens :=
  foldl step db calls.

(** P4 as the specification words it: after a [create] returned the
    plaintext [token] with the record [rec], and whatever calls followed,
    as long as the record is still active [resolve token] gives the team
    and the shard of the creation response. *)
Definition resolveRoundTrip : Prop :=
  ∀ teamId desc param raw newId now db0 db1 token rec calls,
    createIngestionToken sha256hex N teamId desc param raw newId now db0
      = (db1, Ok (token, rec)) →
    (∃ t, t ∈ runCalls calls db1 ∧ _id t = _id rec ∧ status t = active) →
    ∃ r, resolveIngestionToken sha256hex token (runCalls calls db1) = Some r ∧
         r_teamId r = team rec ∧ r_assignedShard r = assignedShard rec.
End Calls.

(** The document with [_id = id] is there, it alone carries the hash
    [h], and it belongs to team [tm]. *)
Definition tracks (id h tm : string) (db : Tokens) : Prop :=
  (∃ t, t ∈ db ∧ _id t = id) ∧
  (∀ t, t ∈ db → tokenHash t = h → _id t = id) ∧
  (∀ t, t ∈ db → _id t = id → tokenHash t = h ∧ team t = tm).

Definition onShard (id : string) (sh : option string) (db : Tokens) : Prop :=
  ∀ t, t ∈ db → _id t = id → assignedShard t = sh.

(** I2: every active token has a shard. *)
Definition I2 (db : Tokens) : Prop :=
  ∀ t, t ∈ db → status t = active → truthy (assignedShard t) = true.

(** A call other than [assign_shard] that names no shard of its own. *)
Definition plainCall (c : Call) : Prop :=
  match c with
  | CallCreate _ _ param _ _ _ => param = None
  | CallAssign _ _ _ _ => False
  | _ => True
  end.

(** An update document that does not make a token active, nor moves an
    active one. *)
Definition keepsRouting (upd : IIngestionToken → IIngestionToken) : Prop :=
  ∀ t, status (upd t) = active →
    status t = active ∧ team (upd t) = team t ∧
    assignedShard (upd t) = assignedShard t.

(** An update document that leaves the keys and the team alone. *)
Definition keepsKeys (upd : IIngestionToken → IIngestionToken) : Prop :=
  ∀ t, _id (upd t) = _id t ∧ tokenHash (upd t) = tokenHash t ∧ team (upd t) = team t.

End Spec.
Export Spec.

(** ** Vocabulary of the OpAMP properties *)

Module OpampSpec.
Import Opamp AgentService OpampController.

(** The team has a managed connection whose password can be read. *)
Definition hasManagedPassword (conns : Connections) (teamId : string) : Prop :=
  ∃ c, c ∈ conns ∧ Connection.team c = teamId ∧
       Connection.isManaged c = true ∧ truthy (Connection.password c) = true.

(** The identifying attributes of the agent have no [hdx.shard_id] key. *)
Definition lacksShardId (agent : Agent) : Prop :=
  ∀ attrs, agentDescription agent ≫= identifyingAttributes = Some attrs →
    ∀ a, a ∈ attrs → key a ≠ "hdx.shard_id".

Definition protobuf : option string := Some "application/x-protobuf".

Section Claims.
Context {RemoteConfig : Type}.
Variable decodeAgentToServer : list byte → result AgentToServer.
Variable serverCapabilities : N.
Variable createRemoteConfig : list (string * list byte) → string → RemoteConfig.
Variable encodeServerToAgent :
  list byte → N → option RemoteConfig → list byte.
Variable stringify : Collector.CollectorConfig → list byte.

Abbreviation handle :=
  (handleOpampMessage decodeAgentToServer serverCapabilities
     createRemoteConfig encodeServerToAgent stringify).

(** The specification's wording: a request of an agent that accepts
    remote config but has no [hdx.shard_id] is answered 500 and leaves the
    whole server state, the agent registry included, as it was. *)
Definition misconfiguredAgentLeavesState : Prop :=
  ∀ req now st msg,
    contentType req = protobuf →
    decodeAgentToServer (body req) = Ok msg →
    let agent := (processAgentStatus msg now (agents st)).2 in
    agentAcceptsRemoteConfig agent = true →
    lacksShardId agent →
    status (handle req now st).2 = 500 ∧ (handle req now st).1 = st.

(** The specification's wording: an undecodable protobuf body is
    answered 400, any other content type 415. *)
Definition undecodableIs400 : Prop :=
  ∀ req now st,
    (contentType req = protobuf →
     (∃ e, decodeAgentToServer (body req) = Throw e) →
     status (handle req now st).2 = 400) ∧
    (contentType req ≠ protobuf → status (handle req now st).2 = 415).
End Claims.
End OpampSpec.
Export OpampSpec.

(** ** Vocabulary of the further registry properties *)

(** The unique indexes of the collection: on [_id] and on [tokenHash]. *)
Definition uniqueKeys (db : Tokens) : Prop :=
  NoDup (_id <$> db) ∧ NoDup (tokenHash <$> db).

(** I3: the active tokens assigned to one shard belong to one team. *)
Definition I3 (db : Tokens) : Prop :=
  ∀ s t1 t2, t1 ∈ db → t2 ∈ db →
    status t1 = active → status t2 = active →
    assignedShard t1 = Some s → assignedShard t2 = Some s →
    team t1 = team t2.

(** The record [t'] is the record [t] later on: same keys, same team,
    and still revoked if [t] was. *)
Definition laterOf (t t' : IIngestionToken) : Prop :=
  _id t' = _id t ∧ tokenHash t' = tokenHash t ∧ team t' = team t ∧
  createdAt t' = createdAt t ∧
  (status t = revoked → status t' = revoked).

(** No token with hash [h] is active, and one with that hash is stored. *)
Definition dead (h : string) (db : Tokens) : Prop :=
  (∃ t, t ∈ db ∧ tokenHash t = h) ∧
  (∀ t, t ∈ db → tokenHash t = h → status t = revoked).

(** An update document that yields the later state of the record. *)
Definition keepsLater (upd : IIngestionToken → IIngestionToken) : Prop :=
  ∀ t, laterOf t (upd t).

(** ** Sample collections *)

(** A stand-in for SHA-256 on the sample collections. *)
Definition sampleHash (s : string) : string := "sha256:" +:+ s.

(** Team [aa] once held shard-0; teams [bb] and [cc] hold shard-1 and
    shard-0. *)
Definition sampleA : IIngestionToken :=
  {| _id := "65f000000000000000000001"; team := "65f0000000000000000000aa";
     tokenHash := sampleHash "hdx_ingest_A"; tokenPrefix := "hdx_ingest_A";
     status := revoked; assignedShard := Some "shard-0"; description := None;
     lastUsedAt := None; revokedAt := Some 50%Z;
     createdAt := Some 10%Z; updatedAt := Some 50%Z |}.

Definition sampleB : IIngestionToken :=
  {| _id := "65f000000000000000000002"; team := "65f0000000000000000000bb";
     tokenHash := sampleHash "hdx_ingest_B"; tokenPrefix := "hdx_ingest_B";
     status := active; assignedShard := Some "shard-1"; description := None;
     lastUsedAt := None; revokedAt := None;
     createdAt := Some 20%Z; updatedAt := Some 20%Z |}.

Definition sampleC : IIngestionToken :=
  {| _id := "65f000000000000000000006"; team := "65f0000000000000000000cc";
     tokenHash := sampleHash "hdx_ingest_F"; tokenPrefix := "hdx_ingest_F";
     status := active; assignedShard := Some "shard-0"; description := None;
     lastUsedAt := None; revokedAt := None;
     createdAt := Some 25%Z; updatedAt := Some 25%Z |}.

Definition sampleB2 : IIngestionToken :=
  {| _id := "65f000000000000000000004"; team := "65f0000000000000000000bb";
     tokenHash := sampleHash "hdx_ingest_D"; tokenPrefix := "hdx_ingest_D";
     status := active; assignedShard := Some "shard-1"; description := None;
     lastUsedAt := None; revokedAt := None;
     createdAt := Some 30%Z; updatedAt := Some 30%Z |}.

(** A token revoked some time ago. *)
Definition revokedSample : IIngestionToken :=
  {| _id := "65f000000000000000000001"; team := "65f0000000000000000000aa";
     tokenHash := "9f86d081884c7d65"; tokenPrefix := "hdx_ingest_Q";
     status := revoked; assignedShard := Some "shard-0"; description := None;
     lastUsedAt := None; revokedAt := Some 1000%Z;
     createdAt := Some 900%Z; updatedAt := Some 1000%Z |}.

(** A heartbeat on the wire: [instance_uid = 0x2a] (field 1) and
    [capabilities = 2] (field 4), and what the decoder makes of it; any
    other body is rejected the way a truncated message is. *)
Definition sampleHeartbeat : list byte := [x0a; x01; x2a; x20; x02].

Definition sampleDecode (bytes : list byte) : result Opamp.AgentToServer :=
  if decide (bytes = sampleHeartbeat) then
    Ok {| Opamp.a2s_instanceUid := [x2a];
          Opamp.a2s_agentDescription := None;
          Opamp.a2s_capabilities := Some 2%N;
          Opamp.a2s_lastRemoteConfigHash := None |}
  else Throw "index out of range".

(** A server that has seen no agent yet, and stand-ins for the encoder,
    the remote-config wrapper and the serializer. *)
Definition sampleState : OpampController.ServerState :=
  {| OpampController.tokens := []; OpampController.connections := [];
     OpampController.agents := ∅ |}.

Definition sampleHandle :=
  OpampController.handleOpampMessage (RemoteConfig := list byte)
    sampleDecode 0%N (λ files _, default [] (snd <$> head files))
    (λ uid _ cfg, (uid ++ default [] cfg)%list) (λ _, []).

(** A connection the team configured by hand: it is not managed. *)
Definition unmanagedConnection : Connection.IConnection :=
  {| Connection._id := "65f0000000000000000000c1";
     Connection.host := Some "http://ch:8123";
     Connection.name := Some "Local ClickHouse";
     Connection.password := Some "secret";
     Connection.username := Some "default";
     Connection.team := "65f0000000000000000000bb";
     Connection.isManaged := false |}.

Definition heartbeatRequest : OpampController.Request :=
  {| OpampController.contentType := Some "application/x-protobuf"; OpampController.body := sampleHeartbeat |}.

(** A length-delimited field announcing five bytes and carrying one. *)
Definition truncatedRequest : OpampController.Request :=
  {| OpampController.contentType := Some "application/x-protobuf"; OpampController.body := [x0a; x05; x2a] |}.

Definition jsonRequest : OpampController.Request :=
  {| OpampController.contentType := Some "application/json"; OpampController.body := [] |}.

(** Team [aa] has been moved by hand to a shard outside the range, and
    team [bb] holds the single shard of the deployment. *)
Definition strandedA : IIngestionToken :=
  {| _id := "65f000000000000000000001"; team := "65f0000000000000000000aa";
     tokenHash := sampleHash "hdx_ingest_A"; tokenPrefix := "hdx_ingest_A";
     status := active; assignedShard := Some "shard-9"; description := None;
     lastUsedAt := None; revokedAt := None;
     createdAt := Some 10%Z; updatedAt := Some 40%Z |}.

Definition holderB : IIngestionToken :=
  {| _id := "65f000000000000000000002"; team := "65f0000000000000000000bb";
     tokenHash := sampleHash "hdx_ingest_B"; tokenPrefix := "hdx_ingest_B";
     status := active; assignedShard := Some "shard-0"; description := None;
     lastUsedAt := None; revokedAt := None;
     createdAt := Some 45%Z; updatedAt := Some 45%Z |}.

(** The sample collection after team [bb] created the token [E]. *)
Definition sampleE : IIngestionToken :=
  newDoc sampleHash "65f0000000000000000000bb" None (Some "shard-1")
    "E" "65f000000000000000000005" 70%Z.

(** The managed connection the provisioner made for team [bb]. *)
Definition managedConnectionB : Connection.IConnection :=
  {| Connection._id := "65f0000000000000000000c2";
     Connection.host := Some "http://ch:8123";
     Connection.name := Some "Tenant ClickHouse";
     Connection.password := Some "5ca1ab1e";
     Connection.username := Some "tenant_65f0000000000000000000bb";
     Connection.team := "65f0000000000000000000bb";
     Connection.isManaged := true |}.

(** ** Vocabulary of the provisioner properties *)

Global Instance FetchOutcome_eq_dec : EqDecision Provisioning.FetchOutcome.
Proof. solve_decision. Defined.

(** The statements of a provisioning run that meets no refusal, in the
    order they are issued. *)
Definition statementsOf (teamId : string) (randomBytes : list byte)
  : list string :=
  (Provisioning.provisionTenantClickhouse (Some "http://clickhouse:8123") true
     (λ _, Provisioning.ResOk) teamId randomBytes []).1.

(** Statements sent one after the other, up to the first that throws. *)
Fixpoint sendAll (host : option string)
    (respond : string → Provisioning.FetchOutcome) (stmts : list string)
  : Async.M (list string) unit :=
  match stmts with
  | [] => Async.ret ()
  | sql :: rest =>
      Async.bind (Provisioning.clickhouseAdminQuery host respond sql)
        (λ _, sendAll host respond rest)
  end.

(** The characters of a string, and the lowercase hexadecimal digits. *)
Fixpoint chars (s : string) : list ascii :=
  match s with
  | EmptyString => []
  | String a rest => a :: chars rest
  end.

Definition isHexDigit (c : ascii) : Prop := c ∈ chars "0123456789abcdef".

(** An admin endpoint that refuses to grant privileges. *)
Definition refusesGrant (sql : string) : Provisioning.FetchOutcome :=
  if String.prefix "GRANT" sql then Provisioning.ResNotOk 497 "Not enough privileges"
  else Provisioning.ResOk.

(** The first four bytes of a digest read as a big-endian unsigned
    number. *)
Definition bigEndian32 (hash : list byte) : Z :=
  (Sharding.byteAt hash 0 * 2 ^ 24 + Sharding.byteAt hash 1 * 2 ^ 16 +
   Sharding.byteAt hash 2 * 2 ^ 8 + Sharding.byteAt hash 3)%Z.

(** A stand-in digest whose first byte has its high bit set. *)
Definition sampleDigest (teamId : string) : list byte :=
  [xfe; x01; x02; x03; x04].

(** ** Sample memberships *)

(** Ids are taken as they are when they have the 24 characters of an
    ObjectId. *)
Definition sampleObjectId (id : string) : result string :=
  if decide (String.length id = 24) then Ok id
  else Throw "BSONError: input must be a 24 character hex string".

(** User [01] was a member of team [aa] and has been disabled. *)
Definition disabledMember : TeamMembership.ITeamMembership :=
  {| TeamMembership._id := "65f0000000000000000000e1";
     TeamMembership.team := "65f0000000000000000000aa";
     TeamMembership.user := "65f000000000000000000u01";
     TeamMembership.role := TeamMembership.admin;
     TeamMembership.status := TeamMembership.disabled |}.

(** Some team other than [tm] has an active token assigned to shard
    [s]. *)
Definition occupiedByOthers (db : Tokens) (tm s : string) : Prop :=
  ∃ t, t ∈ db ∧ status t = active ∧ team t ≠ tm ∧ assignedShard t = Some s.

(** The team on whose behalf a call is made; a usage mark carries
    none. *)
Definition callTeam (c : Call) : option string :=
  match c with
  | CallCreate teamId _ _ _ _ _ => Some teamId
  | CallRevoke teamId _ _ => Some teamId
  | CallRotate teamId _ _ _ _ _ => Some teamId
  | CallAssign teamId _ _ _ => Some teamId
  | CallMarkUsed _ _ => None
  end.

(** At most one stored token has the id. *)
Definition sole (id : string) (db : Tokens) : Prop :=
  ∀ i j t1 t2, db !! i = Some t1 → db !! j = Some t2 →
    _id t1 = id → _id t2 = id → i = j.

(** The metric tables of the canonical set. *)
Definition metricTables : list string :=
  ["otel_metrics_gauge"; "otel_metrics_sum"; "otel_metrics_histogram"].

(** [conn] is the first managed connection stored for the team, the one
    [Connection.findOne({ team, isManaged: true })] returns. *)
Definition firstManaged (conns : Connections) (teamId : string)
    (conn : Connection.IConnection) : Prop :=
  ∃ i, conns !! i = Some conn ∧
       Connection.team conn = teamId ∧ Connection.isManaged conn = true ∧
       ∀ j c, conns !! j = Some c → j < i →
              ¬ (Connection.team c = teamId ∧ Connection.isManaged c = true).

(** A later managed connection of team [bb] whose password is not set. *)
Definition managedWithoutPassword : Connection.IConnection :=
  {| Connection._id := "65f0000000000000000000c3";
     Connection.host := Some "http://ch:8123";
     Connection.name := Some "Tenant ClickHouse (old)";
     Connection.password := None;
     Connection.username := Some "tenant_65f0000000000000000000bb";
     Connection.team := "65f0000000000000000000bb";
     Connection.isManaged := true |}.

(** * Properties *)

Import Async.

(** ** Facts about the JavaScript values and the collection operations *)

Lemma truthy_Some s : truthy (Some s) = true ↔ s ≠ "".
Proof. unfold truthy. by rewrite bool_decide_eq_true. Qed.

Lemma truthy_true v : truthy v = true ↔ ∃ s, v = Some s ∧ s ≠ "".
Proof.
  destruct v as [s|]; simpl.
  - rewrite bool_decide_eq_true. split; [intros; by exists s|]. by intros (? & [= <-] & ?).
  - split; [done|]. by intros (? & ? & ?).
Qed.

Section MongoFacts.
Context {Doc : Type}.
Variable P : Doc → Prop.
Context `{!∀ d, Decision (P d)}.

Lemma findOne_Some db d : Mongo.findOne P db = Some d → d ∈ db ∧ P d.
Proof.
  unfold Mongo.findOne. destruct (list_find P db) as [[i d']|] eqn:E; [|done].
  simpl. intros [= <-]. apply list_find_Some in E as (Hi & HP & _).
  split; [by eapply list_elem_of_lookup_2 | done].
Qed.

Lemma findOne_None db : Mongo.findOne P db = None ↔ ∀ d, d ∈ db → ¬ P d.
Proof.
  unfold Mongo.findOne. rewrite fmap_None, list_find_None, Forall_forall. done.
Qed.

Lemma findOne_is_Some db d : d ∈ db → P d → is_Some (Mongo.findOne P db).
Proof.
  intros Hin HP. destruct (Mongo.findOne P db) eqn:E; [by eexists|].
  rewrite findOne_None in E. by destruct (E d).
Qed.

Lemma elem_of_find db d : d ∈ Mongo.find P db ↔ P d ∧ d ∈ db.
Proof. apply list_elem_of_filter. Qed.
End MongoFacts.

Section MongoUpdateFacts.
Context {Doc : Type}.
Variable P : Doc → Prop.
Context `{!∀ d, Decision (P d)}.
Variable upd : Doc → Doc.

Lemma findOneAndUpdate_None db :
  (∀ d, d ∈ db → ¬ P d) → Mongo.findOneAndUpdate P upd db = (db, None).
Proof.
  intros Hno. unfold Mongo.findOneAndUpdate.
  destruct (list_find P db) as [[i d]|] eqn:E; [|done].
  apply list_find_Some in E as (Hi & HP & _).
  destruct (Hno d); [by eapply list_elem_of_lookup_2 | done].
Qed.

Lemma findOneAndUpdate_Some db d :
  d ∈ db → P d →
  ∃ i d0, db !! i = Some d0 ∧ P d0 ∧
          (∀ j y, db !! j = Some y → j < i → ¬ P y) ∧
          Mongo.findOneAndUpdate P upd db = (<[i := upd d0]> db, Some (upd d0)).
Proof.
  intros Hin HP. unfold Mongo.findOneAndUpdate.
  destruct (list_find P db) as [[i d0]|] eqn:E.
  - apply list_find_Some in E as (Hi & HP0 & Hlow). by exists i, d0.
  - apply list_find_None in E. rewrite Forall_forall in E. by destruct (E d).
Qed.

Lemma findOneAndUpdate_result db :
  match Mongo.findOneAndUpdate P upd db with
  | (db', Some u) => ∃ i d0, db !! i = Some d0 ∧ P d0 ∧ u = upd d0 ∧
                             db' = <[i := upd d0]> db
  | (db', None) => db' = db ∧ ∀ d, d ∈ db → ¬ P d
  end.
Proof.
  unfold Mongo.findOneAndUpdate.
  destruct (list_find P db) as [[i d0]|] eqn:E.
  - apply list_find_Some in E as (Hi & HP0 & _). by exists i, d0.
  - apply list_find_None in E. rewrite Forall_forall in E. done.
Qed.

(** Every document after the update is an old one or the image of one. *)
Lemma elem_of_findOneAndUpdate db t :
  t ∈ (Mongo.findOneAndUpdate P upd db).1 →
  t ∈ db ∨ ∃ d0, d0 ∈ db ∧ P d0 ∧ t = upd d0.
Proof.
  pose proof (findOneAndUpdate_result db) as Hr.
  destruct (Mongo.findOneAndUpdate P upd db) as [db' [u|]]; simpl.
  - destruct Hr as (i & d0 & Hi & HP & -> & ->). intros Ht.
    apply list_elem_of_lookup in Ht as [j Hj].
    destruct (decide (i = j)) as [->|Hne].
    + rewrite list_lookup_insert_eq in Hj by (by eapply lookup_lt_Some).
      injection Hj as <-. right. exists d0.
      split; [by eapply list_elem_of_lookup_2|done].
    + rewrite list_lookup_insert_ne in Hj by done.
      left. by eapply list_elem_of_lookup_2.
  - destruct Hr as [-> _]. by left.
Qed.

(** Every old document is still there, as it was or updated. *)
Lemma findOneAndUpdate_keeps db d :
  d ∈ db →
  d ∈ (Mongo.findOneAndUpdate P upd db).1 ∨
  (P d ∧ upd d ∈ (Mongo.findOneAndUpdate P upd db).1).
Proof.
  intros Hd. pose proof (findOneAndUpdate_result db) as Hr.
  destruct (Mongo.findOneAndUpdate P upd db) as [db' [u|]]; simpl.
  - destruct Hr as (i & d0 & Hi & HP & -> & ->).
    apply list_elem_of_lookup in Hd as [j Hj].
    destruct (decide (i = j)) as [->|Hne].
    + right. rewrite Hi in Hj. injection Hj as ->. split; [done|].
      apply list_elem_of_lookup. exists j.
      apply list_lookup_insert_eq. by eapply lookup_lt_Some.
    + left. apply list_elem_of_lookup. exists j.
      by rewrite list_lookup_insert_ne.
  - destruct Hr as [-> _]. by left.
Qed.
End MongoUpdateFacts.

(** ** The shard allocator *)

Import Sharding.

Lemma shardIdOf_nonempty i : shardIdOf i ≠ "".
Proof. done. Qed.

Lemma addToken_skip m t :
  truthy (assignedShard t) = false → addToken m t = m.
Proof. unfold addToken. by intros ->. Qed.

Lemma addToken_lookup m t sh s :
  assignedShard t = Some sh → sh ≠ "" →
  addToken m t !! s =
    if decide (sh = s) then Some (default ∅ (m !! sh) ∪ {[team t]}) else m !! s.
Proof.
  intros Hsh Hne. unfold addToken. rewrite Hsh. simpl.
  rewrite bool_decide_eq_true_2 by done. simpl.
  destruct (decide (sh = s)) as [->|Hs].
  - rewrite lookup_insert_eq. f_equal.
    destruct (decide (is_Some (m !! s))) as [_|Hn]; [done|].
    rewrite lookup_insert_eq. apply eq_None_not_Some in Hn. by rewrite Hn.
  - rewrite lookup_insert_ne by done.
    destruct (decide (is_Some (m !! sh))); [done|]. by rewrite lookup_insert_ne.
Qed.

Lemma foldl_addToken_is_Some l m s :
  s ≠ "" →
  is_Some (foldl addToken m l !! s) ↔
  is_Some (m !! s) ∨ ∃ t, t ∈ l ∧ assignedShard t = Some s.
Proof.
  intros Hs. revert m. induction l as [|t l IH]; intros m; simpl.
  - split; [by left|]. intros [?|(t & Ht & _)]; [done|]. by apply elem_of_nil in Ht.
  - rewrite IH. destruct (truthy (assignedShard t)) eqn:Et.
    + apply truthy_true in Et as (sh & Hsh & Hne).
      rewrite (addToken_lookup _ _ sh) by done.
      destruct (decide (sh = s)) as [->|Hd].
      * split; [|intros _; left; by eexists].
        intros _. right. exists t. split; [left|done].
      * split.
        -- intros [?|(t' & Ht' & Hsh')]; [by left|]. right. exists t'. split; [by right|done].
        -- intros [?|(t' & Ht' & Hsh')]; [by left|].
           apply elem_of_cons in Ht' as [->|Ht']; [congruence|].
           right. by exists t'.
    + rewrite addToken_skip by done. split.
      * intros [?|(t' & Ht' & Hsh')]; [by left|]. right. exists t'. split; [by right|done].
      * intros [?|(t' & Ht' & Hsh')]; [by left|].
        apply elem_of_cons in Ht' as [->|Ht']; [|right; by exists t'].
        rewrite Hsh' in Et. apply not_true_iff_false in Et. by rewrite truthy_Some in Et.
Qed.

Lemma foldl_addToken_nonempty l m :
  (∀ s T, m !! s = Some T → size T ≠ 0) →
  ∀ s T, foldl addToken m l !! s = Some T → size T ≠ 0.
Proof.
  revert m. induction l as [|t l IH]; intros m Hm; simpl; [done|].
  apply IH. intros s T. destruct (truthy (assignedShard t)) eqn:Et.
  - apply truthy_true in Et as (sh & Hsh & Hne).
    rewrite (addToken_lookup _ _ sh) by done.
    destruct (decide (sh = s)); [|by apply Hm].
    intros [= <-]. rewrite size_empty_iff. set_solver.
  - rewrite addToken_skip by done. apply Hm.
Qed.

Lemma occupied_Exists db s :
  occupied db s ↔ Exists (λ t, status t = active ∧ assignedShard t = Some s) db.
Proof. rewrite Exists_exists. done. Qed.

Lemma occupied_dec db s : Decision (occupied db s).
Proof.
  destruct (decide (Exists (λ t, status t = active ∧ assignedShard t = Some s) db)) as [H|H];
    [left|right]; by rewrite occupied_Exists.
Qed.

Lemma teamsPerShardOf_free db s :
  s ≠ "" →
  freeIn (teamsPerShardOf (Mongo.find (activeFilter None) db)) s ↔ ¬ occupied db s.
Proof.
  intros Hs. unfold teamsPerShardOf, freeIn.
  pose proof (foldl_addToken_is_Some (Mongo.find (activeFilter None) db) ∅ s Hs) as Hdom.
  pose proof (foldl_addToken_nonempty (Mongo.find (activeFilter None) db) ∅) as Hne.
  destruct (foldl addToken ∅ _ !! s) as [T|] eqn:E.
  - split.
    + intros HT. exfalso. eapply Hne; [|exact E|exact HT].
      intros s' T'. by rewrite lookup_empty.
    + intros Hfree. exfalso. apply Hfree.
      destruct Hdom as [Hdom _].
      destruct Hdom as [Hemp|(t & Ht & Hsh)]; [by eexists| |].
      * rewrite lookup_empty in Hemp. by destruct Hemp.
      * apply elem_of_find in Ht as [[Hact _] Hin]. by exists t.
  - split; [|done]. intros _ (t & Hin & Hact & Hsh).
    destruct Hdom as [_ Hdom]. destruct Hdom as [x Hx]; [|done].
    right. exists t. split; [|done]. apply elem_of_find. by split.
Qed.

Lemma firstFreeFrom_spec m todo i :
  match firstFreeFrom m i todo with
  | Some s => ∃ k, i ≤ k < i + todo ∧ s = shardIdOf k ∧ freeIn m (shardIdOf k) ∧
                   ∀ j, i ≤ j < k → ¬ freeIn m (shardIdOf j)
  | None => ∀ j, i ≤ j < i + todo → ¬ freeIn m (shardIdOf j)
  end.
Proof.
  revert i. induction todo as [|todo IH]; intros i; simpl; [intros; lia|].
  destruct (m !! shardIdOf i) as [T|] eqn:E.
  - destruct (decide (size T = 0)) as [HT|HT].
    + exists i. repeat split; [lia..| |intros; lia]. unfold freeIn. by rewrite E.
    + specialize (IH (S i)). destruct (firstFreeFrom m (S i) todo) as [s|].
      * destruct IH as (k & Hk & -> & Hfree & Hlow). exists k.
        repeat split; [lia..|done|]. intros j Hj.
        destruct (decide (j = i)) as [->|]; [|apply Hlow; lia].
        unfold freeIn. by rewrite E.
      * intros j Hj. destruct (decide (j = i)) as [->|]; [|apply IH; lia].
        unfold freeIn. by rewrite E.
  - exists i. repeat split; [lia..| |intros; lia]. unfold freeIn. by rewrite E.
Qed.

Lemma findNextAvailableShard_Some N db s :
  findNextAvailableShard N None db = Some s →
  ∃ i, s = shardIdOf i ∧ i < N ∧ ¬ occupied db (shardIdOf i) ∧
       ∀ j, j < i → occupied db (shardIdOf j).
Proof.
  unfold findNextAvailableShard. intros E.
  pose proof (firstFreeFrom_spec
    (teamsPerShardOf (Mongo.find (activeFilter None) db)) N 0) as H.
  rewrite E in H. destruct H as (k & Hk & -> & Hfree & Hlow). exists k.
  repeat split; [lia| |].
  - by apply teamsPerShardOf_free.
  - intros j Hj. destruct (occupied_dec db (shardIdOf j)) as [|Hn]; [done|].
    exfalso. apply (Hlow j); [lia|]. by apply teamsPerShardOf_free.
Qed.

Lemma findNextAvailableShard_None N db :
  findNextAvailableShard N None db = None →
  ∀ i, i < N → occupied db (shardIdOf i).
Proof.
  unfold findNextAvailableShard. intros E i Hi.
  pose proof (firstFreeFrom_spec
    (teamsPerShardOf (Mongo.find (activeFilter None) db)) N 0) as H.
  rewrite E in H. destruct (occupied_dec db (shardIdOf i)) as [|Hn]; [done|].
  exfalso. apply (H i); [lia|]. by apply teamsPerShardOf_free.
Qed.

Lemma findNextAvailableShard_truthy N db s :
  findNextAvailableShard N None db = Some s → s ≠ "".
Proof. intros E. by apply findNextAvailableShard_Some in E as (i & -> & _). Qed.

(** C5. For every shard count [N] and every snapshot of the tokens, the
    allocator returns [shard-i] for the smallest [i] in [0..N-1] such that
    no active token is assigned to [shard-i]; when every one of
    [shard-0..shard-(N-1)] is occupied it returns no shard ([null], which
    the caller reports as exhaustion). *)
Theorem findNextAvailableShard_lowest_free (N : nat) (db : Tokens) :
  (∀ i, i < N → ¬ occupied db (shardIdOf i) →
        (∀ j, j < i → occupied db (shardIdOf j)) →
        findNextAvailableShard N None db = Some (shardIdOf i)) ∧
  ((∀ i, i < N → occupied db (shardIdOf i)) →
   findNextAvailableShard N None db = None).
Proof.
  split.
  - intros i Hi Hfree Hlow.
    destruct (findNextAvailableShard N None db) as [s|] eqn:E.
    + apply findNextAvailableShard_Some in E as (k & -> & Hk & Hkfree & Hklow).
      destruct (lt_eq_lt_dec i k) as [[Hlt| ->]|Hgt]; [|done|].
      * destruct Hfree. by apply Hklow.
      * destruct Hkfree. by apply Hlow.
    + destruct Hfree. by eapply findNextAvailableShard_None.
  - intros Hall.
    destruct (findNextAvailableShard N None db) as [s|] eqn:E; [|done].
    apply findNextAvailableShard_Some in E as (k & -> & Hk & Hkfree & _).
    destruct Hkfree. by apply Hall.
Qed.

Lemma findNextAvailableShard_lowest_free_witness :
  findNextAvailableShard 3 None [sampleA; sampleB; sampleC] = Some "shard-2" ∧
  findNextAvailableShard 2 None [sampleA; sampleB; sampleC] = None.
Proof.
  assert (Hocc : ∀ i, i < 2 → occupied [sampleA; sampleB; sampleC] (shardIdOf i)).
  { intros [|[|i]] Hi; [| |lia]; rewrite occupied_Exists; compute_done. }
  split.
  - apply (proj1 (findNextAvailableShard_lowest_free 3 [sampleA; sampleB; sampleC]) 2).
    + lia.
    + rewrite occupied_Exists. compute_done.
    + exact Hocc.
  - apply (proj2 (findNextAvailableShard_lowest_free 2 [sampleA; sampleB; sampleC])).
    exact Hocc.
Defined.

(** *** The allocator with a team left out *)

Lemma find_excluding tm db :
  tm ≠ "" →
  Mongo.find (activeFilter (Some tm)) db
  = Mongo.find (activeFilter None) (filter (λ t, team t ≠ tm) db).
Proof.
  intros Htm. unfold Mongo.find. rewrite list_filter_filter.
  apply list_filter_iff. intros t. unfold activeFilter. simpl.
  rewrite bool_decide_eq_true_2 by done. simpl.
  split.
  - intros [Ha Hne]. repeat split; [done|congruence].
  - intros [[Ha _] Hne]. split; [done|congruence].
Qed.

Lemma occupied_excluding tm db s :
  occupied (filter (λ t, team t ≠ tm) db) s ↔ occupiedByOthers db tm s.
Proof.
  split.
  - intros (t & Hin & Ha & Hs). apply list_elem_of_filter in Hin as [Hne Hin].
    by exists t.
  - intros (t & Hin & Ha & Hne & Hs). exists t. split; [|done].
    by apply list_elem_of_filter.
Qed.

(** X26. Asked to leave a team out, the allocator treats the shards
    that only this team occupies as free: it returns [shard-i] for the
    smallest [i] below the count on which no other team has an active
    token, and no shard when other teams hold all of them. *)
Theorem findNextAvailableShard_excluding (N : nat) (tm : string) (db : Tokens) :
  tm ≠ "" →
  match findNextAvailableShard N (Some tm) db with
  | Some s =>
      ∃ i, s = shardIdOf i ∧ i < N ∧ ¬ occupiedByOthers db tm (shardIdOf i) ∧
           ∀ j, j < i → occupiedByOthers db tm (shardIdOf j)
  | None => ∀ i, i < N → occupiedByOthers db tm (shardIdOf i)
  end.
Proof.
  intros Htm.
  assert (findNextAvailableShard N (Some tm) db
          = findNextAvailableShard N None (filter (λ t, team t ≠ tm) db)) as ->.
  { unfold findNextAvailableShard. by rewrite find_excluding. }
  destruct (findNextAvailableShard N None _) as [s|] eqn:E.
  - apply findNextAvailableShard_Some in E as (i & -> & Hi & Hfree & Hlow).
    exists i. split; [done|]. split; [done|]. split.
    + by rewrite <- occupied_excluding.
    + intros j Hj. apply occupied_excluding. by apply Hlow.
  - intros i Hi. apply occupied_excluding.
    by apply (findNextAvailableShard_None N _ E).
Qed.

Lemma findNextAvailableShard_excluding_witness :
  findNextAvailableShard 2 None [sampleA; sampleB; sampleC] = None ∧
  findNextAvailableShard 2 (Some "65f0000000000000000000cc")
    [sampleA; sampleB; sampleC] = Some "shard-0".
Proof.
  split; [reflexivity|].
  pose proof (findNextAvailableShard_excluding 2 "65f0000000000000000000cc"
                [sampleA; sampleB; sampleC]) as H.
  destruct (findNextAvailableShard 2 (Some "65f0000000000000000000cc")
              [sampleA; sampleB; sampleC]) as [s|] eqn:E.
  - destruct H as (i & -> & Hi & Hfree & Hlow); [done|].
    destruct i as [|i]; [done|]. destruct (Hlow 0) as (t & Hin & Ha & Hne & Hs); [lia|].
    exfalso. revert Hin Ha Hne Hs. clear.
    intros Hin. repeat (apply elem_of_cons in Hin as [->|Hin]; [by compute|]).
    by apply elem_of_nil in Hin.
  - discriminate E.
Defined.

(** *** The consistent-hash shard of a team *)

Lemma toUint32_toInt32 z : toUint32 (toInt32 z) = toUint32 z.
Proof.
  unfold toUint32, toInt32.
  rewrite <- Zminus_mod_idemp_l, Z.mod_mod by lia.
  rewrite Zminus_mod_idemp_l. f_equal. lia.
Qed.

Lemma toUint32_lor a b : toUint32 (Z.lor a b) = Z.lor (toUint32 a) (toUint32 b).
Proof.
  unfold toUint32. rewrite <- !Z.land_ones by lia. apply Z.land_lor_distr_l.
Qed.

Lemma toUint32_bor a b : toUint32 (bor a b) = Z.lor (toUint32 a) (toUint32 b).
Proof. unfold bor. by rewrite toUint32_toInt32, toUint32_lor, !toUint32_toInt32. Qed.

Lemma byteAt_range hash i : (0 ≤ byteAt hash i < 256)%Z.
Proof.
  unfold byteAt. destruct (hash !! i) as [b|]; simpl; [|lia].
  pose proof (Byte.to_N_bounded b). lia.
Qed.

Lemma toUint32_shl_byte a k :
  (0 ≤ a < 256)%Z → (0 ≤ k ≤ 24)%Z → toUint32 (shl a k) = (a * 2 ^ k)%Z.
Proof.
  intros Ha Hk. unfold shl. rewrite toUint32_toInt32.
  assert (toInt32 a = a) as ->.
  { unfold toInt32. rewrite Z.mod_small; lia. }
  assert (toUint32 k `mod` 32 = k)%Z as ->.
  { unfold toUint32. rewrite (Z.mod_small k (2 ^ 32)) by lia.
    apply Z.mod_small. lia. }
  rewrite Z.shiftl_mul_pow2 by lia. unfold toUint32.
  apply Z.mod_small. split; [nia|].
  assert (2 ^ k ≤ 2 ^ 24)%Z by (apply Z.pow_le_mono_r; lia). nia.
Qed.

(** Below bit [k] and from bit [k] on, [lor] adds. *)
Lemma lor_disjoint a b k :
  (0 ≤ k)%Z → (0 ≤ b < 2 ^ k)%Z → Z.lor (a * 2 ^ k) b = (a * 2 ^ k + b)%Z.
Proof.
  intros Hk Hb. rewrite <- Z.lxor_lor, <- Z.add_nocarry_lxor; [done|..];
    apply Z.bits_inj'; intros n Hn; rewrite Z.land_spec, Z.bits_0;
    (destruct (Z.lt_ge_cases n k);
     [rewrite Z.mul_pow2_bits_low by lia; done|
      rewrite <- (Z.mod_small b (2 ^ k)) by lia;
      rewrite Z.mod_pow2_bits_high by lia; apply andb_false_r]).
Qed.

(** X22. For a positive shard count the consistent hash of a team is a
    shard of the deployment: [shard-i] with [i] below the count, where [i]
    is the first four digest bytes read as a big-endian unsigned number,
    modulo the count. The signed intermediate of the bit operators never
    shows. *)
Theorem shardIdForTeam_in_range (sha256 : string → list byte)
    (teamId : string) (shardCount : nat) :
  0 < shardCount →
  ∃ i, i < shardCount ∧
       shardIdForTeam sha256 teamId shardCount = shardIdOf i ∧
       Z.of_nat i = (bigEndian32 (sha256 teamId) `mod` Z.of_nat shardCount)%Z.
Proof.
  intros Hpos. unfold shardIdForTeam.
  pose proof (byteAt_range (sha256 teamId) 0) as H0.
  pose proof (byteAt_range (sha256 teamId) 1) as H1.
  pose proof (byteAt_range (sha256 teamId) 2) as H2.
  pose proof (byteAt_range (sha256 teamId) 3) as H3.
  set (a0 := byteAt (sha256 teamId) 0) in *.
  set (a1 := byteAt (sha256 teamId) 1) in *.
  set (a2 := byteAt (sha256 teamId) 2) in *.
  set (a3 := byteAt (sha256 teamId) 3) in *.
  assert (Hn : ushr (bor (bor (bor (shl a0 24) (shl a1 16)) (shl a2 8)) (shl a3 0)) 0
               = bigEndian32 (sha256 teamId)).
  { unfold ushr. change (toUint32 0 `mod` 32)%Z with 0%Z. rewrite Z.shiftr_0_r.
    rewrite !toUint32_bor, !toUint32_shl_byte by lia.
    unfold bigEndian32. fold a0 a1 a2 a3.
    rewrite (lor_disjoint a0 (a1 * 2 ^ 16) 24) by lia.
    replace (a0 * 2 ^ 24 + a1 * 2 ^ 16)%Z with ((a0 * 2 ^ 8 + a1) * 2 ^ 16)%Z by lia.
    rewrite (lor_disjoint _ (a2 * 2 ^ 8) 16) by lia.
    replace ((a0 * 2 ^ 8 + a1) * 2 ^ 16 + a2 * 2 ^ 8)%Z
      with (((a0 * 2 ^ 8 + a1) * 2 ^ 8 + a2) * 2 ^ 8)%Z by lia.
    replace (a3 * 2 ^ 0)%Z with a3 by lia.
    rewrite (lor_disjoint _ a3 8) by lia. lia. }
  rewrite Hn. destruct shardCount as [|c]; [lia|].
  set (N := S c) in *.
  assert (Hm : (0 ≤ bigEndian32 (sha256 teamId) `mod` Z.of_nat N < Z.of_nat N)%Z)
    by (apply Z.mod_pos_bound; lia).
  exists (Z.to_nat (bigEndian32 (sha256 teamId) `mod` Z.of_nat N)).
  split; [lia|]. split; [|lia].
  unfold shardIdOf. f_equal.
  rewrite <- (Z2Nat.id (bigEndian32 (sha256 teamId) `mod` Z.of_nat N)) at 1 by lia.
  by destruct (Z.to_nat _).
Qed.

Lemma shardIdForTeam_in_range_witness :
  bigEndian32 (sampleDigest "65f0000000000000000000aa") = 4261478915%Z ∧
  shardIdForTeam sampleDigest "65f0000000000000000000aa" 7 = "shard-1".
Proof.
  destruct (shardIdForTeam_in_range sampleDigest "65f0000000000000000000aa" 7)
    as (i & Hi & Hid & Hmod); [lia|].
  split; [reflexivity|].
  change (bigEndian32 (sampleDigest "65f0000000000000000000aa") `mod` Z.of_nat 7)%Z
    with 1%Z in Hmod.
  assert (i = 1) as -> by lia. exact Hid.
Defined.

(** ** The ingestion-token registry *)

Import Controller.

Lemma revoke_missing teamId tokenId now db :
  ¬ tokenOfTeam db teamId tokenId →
  revokeIngestionToken teamId tokenId now db = (db, Ok None).
Proof.
  intros Hno. unfold revokeIngestionToken.
  rewrite findOneAndUpdate_None; [done|].
  intros d Hd [Hid Htm]. apply Hno. by exists d.
Qed.

Lemma revoke_found teamId tokenId now db :
  tokenOfTeam db teamId tokenId →
  ∃ i t0, db !! i = Some t0 ∧ _id t0 = tokenId ∧ team t0 = teamId ∧
    revokeIngestionToken teamId tokenId now db =
      (<[i := setRevoked now t0]> db, Ok (Some (setRevoked now t0))).
Proof.
  intros (t & Hin & Hid & Htm). unfold revokeIngestionToken.
  destruct (findOneAndUpdate_Some (λ d, _id d = tokenId ∧ team d = teamId)
              (setRevoked now) db t Hin (conj Hid Htm))
    as (i & t0 & Hi & [Hid0 Htm0] & _ & ->).
  by exists i, t0.
Qed.

Lemma tokenOfTeam_dec db teamId tokenId : Decision (tokenOfTeam db teamId tokenId).
Proof.
  destruct (decide (Exists (λ t, _id t = tokenId ∧ team t = teamId) db)) as [E|E];
    [left|right]; unfold tokenOfTeam; by rewrite <- Exists_exists.
Qed.

(** C10. Revoking a token that exists under the team succeeds whatever
    its current status: the updated record comes back with status
    [revoked] and [revokedAt] set to the current time, and DELETE answers
    200. [null] (and 404) arise exactly when no token with that id exists
    under the team. *)
Theorem revoke_any_status_succeeds (teamId tokenId : ObjectId) (now : Date)
    (db : Tokens) :
  (∀ t, t ∈ db → _id t = tokenId → team t = teamId →
     ∃ i t0, db !! i = Some t0 ∧ _id t0 = tokenId ∧ team t0 = teamId ∧
       let u := setRevoked now t0 in
       revokeIngestionToken teamId tokenId now db = (<[i := u]> db, Ok (Some u)) ∧
       status u = revoked ∧ revokedAt u = Some now ∧
       Router.deleteToken teamId tokenId now db = (<[i := u]> db, Router.Status 200)) ∧
  ((revokeIngestionToken teamId tokenId now db).2 = Ok None ↔
     ¬ tokenOfTeam db teamId tokenId) ∧
  ((Router.deleteToken teamId tokenId now db).2 = Router.Status 404 ↔
     ¬ tokenOfTeam db teamId tokenId).
Proof.
  split; [|split].
  - intros t Hin Hid Htm.
    destruct (revoke_found teamId tokenId now db) as (i & t0 & Hi & Hid0 & Htm0 & Hr);
      [by exists t|].
    exists i, t0. repeat split; try done.
    unfold Router.deleteToken. by rewrite Hr.
  - split.
    + intros Hr Hex. destruct (revoke_found _ _ now _ Hex) as (i & t0 & _ & _ & _ & Hr').
      by rewrite Hr' in Hr.
    + intros Hno. by rewrite revoke_missing.
  - unfold Router.deleteToken. split.
    + intros Hr Hex. destruct (revoke_found _ _ now _ Hex) as (i & t0 & _ & _ & _ & Hr').
      by rewrite Hr' in Hr.
    + intros Hno. by rewrite revoke_missing.
Qed.

Lemma revoke_any_status_succeeds_witness :
  ∃ i t0, [revokedSample] !! i = Some t0 ∧
    Router.deleteToken "65f0000000000000000000aa" "65f000000000000000000001"
      2000%Z [revokedSample]
    = (<[i := setRevoked 2000%Z t0]> [revokedSample], Router.Status 200) ∧
    revokedAt (setRevoked 2000%Z t0) = Some 2000%Z.
Proof.
  destruct (proj1 (revoke_any_status_succeeds "65f0000000000000000000aa"
              "65f000000000000000000001" 2000%Z [revokedSample]) revokedSample)
    as (i & t0 & Hi & _ & _ & _ & _ & Hrev & Hdel).
  - apply list_elem_of_here.
  - reflexivity.
  - reflexivity.
  - exists i, t0. split; [exact Hi|]. split; [exact Hdel|exact Hrev].
Defined.

Section Registry.
Variable sha256hex : string → string.
Variable N : nat.

Abbreviation create_ := (createIngestionToken sha256hex N).
Abbreviation rotate_ := (rotateIngestionToken sha256hex N).

(** When the token is not the team's, the revocation step of a rotation
    matches nothing and the rotation is a plain creation. *)
Lemma rotate_missing_is_create teamId tokenId nowRevoke raw newId nowCreate db :
  ¬ tokenOfTeam db teamId tokenId →
  rotate_ teamId tokenId nowRevoke raw newId nowCreate db
  = create_ teamId None None raw newId nowCreate db.
Proof.
  intros Hno. unfold rotateIngestionToken, bind.
  by rewrite revoke_missing.
Qed.
End Registry.

(** C1, evaluated. Rotating an id that no token of the team carries, on
    an empty collection with one shard: no error is reported, a fresh
    active token is inserted and returned, and the route answers 200. *)
Theorem rotate_unknown_token_creates (sha256hex : string → string)
    (raw : string) (nowRevoke nowCreate : Date) :
  let teamId := "65f0000000000000000000aa" in
  let tokenId := "65f000000000000000000001" in
  let newId := "65f000000000000000000002" in
  let token := "hdx_ingest_" +:+ raw in
  let doc :=
    {| _id := newId; team := teamId; tokenHash := sha256hex token;
       tokenPrefix := String.substring 0 12 token; status := active;
       assignedShard := Some "shard-0"; description := None;
       lastUsedAt := None; revokedAt := None;
       createdAt := Some nowCreate; updatedAt := Some nowCreate |} in
  ¬ tokenOfTeam [] teamId tokenId ∧
  rotateIngestionToken sha256hex 1 teamId tokenId nowRevoke raw newId nowCreate []
    = ([doc], Ok (token, doc)) ∧
  Router.postRotate sha256hex 1 teamId tokenId nowRevoke raw newId nowCreate []
    = ([doc], Router.JsonToken token doc).
Proof.
  simpl. split; [|split].
  - intros (t & Hin & _). by apply elem_of_nil in Hin.
  - reflexivity.
  - reflexivity.
Qed.

(** *** What [create] and [chooseShard] return *)

Lemma create_fresh doc db :
  (∀ d, d ∈ db → ¬ duplicateKey doc d) →
  create doc db = ((db ++ [doc])%list, Ok doc).
Proof.
  intros Hf. unfold create.
  destruct (decide (Exists (duplicateKey doc) db)) as [E|E]; [|done].
  apply Exists_exists in E as (d & Hd & Hdup). by destruct (Hf d).
Qed.

Lemma create_result doc db :
  match create doc db with
  | (db', Ok d) => d = doc ∧ db' = (db ++ [doc])%list ∧
                   ∀ d, d ∈ db → ¬ duplicateKey doc d
  | (db', Throw _) => db' = db
  end.
Proof.
  unfold create.
  destruct (decide (Exists (duplicateKey doc) db)) as [E|E]; [done|].
  repeat split. intros d Hd Hdup. apply E, Exists_exists. by exists d.
Qed.

Section ChooseShard.
Variable N : nat.

Lemma chooseShard_inherits teamId db t0 s :
  Mongo.findOne (λ d, team d = teamId ∧ status d = active) db = Some t0 →
  assignedShard t0 = Some s → s ≠ "" →
  chooseShard N teamId None db = (db, Ok (Some s)).
Proof.
  intros Hf Hs Hne. unfold chooseShard, bind, query. simpl.
  rewrite Hf. simpl. rewrite Hs. simpl.
  by rewrite bool_decide_eq_true_2.
Qed.

Lemma chooseShard_allocates teamId db :
  truthy (Mongo.findOne (λ d, team d = teamId ∧ status d = active) db
            ≫= assignedShard) = false →
  chooseShard N teamId None db = (db, allocated N db).
Proof.
  intros Hf. unfold chooseShard, bind, query, allocated, exhausted. simpl.
  rewrite Hf.
  destruct (findNextAvailableShard N None db) as [s|] eqn:E; simpl; [|done].
  apply findNextAvailableShard_truthy in E.
  by rewrite bool_decide_eq_true_2.
Qed.
End ChooseShard.

Section Create.
Variable sha256hex : string → string.
Variable N : nat.

Lemma createIngestionToken_chosen teamId desc param raw newId now db db1 shard :
  chooseShard N teamId param db = (db1, Ok shard) →
  createIngestionToken sha256hex N teamId desc param raw newId now db =
    match create (newDoc sha256hex teamId desc shard raw newId now) db1 with
    | (db2, Ok doc) => (db2, Ok (IngestionTokens.generateIngestionToken raw, doc))
    | (db2, Throw e) => (db2, Throw e)
    end.
Proof. intros Hc. unfold createIngestionToken, bind. by rewrite Hc. Qed.

Lemma createIngestionToken_throws teamId desc param raw newId now db db1 e :
  chooseShard N teamId param db = (db1, Throw e) →
  createIngestionToken sha256hex N teamId desc param raw newId now db
  = (db1, Throw e).
Proof. intros Hc. unfold createIngestionToken, bind. by rewrite Hc. Qed.

Lemma freshKeys_no_duplicate teamId desc shard raw newId now db :
  freshKeys sha256hex raw newId db →
  ∀ d, d ∈ db → ¬ duplicateKey (newDoc sha256hex teamId desc shard raw newId now) d.
Proof. intros Hf d Hd [Hid|Hh]; by destruct (Hf d Hd). Qed.

(** After the sole active token of a team is revoked, the team has no
    active token left. *)
Lemma revoke_sole_active teamId tokenId now db t :
  NoDup (_id <$> db) →
  t ∈ db → _id t = tokenId → team t = teamId →
  (∀ t', t' ∈ db → team t' = teamId → status t' = active → _id t' = tokenId) →
  Mongo.findOne (λ d, team d = teamId ∧ status d = active)
    (revokeIngestionToken teamId tokenId now db).1 = None.
Proof.
  intros Hnd Hin Hid Htm Honly.
  destruct (revoke_found teamId tokenId now db) as (i & t0 & Hi & Hid0 & Htm0 & ->);
    [by exists t|]. simpl.
  apply findOne_None. intros d Hd [Hdt Hda].
  apply list_elem_of_lookup in Hd as [j Hj].
  destruct (decide (i = j)) as [->|Hne].
  - rewrite list_lookup_insert_eq in Hj by (by eapply lookup_lt_Some).
    by injection Hj as <-.
  - rewrite list_lookup_insert_ne in Hj by done.
    apply Hne. eapply (NoDup_lookup _ i j (_id t0) Hnd).
    + by rewrite list_lookup_fmap, Hi.
    + rewrite list_lookup_fmap, Hj. simpl. f_equal.
      rewrite Hid0. apply Honly; [by eapply list_elem_of_lookup_2|done..].
Qed.

(** C9. When the rotated token is the team's only active token, the new
    token's shard is the allocator's answer on the collection as the
    revocation left it: the lowest-index shard free at that moment, not a
    copy of the old token's shard. *)
Theorem rotate_sole_active_token_reallocates
    (teamId tokenId : ObjectId) (nowRevoke : Date) (raw : string)
    (newId : ObjectId) (nowCreate : Date) (db : Tokens) (t : IIngestionToken) :
  NoDup (_id <$> db) →
  t ∈ db → _id t = tokenId → team t = teamId → status t = active →
  (∀ t', t' ∈ db → team t' = teamId → status t' = active → _id t' = tokenId) →
  let db1 := (revokeIngestionToken teamId tokenId nowRevoke db).1 in
  chooseShard N teamId None db1 = (db1, allocated N db1) ∧
  (∀ db2 token rec,
      rotateIngestionToken sha256hex N teamId tokenId nowRevoke raw newId nowCreate db
        = (db2, Ok (token, rec)) →
      assignedShard rec = findNextAvailableShard N None db1 ∧
      ∃ i, i < N ∧ assignedShard rec = Some (shardIdOf i) ∧
           ¬ occupied db1 (shardIdOf i) ∧
           ∀ j, j < i → occupied db1 (shardIdOf j)) ∧
  (∀ s, findNextAvailableShard N None db1 = Some s → freshKeys sha256hex raw newId db1 →
      let rec := newDoc sha256hex teamId None (Some s) raw newId nowCreate in
      rotateIngestionToken sha256hex N teamId tokenId nowRevoke raw newId nowCreate db
        = ((db1 ++ [rec])%list, Ok (IngestionTokens.generateIngestionToken raw, rec))) ∧
  (findNextAvailableShard N None db1 = None →
      rotateIngestionToken sha256hex N teamId tokenId nowRevoke raw newId nowCreate db
        = (db1, Throw exhausted)).
Proof.
  intros Hnd Hin Hid Htm Hact Honly db1.
  assert (Hchoose : chooseShard N teamId None db1 = (db1, allocated N db1)).
  { apply chooseShard_allocates. unfold db1.
    by rewrite (revoke_sole_active teamId tokenId nowRevoke db t). }
  assert (Hrot : rotateIngestionToken sha256hex N teamId tokenId nowRevoke
                     raw newId nowCreate db
                   = createIngestionToken sha256hex N teamId None None raw newId
                       nowCreate db1).
  { unfold rotateIngestionToken, bind, db1.
    unfold revokeIngestionToken.
    by destruct (Mongo.findOneAndUpdate _ _ db) as [? ?]. }
  split; [done|]. split; [|split].
  - intros db2 token rec. rewrite Hrot. unfold allocated in Hchoose.
    destruct (findNextAvailableShard N None db1) as [s|] eqn:E.
    + rewrite (createIngestionToken_chosen _ _ _ _ _ _ _ _ _ Hchoose).
      pose proof (create_result (newDoc sha256hex teamId None (Some s) raw newId nowCreate) db1) as Hc.
      destruct (create _ db1) as [db3 [d|e]]; [|done].
      destruct Hc as (-> & _ & _). intros [= _ _ <-]. split; [done|].
      apply findNextAvailableShard_Some in E as (i & -> & Hi & Hfree & Hlow).
      by exists i.
    + by rewrite (createIngestionToken_throws _ _ _ _ _ _ _ _ _ Hchoose).
  - intros s E Hfresh rec. rewrite Hrot. unfold allocated in Hchoose.
    rewrite E in Hchoose.
    rewrite (createIngestionToken_chosen _ _ _ _ _ _ _ _ _ Hchoose).
    rewrite create_fresh; [done|]. by apply freshKeys_no_duplicate.
  - intros E. rewrite Hrot. unfold allocated in Hchoose.
    rewrite E in Hchoose.
    by rewrite (createIngestionToken_throws _ _ _ _ _ _ _ _ _ Hchoose).
Qed.
End Create.

Lemma rotate_sole_active_token_reallocates_witness :
  assignedShard sampleB = Some "shard-1" ∧
  ∃ db2 rec,
    rotateIngestionToken sampleHash 2 "65f0000000000000000000bb"
      "65f000000000000000000002" 60%Z "C" "65f000000000000000000003" 61%Z
      [sampleA; sampleB]
    = (db2, Ok ("hdx_ingest_C", rec)) ∧
    assignedShard rec = Some "shard-0".
Proof.
  split; [reflexivity|].
  destruct (rotate_sole_active_token_reallocates sampleHash 2
              "65f0000000000000000000bb" "65f000000000000000000002" 60%Z "C"
              "65f000000000000000000003" 61%Z [sampleA; sampleB] sampleB)
    as (_ & _ & Hnew & _).
  - compute_done.
  - compute_done.
  - reflexivity.
  - reflexivity.
  - reflexivity.
  - refine (proj1 (Forall_forall _ _) _). compute_done.
  - eexists _, _. split.
    + apply (Hnew "shard-0"); [reflexivity|].
      refine (proj1 (Forall_forall _ _) _). compute_done.
    + reflexivity.
Defined.

Section Inherit.
Variable sha256hex : string → string.
Variable N : nat.

Lemma I4_snoc db teamId doc s t0 :
  I4 db teamId →
  t0 ∈ db → team t0 = teamId → status t0 = active → assignedShard t0 = Some s →
  assignedShard doc = Some s →
  I4 (db ++ [doc]) teamId.
Proof.
  intros HI Hin Htm Hact Hs Hdoc t1 t2 H1 H2 Ht1 Ht2 Ha1 Ha2.
  assert (Hall : ∀ x, x ∈ (db ++ [doc])%list → team x = teamId → status x = active →
                      assignedShard x = Some s).
  { intros x Hx Hxt Hxa. apply elem_of_app in Hx as [Hx|Hx].
    - rewrite <- Hs. by apply HI.
    - apply list_elem_of_singleton in Hx. by subst x. }
  rewrite (Hall t1), (Hall t2); done.
Qed.

(** C6. For a team with an active token on shard [s], whose active
    tokens share one shard (I4), [createIngestionToken] without an
    explicit shard gives the new token the shard [s]; it succeeds whenever
    the new keys are fresh, and I4 holds of the team afterwards. *)
Theorem create_inherits_team_shard
    (teamId : ObjectId) (desc : option string) (raw : string)
    (newId : ObjectId) (now : Date) (db : Tokens)
    (t0 : IIngestionToken) (s : string) :
  t0 ∈ db → team t0 = teamId → status t0 = active →
  assignedShard t0 = Some s → s ≠ "" →
  I4 db teamId →
  let run := createIngestionToken sha256hex N teamId desc None raw newId now db in
  let doc := newDoc sha256hex teamId desc (Some s) raw newId now in
  (∀ db' token rec, run = (db', Ok (token, rec)) →
      rec = doc ∧ assignedShard rec = Some s ∧ db' = (db ++ [rec])%list) ∧
  (freshKeys sha256hex raw newId db →
      run = ((db ++ [doc])%list, Ok (IngestionTokens.generateIngestionToken raw, doc))) ∧
  I4 run.1 teamId.
Proof.
  intros Hin Htm Hact Hs Hne HI run doc.
  assert (Hchoose : chooseShard N teamId None db = (db, Ok (Some s))).
  { destruct (findOne_is_Some (λ d, team d = teamId ∧ status d = active) db t0)
      as [t1 Hf]; [done..|].
    apply findOne_Some in Hf as Hf'. destruct Hf' as (Hin1 & Htm1 & Hact1).
    eapply chooseShard_inherits; [exact Hf| |done].
    rewrite <- Hs. by apply HI. }
  assert (Hrun : run = match create doc db with
                       | (db2, Ok d) =>
                           (db2, Ok (IngestionTokens.generateIngestionToken raw, d))
                       | (db2, Throw e) => (db2, Throw e)
                       end).
  { unfold run. by rewrite (createIngestionToken_chosen _ _ _ _ _ _ _ _ _ _ _ Hchoose). }
  pose proof (create_result doc db) as Hc.
  split; [|split].
  - intros db' token rec. rewrite Hrun.
    destruct (create doc db) as [db2 [d|e]]; [|done].
    destruct Hc as (-> & -> & _). by intros [= <- _ <-].
  - intros Hfresh. rewrite Hrun, create_fresh; [done|].
    by apply freshKeys_no_duplicate.
  - rewrite Hrun. destruct (create doc db) as [db2 [d|e]]; simpl.
    + destruct Hc as (-> & -> & _). by eapply I4_snoc.
    + by subst db2.
Qed.
End Inherit.

Lemma create_inherits_team_shard_witness :
  ∃ rec,
    createIngestionToken sampleHash 2 "65f0000000000000000000bb" (Some "ci")
      None "E" "65f000000000000000000005" 70%Z [sampleA; sampleB; sampleB2]
    = (([sampleA; sampleB; sampleB2] ++ [rec])%list, Ok ("hdx_ingest_E", rec)) ∧
    assignedShard rec = Some "shard-1".
Proof.
  destruct (create_inherits_team_shard sampleHash 2 "65f0000000000000000000bb"
              (Some "ci") "E" "65f000000000000000000005" 70%Z
              [sampleA; sampleB; sampleB2] sampleB "shard-1")
    as (_ & Hrun & _).
  - compute_done.
  - reflexivity.
  - reflexivity.
  - reflexivity.
  - discriminate.
  - assert (Hall : ∀ x, x ∈ [sampleA; sampleB; sampleB2] →
                     team x = "65f0000000000000000000bb" → status x = active →
                     assignedShard x = Some "shard-1").
    { refine (proj1 (Forall_forall _ _) _). compute_done. }
    intros t1 t2 H1 H2 Ht1 Ht2 Ha1 Ha2.
    rewrite (Hall t1 H1 Ht1 Ha1), (Hall t2 H2 Ht2 Ha2). reflexivity.
  - eexists. split; [apply Hrun|reflexivity].
    refine (proj1 (Forall_forall _ _) _). compute_done.
Defined.

Lemma tracks_create id h tm doc db :
  tracks id h tm db → tracks id h tm (create doc db).1.
Proof.
  intros Htr. pose proof (create_result doc db) as Hc.
  destruct (create doc db) as [db' [d|e]]; simpl; [|by subst db'].
  destruct Hc as (-> & -> & Hnd). destruct Htr as ((t & Hin & Hid) & Hh & Hk).
  assert (_id doc ≠ id ∧ tokenHash doc ≠ h) as [Hdi Hdh].
  { destruct (Hk t Hin Hid) as [Hth _]. split.
    - intros E. apply (Hnd t Hin). left. congruence.
    - intros E. apply (Hnd t Hin). right. congruence. }
  split; [|split].
  - exists t. split; [|done]. apply elem_of_app. by left.
  - intros x Hx Hxh. apply elem_of_app in Hx as [Hx|Hx]; [by apply Hh|].
    apply list_elem_of_singleton in Hx. by subst x.
  - intros x Hx Hxi. apply elem_of_app in Hx as [Hx|Hx]; [by apply Hk|].
    apply list_elem_of_singleton in Hx. by subst x.
Qed.

Lemma onShard_create id sh doc db :
  (∃ t, t ∈ db ∧ _id t = id) →
  onShard id sh db → onShard id sh (create doc db).1.
Proof.
  intros (t & Hin & Hid) Hon. pose proof (create_result doc db) as Hc.
  destruct (create doc db) as [db' [d|e]]; simpl; [|by subst db'].
  destruct Hc as (-> & -> & Hnd). intros x Hx Hxi.
  apply elem_of_app in Hx as [Hx|Hx]; [by apply Hon|].
  apply list_elem_of_singleton in Hx. subst x.
  destruct (Hnd t Hin). left. congruence.
Qed.

Section UpdateInvariants.
Variable P : IIngestionToken → Prop.
Context `{!∀ d, Decision (P d)}.
Variable upd : IIngestionToken → IIngestionToken.
Hypothesis Hkeys : keepsKeys upd.

Lemma tracks_update id h tm db :
  tracks id h tm db → tracks id h tm (Mongo.findOneAndUpdate P upd db).1.
Proof.
  intros ((t & Hin & Hid) & Hh & Hk). split; [|split].
  - destruct (findOneAndUpdate_keeps P upd db t Hin) as [Ht|[_ Ht]].
    + by exists t.
    + exists (upd t). split; [done|]. by rewrite (proj1 (Hkeys t)).
  - intros x Hx Hxh.
    apply elem_of_findOneAndUpdate in Hx as [Hx|(d0 & Hd0 & _ & ->)]; [by apply Hh|].
    destruct (Hkeys d0) as (-> & Eh & _). apply Hh; [done|]. by rewrite <- Eh.
  - intros x Hx Hxi.
    apply elem_of_findOneAndUpdate in Hx as [Hx|(d0 & Hd0 & _ & ->)]; [by apply Hk|].
    destruct (Hkeys d0) as (Ei & -> & ->). apply Hk; [done|]. by rewrite <- Ei.
Qed.

Lemma onShard_update id sh db :
  (∀ d, d ∈ db → P d → _id d = id → assignedShard (upd d) = assignedShard d) →
  onShard id sh db → onShard id sh (Mongo.findOneAndUpdate P upd db).1.
Proof.
  intros Hsame Hon x Hx Hxi.
  apply elem_of_findOneAndUpdate in Hx as [Hx|(d0 & Hd0 & HP & ->)]; [by apply Hon|].
  rewrite (proj1 (Hkeys d0)) in Hxi. rewrite Hsame by done. by apply Hon.
Qed.
End UpdateInvariants.

Lemma keepsKeys_setRevoked now : keepsKeys (setRevoked now).
Proof. done. Qed.
Lemma keepsKeys_setAssignedShard shard now : keepsKeys (setAssignedShard shard now).
Proof. done. Qed.
Lemma keepsKeys_setLastUsedAt now : keepsKeys (setLastUsedAt now).
Proof. done. Qed.

Section CallInvariants.
Variable sha256hex : string → string.
Variable N : nat.

Lemma chooseShard_store teamId param db : (chooseShard N teamId param db).1 = db.
Proof.
  unfold chooseShard, bind, query, ret, throw.
  destruct (truthy param); [done|]. simpl.
  destruct (truthy (_ ≫= assignedShard)); [done|].
  by destruct (negb (truthy _)).
Qed.

(** A creation leaves the collection alone or goes through [create]. *)
Lemma createIngestionToken_store teamId desc param raw newId now db :
  (createIngestionToken sha256hex N teamId desc param raw newId now db).1 = db ∨
  ∃ doc, (createIngestionToken sha256hex N teamId desc param raw newId now db).1
         = (create doc db).1.
Proof.
  pose proof (chooseShard_store teamId param db) as Hst.
  destruct (chooseShard N teamId param db) as [db1 [sh|e]] eqn:Hc; simpl in Hst; subst db1.
  - right. exists (newDoc sha256hex teamId desc sh raw newId now).
    rewrite (createIngestionToken_chosen _ _ _ _ _ _ _ _ _ _ _ Hc).
    by destruct (create _ db) as [? [?|?]].
  - left. by rewrite (createIngestionToken_throws _ _ _ _ _ _ _ _ _ _ _ Hc).
Qed.

Lemma rotateIngestionToken_store teamId tokenId nowRevoke raw newId nowCreate db :
  (rotateIngestionToken sha256hex N teamId tokenId nowRevoke raw newId nowCreate db).1
  = (createIngestionToken sha256hex N teamId None None raw newId nowCreate
       (revokeIngestionToken teamId tokenId nowRevoke db).1).1.
Proof.
  unfold rotateIngestionToken, bind, revokeIngestionToken.
  by destruct (Mongo.findOneAndUpdate _ _ db) as [? ?].
Qed.

Lemma revokeIngestionToken_store teamId tokenId now db :
  (revokeIngestionToken teamId tokenId now db).1
  = (Mongo.findOneAndUpdate (λ d, _id d = tokenId ∧ team d = teamId)
       (setRevoked now) db).1.
Proof.
  unfold revokeIngestionToken. by destruct (Mongo.findOneAndUpdate _ _ db) as [? ?].
Qed.

Lemma assignIngestionTokenShard_store teamId tokenId shard now db :
  (assignIngestionTokenShard teamId tokenId shard now db).1
  = (Mongo.findOneAndUpdate
       (λ d, _id d = tokenId ∧ team d = teamId ∧ status d = active)
       (setAssignedShard shard now) db).1.
Proof.
  unfold assignIngestionTokenShard.
  by destruct (Mongo.findOneAndUpdate _ _ db) as [? ?].
Qed.

Lemma step_tracks id h tm db c :
  tracks id h tm db → tracks id h tm (step sha256hex N db c).
Proof.
  intros Htr. destruct c as [tm' d p raw newId now|tm' id' now
    |tm' id' nowR raw newId nowC|tm' id' shard now|id' now]; simpl.
  - destruct (createIngestionToken_store tm' d p raw newId now db) as [->|[doc ->]];
      [done|by apply tracks_create].
  - rewrite revokeIngestionToken_store.
    apply tracks_update; [apply keepsKeys_setRevoked|done].
  - rewrite rotateIngestionToken_store.
    assert (tracks id h tm (revokeIngestionToken tm' id' nowR db).1) as Htr'.
    { rewrite revokeIngestionToken_store.
      apply tracks_update; [apply keepsKeys_setRevoked|done]. }
    destruct (createIngestionToken_store tm' None None raw newId nowC
                (revokeIngestionToken tm' id' nowR db).1) as [->|[doc ->]];
      [done|by apply tracks_create].
  - rewrite assignIngestionTokenShard_store.
    apply tracks_update; [apply keepsKeys_setAssignedShard|done].
  - apply tracks_update; [apply keepsKeys_setLastUsedAt|done].
Qed.

Lemma step_onShard id h tm sh db c :
  tracks id h tm db → ¬ reassigns tm id c →
  onShard id sh db → onShard id sh (step sha256hex N db c).
Proof.
  intros Htr Hc Hon. destruct c as [tm' d p raw newId now|tm' id' now
    |tm' id' nowR raw newId nowC|tm' id' shard now|id' now]; simpl.
  - destruct (createIngestionToken_store tm' d p raw newId now db) as [->|[doc ->]];
      [done|]. apply onShard_create; [apply Htr|done].
  - rewrite revokeIngestionToken_store.
    apply onShard_update; [apply keepsKeys_setRevoked|done|done].
  - rewrite rotateIngestionToken_store.
    assert (tracks id h tm (revokeIngestionToken tm' id' nowR db).1) as Htr'.
    { rewrite revokeIngestionToken_store.
      apply tracks_update; [apply keepsKeys_setRevoked|done]. }
    assert (onShard id sh (revokeIngestionToken tm' id' nowR db).1) as Hon'.
    { rewrite revokeIngestionToken_store.
      apply onShard_update; [apply keepsKeys_setRevoked|done|done]. }
    destruct (createIngestionToken_store tm' None None raw newId nowC
                (revokeIngestionToken tm' id' nowR db).1) as [->|[doc ->]];
      [done|]. apply onShard_create; [apply Htr'|done].
  - rewrite assignIngestionTokenShard_store.
    apply onShard_update; [apply keepsKeys_setAssignedShard| |done].
    intros x Hx (Hxi & Hxt & _) Hid. exfalso. apply Hc. simpl.
    destruct Htr as (_ & _ & Hk). destruct (Hk x Hx Hid) as [_ Ht].
    split; congruence.
  - apply onShard_update; [apply keepsKeys_setLastUsedAt|done|done].
Qed.

Lemma runCalls_tracks id h tm calls db :
  tracks id h tm db → tracks id h tm (runCalls sha256hex N calls db).
Proof.
  revert db. induction calls as [|c calls IH]; intros db Htr; [done|].
  apply IH. by apply step_tracks.
Qed.

Lemma runCalls_onShard id h tm sh calls db :
  tracks id h tm db → Forall (λ c, ¬ reassigns tm id c) calls →
  onShard id sh db → onShard id sh (runCalls sha256hex N calls db).
Proof.
  revert db. induction calls as [|c calls IH]; intros db Htr Hno Hon; [done|].
  apply Forall_cons in Hno as [Hc Hno]. simpl. apply IH.
  - by apply step_tracks.
  - done.
  - by eapply step_onShard.
Qed.

(** What a successful creation establishes. *)
Lemma createIngestionToken_tracks teamId desc param raw newId now db0 db1 token rec :
  createIngestionToken sha256hex N teamId desc param raw newId now db0
    = (db1, Ok (token, rec)) →
  token = IngestionTokens.generateIngestionToken raw ∧
  _id rec = newId ∧ team rec = teamId ∧ status rec = active ∧
  db1 = (db0 ++ [rec])%list ∧
  tracks (_id rec) (sha256hex token) (team rec) db1 ∧
  onShard (_id rec) (assignedShard rec) db1.
Proof.
  pose proof (chooseShard_store teamId param db0) as Hst.
  destruct (chooseShard N teamId param db0) as [db' [sh|e]] eqn:Hc;
    simpl in Hst; subst db'.
  - rewrite (createIngestionToken_chosen _ _ _ _ _ _ _ _ _ _ _ Hc).
    pose proof (create_result (newDoc sha256hex teamId desc sh raw newId now) db0) as Hr.
    destruct (create _ db0) as [db2 [d|e]]; [|done].
    destruct Hr as (-> & -> & Hnd). intros [= <- <- <-].
    repeat split; try done.
    + eexists. split; [apply elem_of_app; right; apply list_elem_of_here|done].
    + intros x Hx Hxh. apply elem_of_app in Hx as [Hx|Hx].
      * destruct (Hnd x Hx). by right.
      * apply list_elem_of_singleton in Hx. by subst x.
    + apply elem_of_app in H as [Hx|Hx].
      * destruct (Hnd t Hx). by left.
      * apply list_elem_of_singleton in Hx. by subst t.
    + apply elem_of_app in H as [Hx|Hx].
      * destruct (Hnd t Hx). by left.
      * apply list_elem_of_singleton in Hx. by subst t.
    + intros x Hx Hxi. apply elem_of_app in Hx as [Hx|Hx].
      * destruct (Hnd x Hx). by left.
      * apply list_elem_of_singleton in Hx. by subst x.
  - by rewrite (createIngestionToken_throws _ _ _ _ _ _ _ _ _ _ _ Hc).
Qed.
End CallInvariants.

(** C7, as stated, fails: an [assign_shard] on the created token moves it
    while it stays active, and [resolve] then reports the new shard, not
    the one of the creation response. *)
Lemma resolve_round_trip_as_stated_fails : ¬ resolveRoundTrip sampleHash 2.
Proof.
  intros Hclaim.
  pose (rec := newDoc sampleHash "65f0000000000000000000aa" None (Some "shard-0")
                 "A" "65f000000000000000000001" 10%Z).
  destruct (Hclaim "65f0000000000000000000aa" None None "A"
              "65f000000000000000000001" 10%Z [] [rec] "hdx_ingest_A" rec
              [CallAssign "65f0000000000000000000aa" "65f000000000000000000001"
                 "shard-1" 20%Z])
    as (r & Hr & _ & Hsh).
  - reflexivity.
  - eexists. split.
    + apply list_elem_of_lookup. exists 0. reflexivity.
    + split; reflexivity.
  - vm_compute in Hr. injection Hr as <-. discriminate Hsh.
Qed.

(** ** I2 and I4 along the calls that do not reassign *)

Section UpdateRouting.
Variable P : IIngestionToken → Prop.
Context `{!∀ d, Decision (P d)}.
Variable upd : IIngestionToken → IIngestionToken.
Hypothesis Hrouting : keepsRouting upd.

(** An active token after the update stands for an active token before
    it, of the same team and on the same shard. *)
Lemma active_after_update db t :
  t ∈ (Mongo.findOneAndUpdate P upd db).1 → status t = active →
  ∃ d, d ∈ db ∧ status d = active ∧ team d = team t ∧
       assignedShard d = assignedShard t.
Proof.
  intros Hin Hact.
  apply elem_of_findOneAndUpdate in Hin as [Hin|(d0 & Hd0 & _ & ->)].
  - by exists t.
  - destruct (Hrouting d0 Hact) as (Ha & Ht & Hs). by exists d0.
Qed.

Lemma I2_update db : I2 db → I2 (Mongo.findOneAndUpdate P upd db).1.
Proof.
  intros HI t Hin Hact.
  destruct (active_after_update db t Hin Hact) as (d & Hd & Hda & _ & <-).
  by apply HI.
Qed.

Lemma I4_update db tm : I4 db tm → I4 (Mongo.findOneAndUpdate P upd db).1 tm.
Proof.
  intros HI t1 t2 H1 H2 Ht1 Ht2 Ha1 Ha2.
  destruct (active_after_update db t1 H1 Ha1) as (d1 & Hd1 & Hda1 & Hdt1 & <-).
  destruct (active_after_update db t2 H2 Ha2) as (d2 & Hd2 & Hda2 & Hdt2 & <-).
  apply HI; congruence.
Qed.
End UpdateRouting.

Lemma keepsRouting_setRevoked now : keepsRouting (setRevoked now).
Proof. intros t Hact. discriminate Hact. Qed.

Lemma keepsRouting_setLastUsedAt now : keepsRouting (setLastUsedAt now).
Proof. by intros t Hact. Qed.

Section Reachable.
Variable sha256hex : string → string.
Variable N : nat.

(** Without an explicit shard, the chosen shard is a shard, and it is the
    one of every active token the team already has. *)
Lemma chooseShard_agrees teamId db sh :
  I2 db → I4 db teamId →
  chooseShard N teamId None db = (db, Ok sh) →
  truthy sh = true ∧
  ∀ t, t ∈ db → team t = teamId → status t = active → assignedShard t = sh.
Proof.
  intros H2 H4 Hc.
  destruct (Mongo.findOne (λ d, team d = teamId ∧ status d = active) db)
    as [t0|] eqn:Ef.
  - apply findOne_Some in Ef as Hf. destruct Hf as (Hin0 & Htm0 & Hact0).
    pose proof (H2 t0 Hin0 Hact0) as Htr.
    apply truthy_true in Htr as (s & Hs & Hne).
    rewrite (chooseShard_inherits N teamId db t0 s Ef Hs Hne) in Hc.
    injection Hc as <-. split; [by apply truthy_Some|].
    intros t Hin Htm Hact. rewrite <- Hs. by apply H4.
  - rewrite chooseShard_allocates in Hc by (by rewrite Ef).
    unfold allocated in Hc.
    destruct (findNextAvailableShard N None db) as [s|] eqn:Ea; [|done].
    injection Hc as <-. split.
    + apply truthy_Some. by eapply findNextAvailableShard_truthy.
    + intros t Hin Htm Hact. rewrite findOne_None in Ef. by destruct (Ef t Hin).
Qed.

Lemma createIngestionToken_I2_I4 teamId desc raw newId now db :
  I2 db → (∀ tm, I4 db tm) →
  let db' := (createIngestionToken sha256hex N teamId desc None raw newId now db).1 in
  I2 db' ∧ ∀ tm, I4 db' tm.
Proof.
  intros H2 H4 db'. unfold db'. clear db'.
  pose proof (chooseShard_store N teamId None db) as Hst.
  destruct (chooseShard N teamId None db) as [db1 [sh|e]] eqn:Hc;
    simpl in Hst; subst db1.
  - rewrite (createIngestionToken_chosen _ _ _ _ _ _ _ _ _ _ _ Hc).
    destruct (chooseShard_agrees teamId db sh H2 (H4 teamId) Hc) as [Htr Hsame].
    pose proof (create_result (newDoc sha256hex teamId desc sh raw newId now) db) as Hr.
    destruct (create _ db) as [db2 [d|e]]; simpl; [|by subst db2].
    destruct Hr as (-> & -> & _). split.
    + intros t Hin Hact. apply elem_of_app in Hin as [Hin|Hin]; [by apply H2|].
      apply list_elem_of_singleton in Hin. by subst t.
    + intros tm t1 t2 Hin1 Hin2 Ht1 Ht2 Ha1 Ha2.
      apply elem_of_app in Hin1 as [Hin1|Hin1];
        apply elem_of_app in Hin2 as [Hin2|Hin2];
        try (apply list_elem_of_singleton in Hin1; subst t1);
        try (apply list_elem_of_singleton in Hin2; subst t2);
        simpl in *.
      * by apply (H4 tm).
      * subst tm. by apply Hsame.
      * subst tm. symmetry. by apply Hsame.
      * done.
  - by rewrite (createIngestionToken_throws _ _ _ _ _ _ _ _ _ _ _ Hc).
Qed.

Lemma step_I2_I4 db c :
  plainCall c → I2 db → (∀ tm, I4 db tm) →
  I2 (step sha256hex N db c) ∧ ∀ tm, I4 (step sha256hex N db c) tm.
Proof.
  intros Hplain H2 H4. destruct c as [tm' d p raw newId now|tm' id' now
    |tm' id' nowR raw newId nowC|tm' id' shard now|id' now]; simpl in *.
  - subst p. by apply createIngestionToken_I2_I4.
  - rewrite revokeIngestionToken_store. split.
    + apply I2_update; [apply keepsRouting_setRevoked|done].
    + intros tm. apply I4_update; [apply keepsRouting_setRevoked|done].
  - rewrite rotateIngestionToken_store, revokeIngestionToken_store.
    apply createIngestionToken_I2_I4.
    + apply I2_update; [apply keepsRouting_setRevoked|done].
    + intros tm. apply I4_update; [apply keepsRouting_setRevoked|done].
  - done.
  - split.
    + apply I2_update; [apply keepsRouting_setLastUsedAt|done].
    + intros tm. apply I4_update; [apply keepsRouting_setLastUsedAt|done].
Qed.

(** From the empty collection, as long as no shard is imposed by hand,
    every active token has a shard and the active tokens of a team share
    it. *)
Lemma reachable_I2_I4 calls :
  Forall plainCall calls →
  I2 (runCalls sha256hex N calls []) ∧ ∀ tm, I4 (runCalls sha256hex N calls []) tm.
Proof.
  assert (Hgen : ∀ db, Forall plainCall calls → I2 db → (∀ tm, I4 db tm) →
            I2 (runCalls sha256hex N calls db) ∧
            ∀ tm, I4 (runCalls sha256hex N calls db) tm).
  { induction calls as [|c calls IH]; intros db Hall H2 H4; [done|].
    apply Forall_cons in Hall as [Hc Hall]. simpl.
    destruct (step_I2_I4 db c Hc H2 H4) as [H2' H4']. by apply IH. }
  intros Hall. apply Hgen; [done| |].
  - intros t Hin. by apply elem_of_nil in Hin.
  - intros tm t1 t2 Hin. by apply elem_of_nil in Hin.
Qed.
End Reachable.

(** ** Further properties of the registry *)

(** *** The unique indexes hold along every call *)

Section KeysOfUpdate.
Variable P : IIngestionToken → Prop.
Context `{!∀ d, Decision (P d)}.
Variable upd : IIngestionToken → IIngestionToken.
Hypothesis Hkeys : keepsKeys upd.

Lemma lookup_findOneAndUpdate db i t :
  db !! i = Some t →
  (Mongo.findOneAndUpdate P upd db).1 !! i = Some t ∨
  (P t ∧ (Mongo.findOneAndUpdate P upd db).1 !! i = Some (upd t)).
Proof.
  intros Hi. pose proof (findOneAndUpdate_result P upd db) as Hr.
  destruct (Mongo.findOneAndUpdate P upd db) as [db' [u|]]; simpl.
  - destruct Hr as (j & d0 & Hj & HP & -> & ->).
    destruct (decide (j = i)) as [->|Hne].
    + right. rewrite Hi in Hj. injection Hj as ->. split; [done|].
      apply list_lookup_insert_eq. by eapply lookup_lt_Some.
    + left. by rewrite list_lookup_insert_ne.
  - destruct Hr as [-> _]. by left.
Qed.

Lemma fmap_findOneAndUpdate {B} (f : IIngestionToken → B) db :
  (∀ t, f (upd t) = f t) →
  f <$> (Mongo.findOneAndUpdate P upd db).1 = f <$> db.
Proof.
  intros Hf. pose proof (findOneAndUpdate_result P upd db) as Hr.
  destruct (Mongo.findOneAndUpdate P upd db) as [db' [u|]]; simpl.
  - destruct Hr as (j & d0 & Hj & HP & -> & ->).
    rewrite list_fmap_insert, Hf. apply list_insert_id.
    by rewrite list_lookup_fmap, Hj.
  - by destruct Hr as [-> _].
Qed.

Lemma uniqueKeys_update db :
  uniqueKeys db → uniqueKeys (Mongo.findOneAndUpdate P upd db).1.
Proof.
  intros [Hid Hh]. split.
  - rewrite (fmap_findOneAndUpdate _id); [done|]. intros t. apply Hkeys.
  - rewrite (fmap_findOneAndUpdate tokenHash); [done|]. intros t. apply Hkeys.
Qed.
End KeysOfUpdate.

Lemma uniqueKeys_create doc db :
  uniqueKeys db → uniqueKeys (create doc db).1.
Proof.
  intros [Hid Hh]. pose proof (create_result doc db) as Hc.
  destruct (create doc db) as [db' [d|e]]; simpl; [|by subst db'].
  destruct Hc as (-> & -> & Hnd). split.
  - rewrite fmap_app. apply NoDup_app. split; [done|]. split; [|apply NoDup_singleton].
    intros x Hx Hx'. apply list_elem_of_singleton in Hx'. subst x.
    apply list_elem_of_fmap in Hx as (t & Ht & Hin). destruct (Hnd t Hin). by left.
  - rewrite fmap_app. apply NoDup_app. split; [done|]. split; [|apply NoDup_singleton].
    intros x Hx Hx'. apply list_elem_of_singleton in Hx'. subst x.
    apply list_elem_of_fmap in Hx as (t & Ht & Hin). destruct (Hnd t Hin). by right.
Qed.

Section KeysAlongCalls.
Variable sha256hex : string → string.
Variable N : nat.

Lemma uniqueKeys_createIngestionToken teamId desc param raw newId now db :
  uniqueKeys db →
  uniqueKeys (createIngestionToken sha256hex N teamId desc param raw newId now db).1.
Proof.
  intros Hu.
  destruct (createIngestionToken_store sha256hex N teamId desc param raw newId now db)
    as [->|[doc ->]]; [done|by apply uniqueKeys_create].
Qed.

Lemma uniqueKeys_step db c : uniqueKeys db → uniqueKeys (step sha256hex N db c).
Proof.
  intros Hu. destruct c as [tm' d p raw newId now|tm' id' now
    |tm' id' nowR raw newId nowC|tm' id' shard now|id' now]; simpl.
  - by apply uniqueKeys_createIngestionToken.
  - rewrite revokeIngestionToken_store.
    apply uniqueKeys_update; [apply keepsKeys_setRevoked|done].
  - rewrite rotateIngestionToken_store, revokeIngestionToken_store.
    apply uniqueKeys_createIngestionToken.
    apply uniqueKeys_update; [apply keepsKeys_setRevoked|done].
  - rewrite assignIngestionTokenShard_store.
    apply uniqueKeys_update; [apply keepsKeys_setAssignedShard|done].
  - apply uniqueKeys_update; [apply keepsKeys_setLastUsedAt|done].
Qed.

Lemma uniqueKeys_runCalls calls db :
  uniqueKeys db → uniqueKeys (runCalls sha256hex N calls db).
Proof.
  revert db. induction calls as [|c calls IH]; intros db Hu; [done|].
  apply IH. by apply uniqueKeys_step.
Qed.

(** X1. Whatever calls are made (create, revoke, rotate, assign_shard,
    mark_used, with whatever arguments), a collection whose [_id]s and
    [tokenHash]es are pairwise distinct stays so: two stored tokens never
    share a hash, and so two plaintexts never resolve to each other's
    record. *)
Theorem token_keys_stay_unique (calls : list Call) (db : Tokens) :
  uniqueKeys db →
  uniqueKeys (runCalls sha256hex N calls db) ∧
  ∀ t1 t2, t1 ∈ runCalls sha256hex N calls db → t2 ∈ runCalls sha256hex N calls db →
    tokenHash t1 = tokenHash t2 → t1 = t2.
Proof.
  intros Hu. pose proof (uniqueKeys_runCalls calls db Hu) as Hu'.
  split; [done|]. intros t1 t2 H1 H2 Hh.
  apply list_elem_of_lookup in H1 as [i Hi]. apply list_elem_of_lookup in H2 as [j Hj].
  assert (i = j) as ->; [|congruence].
  eapply (NoDup_lookup _ i j (tokenHash t1) (proj2 Hu')).
  - by rewrite list_lookup_fmap, Hi.
  - by rewrite list_lookup_fmap, Hj, Hh.
Qed.
End KeysAlongCalls.

Lemma token_keys_stay_unique_witness :
  uniqueKeys (runCalls sampleHash 2
    [CallCreate "65f0000000000000000000bb" None None "B" "65f000000000000000000009" 90%Z;
     CallRotate "65f0000000000000000000cc" "65f000000000000000000006" 91%Z
       "G" "65f000000000000000000007" 92%Z]
    [sampleA; sampleB; sampleC]).
Proof.
  apply (token_keys_stay_unique sampleHash 2). split; compute_done.
Defined.

(** *** Records are never deleted, and a revocation is never undone *)

Lemma laterOf_refl t : laterOf t t.
Proof. by repeat split. Qed.

Lemma laterOf_trans t1 t2 t3 : laterOf t1 t2 → laterOf t2 t3 → laterOf t1 t3.
Proof.
  intros (Hi & Hh & Ht & Hc & Hs) (Hi' & Hh' & Ht' & Hc' & Hs').
  repeat split; try congruence. intros Hr. by apply Hs', Hs.
Qed.

Lemma keepsLater_setRevoked now : keepsLater (setRevoked now).
Proof. by intros t. Qed.
Lemma keepsLater_setAssignedShard shard now : keepsLater (setAssignedShard shard now).
Proof. by intros t. Qed.
Lemma keepsLater_setLastUsedAt now : keepsLater (setLastUsedAt now).
Proof. by intros t. Qed.

Lemma later_after_update (P : IIngestionToken → Prop) `{!∀ d, Decision (P d)}
    upd db i t :
  keepsLater upd → db !! i = Some t →
  ∃ t', (Mongo.findOneAndUpdate P upd db).1 !! i = Some t' ∧ laterOf t t'.
Proof.
  intros Hl Hi.
  destruct (lookup_findOneAndUpdate P upd db i t Hi) as [Hsame|[_ Hupd]].
  - exists t. split; [done|apply laterOf_refl].
  - exists (upd t). split; [done|apply Hl].
Qed.

Lemma later_after_create doc db i t :
  db !! i = Some t → (create doc db).1 !! i = Some t.
Proof.
  intros Hi. pose proof (create_result doc db) as Hc.
  destruct (create doc db) as [db' [d|e]]; simpl; [|by subst db'].
  destruct Hc as (_ & -> & _). by apply lookup_app_l_Some.
Qed.

Section Persistence.
Variable sha256hex : string → string.
Variable N : nat.

Lemma later_after_createIngestionToken teamId desc param raw newId now db i t :
  db !! i = Some t →
  (createIngestionToken sha256hex N teamId desc param raw newId now db).1 !! i
  = Some t.
Proof.
  intros Hi.
  destruct (createIngestionToken_store sha256hex N teamId desc param raw newId now db)
    as [->|[doc ->]]; [done|by apply later_after_create].
Qed.

Lemma later_after_step db c i t :
  db !! i = Some t →
  ∃ t', step sha256hex N db c !! i = Some t' ∧ laterOf t t'.
Proof.
  intros Hi. destruct c as [tm' d p raw newId now|tm' id' now
    |tm' id' nowR raw newId nowC|tm' id' shard now|id' now]; simpl.
  - exists t. split; [by apply later_after_createIngestionToken|apply laterOf_refl].
  - rewrite revokeIngestionToken_store.
    by apply later_after_update; [apply keepsLater_setRevoked|].
  - rewrite rotateIngestionToken_store, revokeIngestionToken_store.
    destruct (later_after_update (λ d, _id d = id' ∧ team d = tm') (setRevoked nowR)
                db i t (keepsLater_setRevoked nowR) Hi) as (t' & Hi' & Hl).
    exists t'. split; [by apply later_after_createIngestionToken|done].
  - rewrite assignIngestionTokenShard_store.
    by apply later_after_update; [apply keepsLater_setAssignedShard|].
  - by apply later_after_update; [apply keepsLater_setLastUsedAt|].
Qed.

(** X2. No call deletes or replaces a record: whatever calls are made,
    the record stored at a position is still stored there afterwards with
    the same [_id], hash, team and creation time, and if it was revoked it
    is still revoked. *)
Theorem records_persist (calls : list Call) (db : Tokens) (i : nat)
    (t : IIngestionToken) :
  db !! i = Some t →
  ∃ t', runCalls sha256hex N calls db !! i = Some t' ∧ laterOf t t'.
Proof.
  revert db t. induction calls as [|c calls IH]; intros db t Hi.
  - exists t. split; [done|apply laterOf_refl].
  - destruct (later_after_step db c i t Hi) as (t1 & Hi1 & Hl1).
    destruct (IH _ t1 Hi1) as (t2 & Hi2 & Hl2).
    exists t2. split; [done|by eapply laterOf_trans].
Qed.
End Persistence.

Lemma records_persist_witness :
  ∃ t', runCalls sampleHash 2
          [CallAssign "65f0000000000000000000aa" "65f000000000000000000001"
             "shard-1" 95%Z;
           CallRotate "65f0000000000000000000aa" "65f000000000000000000001" 96%Z
             "H" "65f000000000000000000008" 97%Z]
          [sampleA; sampleB; sampleC] !! 0 = Some t' ∧
        status t' = revoked ∧ assignedShard t' = Some "shard-0".
Proof.
  destruct (records_persist sampleHash 2
              [CallAssign "65f0000000000000000000aa" "65f000000000000000000001"
                 "shard-1" 95%Z;
               CallRotate "65f0000000000000000000aa" "65f000000000000000000001" 96%Z
                 "H" "65f000000000000000000008" 97%Z]
              [sampleA; sampleB; sampleC] 0 sampleA)
    as (t' & Hi & _ & _ & _ & _ & Hrev).
  - reflexivity.
  - exists t'. split; [exact Hi|]. split; [by apply Hrev|].
    vm_compute in Hi. by injection Hi as <-.
Defined.

(** *** Resolution after revocation, rotation and reassignment *)

Section Resolution.
Variable sha256hex : string → string.
Variable N : nat.

(** What [resolve] returns for a tracked record that is still active. *)
Lemma resolve_tracked token id tm sh db :
  tracks id (sha256hex token) tm db → onShard id sh db →
  (∃ t, t ∈ db ∧ _id t = id ∧ status t = active) →
  resolveIngestionToken sha256hex token db
  = Some {| r_tokenId := id; r_tokenHash := sha256hex token;
            r_teamId := tm; r_assignedShard := sh |}.
Proof.
  intros (_ & Hh & Hk) Hon (t & Hin & Hid & Hact).
  unfold resolveIngestionToken, IngestionTokens.hashIngestionToken.
  destruct (findOne_is_Some
              (λ d, tokenHash d = sha256hex token ∧ status d = active) db t)
    as [d Hd]; [done| |].
  { split; [|done]. by apply Hk. }
  rewrite Hd. apply findOne_Some in Hd as (Hdin & Hdh & Hda).
  pose proof (Hh d Hdin Hdh) as Hdi.
  f_equal. f_equal; [done| |by apply Hon]. by apply Hk.
Qed.

Lemma resolve_dead token db :
  dead (sha256hex token) db → resolveIngestionToken sha256hex token db = None.
Proof.
  intros [_ Hd]. unfold resolveIngestionToken, IngestionTokens.hashIngestionToken.
  assert (Mongo.findOne (λ d, tokenHash d = sha256hex token ∧ status d = active) db
          = None) as ->; [|done].
  apply findOne_None. intros d Hin [Hh Ha]. by rewrite (Hd d Hin Hh) in Ha.
Qed.

Lemma dead_update (P : IIngestionToken → Prop) `{!∀ d, Decision (P d)} upd h db :
  keepsLater upd → dead h db → dead h (Mongo.findOneAndUpdate P upd db).1.
Proof.
  intros Hl [(t & Hin & Hh) Hd]. split.
  - destruct (findOneAndUpdate_keeps P upd db t Hin) as [Ht|[_ Ht]].
    + by exists t.
    + exists (upd t). split; [done|]. destruct (Hl t) as (_ & -> & _). done.
  - intros x Hx Hxh.
    apply elem_of_findOneAndUpdate in Hx as [Hx|(d0 & Hd0 & _ & ->)]; [by apply Hd|].
    destruct (Hl d0) as (_ & Eh & _ & _ & Hs). apply Hs, Hd; [done|congruence].
Qed.

Lemma dead_create doc h db : dead h db → dead h (create doc db).1.
Proof.
  intros Hdead. pose proof (create_result doc db) as Hc.
  destruct (create doc db) as [db' [d|e]]; simpl; [|by subst db'].
  destruct Hdead as [(t & Hin & Hh) Hd].
  destruct Hc as (-> & -> & Hnd). split.
  - exists t. split; [|done]. apply elem_of_app. by left.
  - intros x Hx Hxh. apply elem_of_app in Hx as [Hx|Hx]; [by apply Hd|].
    apply list_elem_of_singleton in Hx. subst x.
    destruct (Hnd t Hin). right. congruence.
Qed.

Lemma dead_createIngestionToken teamId desc param raw newId now h db :
  dead h db →
  dead h (createIngestionToken sha256hex N teamId desc param raw newId now db).1.
Proof.
  intros Hd.
  destruct (createIngestionToken_store sha256hex N teamId desc param raw newId now db)
    as [->|[doc ->]]; [done|by apply dead_create].
Qed.

Lemma dead_step h db c : dead h db → dead h (step sha256hex N db c).
Proof.
  intros Hd. destruct c as [tm' d p raw newId now|tm' id' now
    |tm' id' nowR raw newId nowC|tm' id' shard now|id' now]; simpl.
  - by apply dead_createIngestionToken.
  - rewrite revokeIngestionToken_store.
    by apply dead_update; [apply keepsLater_setRevoked|].
  - rewrite rotateIngestionToken_store, revokeIngestionToken_store.
    apply dead_createIngestionToken.
    by apply dead_update; [apply keepsLater_setRevoked|].
  - rewrite assignIngestionTokenShard_store.
    by apply dead_update; [apply keepsLater_setAssignedShard|].
  - by apply dead_update; [apply keepsLater_setLastUsedAt|].
Qed.

Lemma dead_runCalls h calls db :
  dead h db → dead h (runCalls sha256hex N calls db).
Proof.
  revert db. induction calls as [|c calls IH]; intros db Hd; [done|].
  apply IH. by apply dead_step.
Qed.

(** Revoking the tracked record leaves no active token with its hash. *)
Lemma dead_after_revoke id h tm now db :
  NoDup (_id <$> db) → tracks id h tm db →
  dead h (revokeIngestionToken tm id now db).1 ∧
  ∃ u, (revokeIngestionToken tm id now db).2 = Ok (Some u).
Proof.
  intros Hnd ((t & Hin & Hid) & Hh & Hk).
  destruct (Hk t Hin Hid) as [Hth Htt].
  destruct (revoke_found tm id now db) as (i & t0 & Hi & Hid0 & Htm0 & ->);
    [by exists t|]. simpl. split; [|by eexists].
  split.
  - exists (setRevoked now t0). split.
    + apply list_elem_of_lookup. exists i. apply list_lookup_insert_eq.
      by eapply lookup_lt_Some.
    + simpl. apply Hk; [by eapply list_elem_of_lookup_2|done].
  - intros x Hx Hxh. apply list_elem_of_lookup in Hx as [j Hj].
    destruct (decide (i = j)) as [->|Hne].
    + rewrite list_lookup_insert_eq in Hj by (by eapply lookup_lt_Some).
      by injection Hj as <-.
    + rewrite list_lookup_insert_ne in Hj by done.
      destruct Hne. eapply (NoDup_lookup _ i j id Hnd).
      * by rewrite list_lookup_fmap, Hi, <- Hid0.
      * rewrite list_lookup_fmap, Hj. simpl. f_equal.
        apply Hh; [by eapply list_elem_of_lookup_2|done].
Qed.

Lemma rotate_after_revoke teamId tokenId nowRevoke raw newId nowCreate db :
  rotateIngestionToken sha256hex N teamId tokenId nowRevoke raw newId nowCreate db
  = createIngestionToken sha256hex N teamId None None raw newId nowCreate
      (revokeIngestionToken teamId tokenId nowRevoke db).1.
Proof.
  unfold rotateIngestionToken, bind, revokeIngestionToken.
  by destruct (Mongo.findOneAndUpdate _ _ db) as [? ?].
Qed.

(** X3. Once the token a [create] returned has been revoked, its
    plaintext never resolves again, whatever calls follow; the DELETE that
    revokes it answers 200. *)
Theorem revoked_token_never_resolves
    (teamId : ObjectId) (desc param : option string) (raw : string)
    (newId : ObjectId) (now : Date) (db0 db1 : Tokens) (token : string)
    (rec : IIngestionToken) (before after : list Call) (nowRevoke : Date) :
  uniqueKeys db0 →
  createIngestionToken sha256hex N teamId desc param raw newId now db0
    = (db1, Ok (token, rec)) →
  let db2 := runCalls sha256hex N before db1 in
  (Router.deleteToken (team rec) (_id rec) nowRevoke db2).2 = Router.Status 200 ∧
  resolveIngestionToken sha256hex token
    (runCalls sha256hex N after
       (Router.deleteToken (team rec) (_id rec) nowRevoke db2).1) = None.
Proof.
  intros Hu Hcreate db2.
  pose proof (uniqueKeys_createIngestionToken sha256hex N teamId desc param raw
                newId now db0 Hu) as Hu1.
  rewrite Hcreate in Hu1. simpl in Hu1.
  apply createIngestionToken_tracks in Hcreate as (_ & _ & _ & _ & _ & Htr & _).
  pose proof (runCalls_tracks sha256hex N _ _ _ before db1 Htr) as Htr2.
  pose proof (uniqueKeys_runCalls sha256hex N before db1 Hu1) as [Hnd _].
  destruct (dead_after_revoke _ _ _ nowRevoke _ Hnd Htr2) as [Hdead [u Hu']].
  unfold Router.deleteToken. fold db2 in Hdead, Hu'.
  destruct (revokeIngestionToken (team rec) (_id rec) nowRevoke db2)
    as [db3 r] eqn:Er. simpl in *. subst r. simpl. split; [done|].
  by apply resolve_dead, dead_runCalls.
Qed.

(** X4. When the rotation of a token that a [create] returned succeeds,
    the old plaintext no longer resolves and the new one resolves to the
    new record, of the same team. *)
Theorem rotate_swaps_resolution
    (teamId : ObjectId) (desc param : option string) (raw : string)
    (newId : ObjectId) (now : Date) (db0 db1 : Tokens) (token : string)
    (rec : IIngestionToken) (before : list Call)
    (nowRevoke : Date) (raw' : string) (newId' : ObjectId) (nowCreate : Date)
    (db3 : Tokens) (token' : string) (rec' : IIngestionToken) :
  uniqueKeys db0 →
  createIngestionToken sha256hex N teamId desc param raw newId now db0
    = (db1, Ok (token, rec)) →
  rotateIngestionToken sha256hex N (team rec) (_id rec) nowRevoke raw' newId'
    nowCreate (runCalls sha256hex N before db1) = (db3, Ok (token', rec')) →
  resolveIngestionToken sha256hex token db3 = None ∧
  resolveIngestionToken sha256hex token' db3
  = Some {| r_tokenId := _id rec'; r_tokenHash := sha256hex token';
            r_teamId := team rec; r_assignedShard := assignedShard rec' |} ∧
  status rec' = active.
Proof.
  intros Hu Hcreate Hrot.
  pose proof (uniqueKeys_createIngestionToken sha256hex N teamId desc param raw
                newId now db0 Hu) as Hu1.
  rewrite Hcreate in Hu1. simpl in Hu1.
  apply createIngestionToken_tracks in Hcreate as (_ & _ & Hteam & _ & _ & Htr & _).
  pose proof (runCalls_tracks sha256hex N _ _ _ before db1 Htr) as Htr2.
  pose proof (uniqueKeys_runCalls sha256hex N before db1 Hu1) as [Hnd _].
  destruct (dead_after_revoke _ _ _ nowRevoke _ Hnd Htr2) as [Hdead _].
  rewrite rotate_after_revoke in Hrot.
  pose proof (dead_createIngestionToken (team rec) None None raw' newId' nowCreate
                _ _ Hdead) as Hdead3.
  rewrite Hrot in Hdead3. simpl in Hdead3.
  apply createIngestionToken_tracks in Hrot
    as (_ & _ & Hteam' & Hact' & Hdb3 & Htr' & Hon').
  split; [by apply resolve_dead|]. split; [|done].
  rewrite <- Hteam'. apply resolve_tracked; [done..|].
  exists rec'. split; [|done]. rewrite Hdb3. apply elem_of_app. right.
  apply list_elem_of_here.
Qed.
End Resolution.

Lemma revoked_token_never_resolves_witness :
  (Router.deleteToken "65f0000000000000000000bb" "65f000000000000000000005"
     82%Z
     (runCalls sampleHash 2 [CallMarkUsed "65f000000000000000000005" 81%Z]
        [sampleA; sampleB; sampleC; sampleE])).2 = Router.Status 200 ∧
  resolveIngestionToken sampleHash "hdx_ingest_E"
    (runCalls sampleHash 2
       [CallAssign "65f0000000000000000000bb" "65f000000000000000000005"
          "shard-1" 83%Z;
        CallCreate "65f0000000000000000000bb" None None "E"
          "65f00000000000000000000a" 84%Z]
       (Router.deleteToken "65f0000000000000000000bb" "65f000000000000000000005"
          82%Z
          (runCalls sampleHash 2 [CallMarkUsed "65f000000000000000000005" 81%Z]
             [sampleA; sampleB; sampleC; sampleE])).1) = None.
Proof.
  apply (revoked_token_never_resolves sampleHash 2 "65f0000000000000000000bb"
           None None "E" "65f000000000000000000005" 70%Z
           [sampleA; sampleB; sampleC] [sampleA; sampleB; sampleC; sampleE]
           "hdx_ingest_E" sampleE
           [CallMarkUsed "65f000000000000000000005" 81%Z]
           [CallAssign "65f0000000000000000000bb" "65f000000000000000000005"
              "shard-1" 83%Z;
            CallCreate "65f0000000000000000000bb" None None "E"
              "65f00000000000000000000a" 84%Z]
           82%Z).
  - split; compute_done.
  - reflexivity.
Defined.

Lemma rotate_swaps_resolution_witness :
  let db3 := (rotateIngestionToken sampleHash 2 "65f0000000000000000000bb"
                "65f000000000000000000005" 85%Z "J" "65f00000000000000000000b"
                86%Z [sampleA; sampleB; sampleC; sampleE]).1 in
  resolveIngestionToken sampleHash "hdx_ingest_E" db3 = None ∧
  is_Some (resolveIngestionToken sampleHash "hdx_ingest_J" db3).
Proof.
  intros db3.
  destruct (rotate_swaps_resolution sampleHash 2 "65f0000000000000000000bb"
              None None "E" "65f000000000000000000005" 70%Z
              [sampleA; sampleB; sampleC] [sampleA; sampleB; sampleC; sampleE]
              "hdx_ingest_E" sampleE
              [] 85%Z "J" "65f00000000000000000000b" 86%Z db3 "hdx_ingest_J"
              (newDoc sampleHash "65f0000000000000000000bb" None (Some "shard-1")
                 "J" "65f00000000000000000000b" 86%Z))
    as (Hold & Hnew & _).
  - split; compute_done.
  - reflexivity.
  - reflexivity.
  - split; [exact Hold|]. rewrite Hnew. by eexists.
Defined.

(** *** Reassignment and failed rotations *)

Section Reassignment.
Variable sha256hex : string → string.
Variable N : nat.

(** X5. Reassigning the shard of a token that a [create] returned and
    that is still active succeeds, and from then on [resolve] reports the
    new shard for its plaintext, with the same token id and team. *)
Theorem assign_then_resolve
    (teamId : ObjectId) (desc param : option string) (raw : string)
    (newId : ObjectId) (now : Date) (db0 db1 : Tokens) (token : string)
    (rec : IIngestionToken) (before : list Call) (shard : string)
    (nowAssign : Date) :
  uniqueKeys db0 →
  createIngestionToken sha256hex N teamId desc param raw newId now db0
    = (db1, Ok (token, rec)) →
  let db2 := runCalls sha256hex N before db1 in
  (∃ t, t ∈ db2 ∧ _id t = _id rec ∧ status t = active) →
  ∃ u db3,
    assignIngestionTokenShard (team rec) (_id rec) shard nowAssign db2
      = (db3, Ok (Some u)) ∧
    _id u = _id rec ∧ assignedShard u = Some shard ∧ status u = active ∧
    resolveIngestionToken sha256hex token db3
    = Some {| r_tokenId := _id rec; r_tokenHash := sha256hex token;
              r_teamId := team rec; r_assignedShard := Some shard |}.
Proof.
  intros Hu Hcreate db2 (t & Hin & Hid & Hact).
  pose proof (uniqueKeys_createIngestionToken sha256hex N teamId desc param raw
                newId now db0 Hu) as Hu1.
  rewrite Hcreate in Hu1. simpl in Hu1.
  apply createIngestionToken_tracks in Hcreate as (_ & _ & _ & _ & _ & Htr & _).
  pose proof (runCalls_tracks sha256hex N _ _ _ before db1 Htr) as Htr2.
  pose proof (uniqueKeys_runCalls sha256hex N before db1 Hu1) as [Hnd _].
  fold db2 in Htr2, Hnd.
  assert (Htt : team t = team rec) by (by apply Htr2).
  pose proof (tracks_update
    (λ d, _id d = _id rec ∧ team d = team rec ∧ status d = active)
    (setAssignedShard shard nowAssign)
    (keepsKeys_setAssignedShard shard nowAssign) _ _ _ db2 Htr2) as Htr3.
  unfold assignIngestionTokenShard.
  destruct (findOneAndUpdate_Some
              (λ d, _id d = _id rec ∧ team d = team rec ∧ status d = active)
              (setAssignedShard shard nowAssign) db2 t Hin)
    as (i & t0 & Hi & (Hid0 & Htm0 & Hact0) & _ & E); [done|].
  rewrite E in Htr3 |- *. simpl in Htr3.
  eexists _, _. split; [reflexivity|]. repeat split; try done.
  assert (Hu3 : setAssignedShard shard nowAssign t0
                ∈ <[i := setAssignedShard shard nowAssign t0]> db2).
  { apply list_elem_of_lookup. exists i. apply list_lookup_insert_eq.
    by eapply lookup_lt_Some. }
  apply resolve_tracked; [done| |by eexists].
  intros x Hx Hxi. apply list_elem_of_lookup in Hx as [j Hj].
  destruct (decide (i = j)) as [->|Hne].
  - rewrite list_lookup_insert_eq in Hj by (by eapply lookup_lt_Some).
    by injection Hj as <-.
  - rewrite list_lookup_insert_ne in Hj by done.
    destruct Hne. eapply (NoDup_lookup _ i j (_id rec) Hnd).
    + by rewrite list_lookup_fmap, Hi, <- Hid0.
    + by rewrite list_lookup_fmap, Hj, <- Hxi.
Qed.

(** X6. A reassignment addressed to a token that is revoked, that is
    another team's, or that does not exist changes nothing: the controller
    returns [null] and PATCH answers 404. *)
Theorem assign_needs_active_token_of_team (teamId tokenId : ObjectId)
    (shard : string) (now : Date) (db : Tokens) :
  (∀ t, t ∈ db → _id t = tokenId → team t = teamId → status t = revoked) →
  assignIngestionTokenShard teamId tokenId shard now db = (db, Ok None) ∧
  Router.patchShard teamId tokenId shard now db = (db, Router.Status 404).
Proof.
  intros Hno.
  assert (assignIngestionTokenShard teamId tokenId shard now db = (db, Ok None)) as E.
  { unfold assignIngestionTokenShard. rewrite findOneAndUpdate_None; [done|].
    intros d Hd (Hid & Htm & Hact). by rewrite (Hno d Hd Hid Htm) in Hact. }
  split; [done|]. unfold Router.patchShard. by rewrite E.
Qed.

(** X7. When a rotation throws, the revocation it began with is not
    rolled back: the collection is left as [revoke] alone leaves it, so the
    team's token with that id is revoked although no new token was
    issued. *)
Theorem failed_rotation_keeps_revocation (teamId tokenId : ObjectId)
    (nowRevoke : Date) (raw : string) (newId : ObjectId) (nowCreate : Date)
    (db db' : Tokens) (e : string) :
  rotateIngestionToken sha256hex N teamId tokenId nowRevoke raw newId nowCreate db
    = (db', Throw e) →
  db' = (revokeIngestionToken teamId tokenId nowRevoke db).1 ∧
  length db' = length db ∧
  (tokenOfTeam db teamId tokenId →
   ∃ t, t ∈ db' ∧ _id t = tokenId ∧ team t = teamId ∧ status t = revoked ∧
        revokedAt t = Some nowRevoke).
Proof.
  rewrite rotate_after_revoke. intros Hrot.
  assert (db' = (revokeIngestionToken teamId tokenId nowRevoke db).1) as ->.
  { pose proof (chooseShard_store N teamId None
                  (revokeIngestionToken teamId tokenId nowRevoke db).1) as Hst.
    destruct (chooseShard N teamId None _) as [dbc [sh|msg]] eqn:Hc;
      simpl in Hst; subst dbc.
    - rewrite (createIngestionToken_chosen _ _ _ _ _ _ _ _ _ _ _ Hc) in Hrot.
      pose proof (create_result
        (newDoc sha256hex teamId None sh raw newId nowCreate)
        (revokeIngestionToken teamId tokenId nowRevoke db).1) as Hr.
      destruct (create _ _) as [db2 [d|msg]]; [done|].
      injection Hrot as <- _. done.
    - rewrite (createIngestionToken_throws _ _ _ _ _ _ _ _ _ _ _ Hc) in Hrot.
      by injection Hrot as <- _. }
  split; [done|]. split.
  - rewrite revokeIngestionToken_store.
    pose proof (findOneAndUpdate_result (λ d, _id d = tokenId ∧ team d = teamId)
                  (setRevoked nowRevoke) db) as Hr.
    destruct (Mongo.findOneAndUpdate _ _ db) as [db2 [u|]]; simpl.
    + destruct Hr as (i & d0 & _ & _ & _ & ->). apply length_insert.
    + by destruct Hr as [-> _].
  - intros Hex.
    destruct (revoke_found teamId tokenId nowRevoke db Hex)
      as (i & t0 & Hi & Hid0 & Htm0 & ->). simpl.
    exists (setRevoked nowRevoke t0). split; [|done].
    apply list_elem_of_lookup. exists i. apply list_lookup_insert_eq.
    by eapply lookup_lt_Some.
Qed.
End Reassignment.

Lemma assign_then_resolve_witness :
  ∃ r, resolveIngestionToken sampleHash "hdx_ingest_E"
         (assignIngestionTokenShard "65f0000000000000000000bb"
            "65f000000000000000000005" "shard-9" 88%Z
            [sampleA; sampleB; sampleC; sampleE]).1 = Some r ∧
       r_assignedShard r = Some "shard-9".
Proof.
  destruct (assign_then_resolve sampleHash 2 "65f0000000000000000000bb"
              None None "E" "65f000000000000000000005" 70%Z
              [sampleA; sampleB; sampleC] [sampleA; sampleB; sampleC; sampleE]
              "hdx_ingest_E" sampleE [] "shard-9" 88%Z)
    as (u & db3 & Hassign & _ & _ & _ & Hres).
  - split; compute_done.
  - reflexivity.
  - exists sampleE. split; [|split; reflexivity].
    apply list_elem_of_lookup. exists 3. reflexivity.
  - eexists. simpl in Hassign. rewrite Hassign. simpl.
    split; [exact Hres|reflexivity].
Defined.

Lemma assign_needs_active_token_of_team_witness :
  Router.patchShard "65f0000000000000000000aa" "65f000000000000000000001"
    "shard-1" 89%Z [sampleA; sampleB; sampleC]
  = ([sampleA; sampleB; sampleC], Router.Status 404) ∧
  Router.patchShard "65f0000000000000000000aa" "65f000000000000000000002"
    "shard-0" 89%Z [sampleA; sampleB; sampleC]
  = ([sampleA; sampleB; sampleC], Router.Status 404).
Proof.
  split.
  - apply (assign_needs_active_token_of_team "65f0000000000000000000aa"
             "65f000000000000000000001" "shard-1" 89%Z [sampleA; sampleB; sampleC]).
    refine (proj1 (Forall_forall _ _) _). compute_done.
  - apply (assign_needs_active_token_of_team "65f0000000000000000000aa"
             "65f000000000000000000002" "shard-0" 89%Z [sampleA; sampleB; sampleC]).
    refine (proj1 (Forall_forall _ _) _). compute_done.
Defined.

Lemma failed_rotation_keeps_revocation_witness :
  ∃ db' t,
    rotateIngestionToken sampleHash 1 "65f0000000000000000000aa"
      "65f000000000000000000001" 50%Z "K" "65f000000000000000000003" 51%Z
      [strandedA; holderB]
    = (db', Throw exhausted) ∧
    t ∈ db' ∧ _id t = "65f000000000000000000001" ∧ status t = revoked ∧
    resolveIngestionToken sampleHash "hdx_ingest_A" db' = None.
Proof.
  destruct (failed_rotation_keeps_revocation sampleHash 1
              "65f0000000000000000000aa" "65f000000000000000000001" 50%Z "K"
              "65f000000000000000000003" 51%Z [strandedA; holderB]
              (revokeIngestionToken "65f0000000000000000000aa"
                 "65f000000000000000000001" 50%Z [strandedA; holderB]).1
              exhausted)
    as (_ & _ & Hrev).
  - reflexivity.
  - destruct Hrev as (t & Hin & Hid & _ & Hst & _).
    + exists strandedA. split; [apply list_elem_of_here|]. split; reflexivity.
    + eexists _, t. split; [reflexivity|]. split; [exact Hin|].
      split; [exact Hid|]. split; [exact Hst|reflexivity].
Defined.

(** *** The round trip through [resolve] *)

Lemma sole_ids id db :
  sole id db ↔
  ∀ i j, (_id <$> db) !! i = Some id → (_id <$> db) !! j = Some id → i = j.
Proof.
  split.
  - intros Hs i j Hi Hj. rewrite list_lookup_fmap in Hi, Hj.
    destruct (db !! i) as [t1|] eqn:E1; [|done].
    destruct (db !! j) as [t2|] eqn:E2; [|done].
    simpl in *. injection Hi as Hi. injection Hj as Hj.
    by apply (Hs i j t1 t2).
  - intros Hs i j t1 t2 H1 H2 E1 E2.
    apply Hs; rewrite list_lookup_fmap; [rewrite H1|rewrite H2]; simpl; congruence.
Qed.

Lemma sole_snoc (id x : string) (ids : list string) :
  x ∉ ids →
  (∀ i j, ids !! i = Some id → ids !! j = Some id → i = j) →
  ∀ i j, (ids ++ [x])%list !! i = Some id → (ids ++ [x])%list !! j = Some id →
         i = j.
Proof.
  intros Hx Hs i j Hi Hj.
  apply lookup_app_Some in Hi as [Hi|[Hli Hi]];
    apply lookup_app_Some in Hj as [Hj|[Hlj Hj]].
  - by apply Hs.
  - apply list_lookup_singleton_Some in Hj as [_ ->].
    destruct Hx. by eapply list_elem_of_lookup_2.
  - apply list_lookup_singleton_Some in Hi as [_ ->].
    destruct Hx. by eapply list_elem_of_lookup_2.
  - apply list_lookup_singleton_Some in Hi as [Hi _].
    apply list_lookup_singleton_Some in Hj as [Hj _]. lia.
Qed.

Lemma ids_create doc db :
  _id <$> (create doc db).1 = _id <$> db ∨
  ((_id doc ∉ _id <$> db) ∧
   _id <$> (create doc db).1 = ((_id <$> db) ++ [_id doc])%list).
Proof.
  pose proof (create_result doc db) as Hc.
  destruct (create doc db) as [db' [d|e]]; simpl; [|left; by subst].
  destruct Hc as (_ & -> & Hnd). right. split.
  - intros Hin. apply list_elem_of_fmap in Hin as (d' & Hid & Hd').
    destruct (Hnd d' Hd'). by left.
  - by rewrite fmap_app.
Qed.

Section RoundTrip.
Variable sha256hex : string → string.
Variable N : nat.

Lemma ids_createIngestionToken teamId desc param raw newId now db :
  let db' := (createIngestionToken sha256hex N teamId desc param raw newId now db).1 in
  _id <$> db' = _id <$> db ∨
  ∃ x, (x ∉ _id <$> db) ∧ _id <$> db' = ((_id <$> db) ++ [x])%list.
Proof.
  intros db'. unfold db'.
  destruct (createIngestionToken_store sha256hex N teamId desc param raw newId now db)
    as [->|[doc ->]]; [by left|].
  destruct (ids_create doc db) as [->|[Hx ->]]; [by left|right; by eexists].
Qed.

(** A call leaves the ids as they are or appends a new one. *)
Lemma ids_step db c :
  _id <$> step sha256hex N db c = _id <$> db ∨
  ∃ x, (x ∉ _id <$> db) ∧
       _id <$> step sha256hex N db c = ((_id <$> db) ++ [x])%list.
Proof.
  destruct c as [tm' d p raw newId now|tm' id' now
    |tm' id' nowR raw newId nowC|tm' id' shard now|id' now]; simpl.
  - apply ids_createIngestionToken.
  - left. rewrite revokeIngestionToken_store. by apply fmap_findOneAndUpdate.
  - rewrite rotateIngestionToken_store.
    pose proof (ids_createIngestionToken tm' None None raw newId nowC
                  (revokeIngestionToken tm' id' nowR db).1) as H.
    assert (E : _id <$> (revokeIngestionToken tm' id' nowR db).1 = _id <$> db).
    { rewrite revokeIngestionToken_store. by apply fmap_findOneAndUpdate. }
    simpl in H. by rewrite E in H.
  - left. rewrite assignIngestionTokenShard_store. by apply fmap_findOneAndUpdate.
  - left. by apply fmap_findOneAndUpdate.
Qed.

Lemma sole_step id db c : sole id db → sole id (step sha256hex N db c).
Proof.
  rewrite !sole_ids. intros Hs.
  destruct (ids_step db c) as [->|(x & Hx & ->)]; [done|by apply sole_snoc].
Qed.

Lemma sole_runCalls id calls db :
  sole id db → sole id (runCalls sha256hex N calls db).
Proof.
  revert db. induction calls as [|c calls IH]; intros db Hs; [done|].
  apply IH. by apply sole_step.
Qed.

(** The token a creation returns is the only one with its id. *)
Lemma createIngestionToken_sole teamId desc param raw newId now db0 db1 token rec :
  createIngestionToken sha256hex N teamId desc param raw newId now db0
    = (db1, Ok (token, rec)) →
  sole (_id rec) db1.
Proof.
  intros Hcreate. apply sole_ids.
  pose proof (ids_createIngestionToken teamId desc param raw newId now db0) as Hids.
  apply createIngestionToken_tracks in Hcreate as Htr.
  destruct Htr as (_ & _ & _ & _ & Hdb1 & _ & _).
  rewrite Hcreate in Hids. simpl in Hids.
  destruct Hids as [E|(x & Hx & E)].
  - apply (f_equal length) in E. rewrite Hdb1, !length_fmap, length_app in E.
    simpl in E. lia.
  - rewrite E. assert (x = _id rec) as ->.
    { rewrite Hdb1, fmap_app in E. by apply app_inj_1 in E as [_ [= ->]]. }
    intros i j Hi Hj.
    apply lookup_app_Some in Hi as [Hi|[Hli Hi]];
      apply lookup_app_Some in Hj as [Hj|[Hlj Hj]].
    + destruct Hx. by eapply list_elem_of_lookup_2.
    + destruct Hx. by eapply list_elem_of_lookup_2.
    + destruct Hx. by eapply list_elem_of_lookup_2.
    + apply list_lookup_singleton_Some in Hi as [Hi _].
      apply list_lookup_singleton_Some in Hj as [Hj _]. lia.
Qed.

Lemma later_after_runCalls calls db i t :
  db !! i = Some t →
  ∃ t', runCalls sha256hex N calls db !! i = Some t' ∧ laterOf t t'.
Proof.
  revert db t. induction calls as [|c calls IH]; intros db t Hi.
  - exists t. split; [done|apply laterOf_refl].
  - destruct (later_after_step sha256hex N db c i t Hi) as (t1 & Hi1 & Hl1).
    destruct (IH _ t1 Hi1) as (t2 & Hi2 & Hl2).
    exists t2. split; [done|by eapply laterOf_trans].
Qed.

(** A token that is active after some calls was active before them. *)
Lemma active_earlier id calls db t0 :
  sole id db → t0 ∈ db → _id t0 = id →
  (∃ t, t ∈ runCalls sha256hex N calls db ∧ _id t = id ∧ status t = active) →
  status t0 = active.
Proof.
  intros Hs Hin0 Hid0 (t & Hin & Hid & Hact).
  apply list_elem_of_lookup in Hin0 as [i Hi].
  destruct (later_after_runCalls calls db i t0 Hi) as (t' & Hi' & Hl).
  apply list_elem_of_lookup in Hin as [j Hj].
  destruct Hl as (Hid' & _ & _ & _ & Hrev).
  assert (j = i) as ->.
  { apply (sole_runCalls id calls db Hs j i t t'); congruence. }
  rewrite Hi' in Hj. injection Hj as ->.
  destruct (status t0) eqn:E; [done|]. rewrite Hrev in Hact; done.
Qed.

(** A reassignment of the only token with the id, while it is active,
    puts it on the new shard. *)
Lemma assign_onShard id h tm shard now db t0 :
  sole id db → tracks id h tm db →
  t0 ∈ db → _id t0 = id → status t0 = active →
  onShard id (Some shard) (assignIngestionTokenShard tm id shard now db).1.
Proof.
  intros Hs (_ & _ & Hk) Hin0 Hid0 Hact0.
  rewrite assignIngestionTokenShard_store.
  destruct (findOneAndUpdate_Some
              (λ d, _id d = id ∧ team d = tm ∧ status d = active)
              (setAssignedShard shard now) db t0 Hin0)
    as (i & d0 & Hi & (Hd0 & _) & _ & ->).
  { split; [done|]. split; [by apply Hk|done]. }
  simpl. intros x Hx Hxi. apply list_elem_of_lookup in Hx as [j Hj].
  destruct (decide (i = j)) as [->|Hne].
  - rewrite list_lookup_insert_eq in Hj by (by eapply lookup_lt_Some).
    by injection Hj as <-.
  - rewrite list_lookup_insert_ne in Hj by done.
    destruct Hne. by apply (Hs i j d0 x).
Qed.

(** After a reassignment of the token that no other one follows, the
    token, if still active, is on the reassigned shard. *)
Lemma onShard_after_reassign id h tm before shard nowAssign after db :
  sole id db → tracks id h tm db →
  Forall (λ c, ¬ reassigns tm id c) after →
  let calls := (before ++ CallAssign tm id shard nowAssign :: after)%list in
  (∃ t, t ∈ runCalls sha256hex N calls db ∧ _id t = id ∧ status t = active) →
  onShard id (Some shard) (runCalls sha256hex N calls db).
Proof.
  intros Hs Htr Hno calls Hact. unfold calls, runCalls in *.
  rewrite foldl_app in *. simpl in *.
  fold (runCalls sha256hex N before db) in *.
  set (db2 := runCalls sha256hex N before db) in *.
  fold (runCalls sha256hex N after
          (assignIngestionTokenShard tm id shard nowAssign db2).1) in *.
  pose proof (sole_runCalls id before db Hs) as Hs2.
  pose proof (runCalls_tracks sha256hex N id h tm before db Htr) as Htr2.
  fold db2 in Hs2, Htr2.
  destruct Htr2 as ((t0 & Hin0 & Hid0) & Hh2 & Hk2).
  assert (Hact0 : status t0 = active).
  { apply (active_earlier id (CallAssign tm id shard nowAssign :: after) db2 t0);
      done. }
  apply (runCalls_onShard sha256hex N id h tm); [|done|].
  - apply (step_tracks sha256hex N id h tm db2
             (CallAssign tm id shard nowAssign)).
    by split; [exists t0|].
  - apply (assign_onShard id h tm shard nowAssign db2 t0); try done.
    by split; [exists t0|].
Qed.
End RoundTrip.

(** C7, as amended. After a [create] returned the plaintext [token] with
    the record [rec], and after any further calls, if the record is still
    active then [resolve token] is non-null and names the record and its
    team. Its shard is the one of the creation response provided no
    [assign_shard] was addressed to that token in between; after an
    [assign_shard] addressed to it, it is the shard of the last such
    reassignment. *)
Theorem resolve_round_trip (sha256hex : string → string) (N : nat)
    (teamId : ObjectId) (desc param : option string) (raw : string)
    (newId : ObjectId) (now : Date) (db0 db1 : Tokens) (token : string)
    (rec : IIngestionToken) (calls : list Call) :
  createIngestionToken sha256hex N teamId desc param raw newId now db0
    = (db1, Ok (token, rec)) →
  (∃ t, t ∈ runCalls sha256hex N calls db1 ∧ _id t = _id rec ∧ status t = active) →
  ∃ r, resolveIngestionToken sha256hex token (runCalls sha256hex N calls db1) = Some r ∧
       r_tokenId r = _id rec ∧ r_teamId r = team rec ∧
       (Forall (λ c, ¬ reassigns (team rec) (_id rec) c) calls →
        r_assignedShard r = assignedShard rec) ∧
       (∀ before shard nowAssign after,
          calls = (before ++
                   CallAssign (team rec) (_id rec) shard nowAssign :: after)%list →
          Forall (λ c, ¬ reassigns (team rec) (_id rec) c) after →
          r_assignedShard r = Some shard).
Proof.
  intros Hcreate Hactive.
  pose proof (createIngestionToken_sole sha256hex N _ _ _ _ _ _ _ _ _ _ Hcreate)
    as Hsole.
  apply createIngestionToken_tracks in Hcreate as (_ & _ & _ & _ & _ & Htr & Hon).
  pose proof (runCalls_tracks sha256hex N _ _ _ calls db1 Htr) as Htr2.
  destruct Htr2 as (_ & Hh & Hk).
  destruct Hactive as (t & Hin & Hid & Hact).
  unfold resolveIngestionToken, IngestionTokens.hashIngestionToken.
  destruct (findOne_is_Some
              (λ d, tokenHash d = sha256hex token ∧ status d = active)
              (runCalls sha256hex N calls db1) t) as [d Hd]; [done| |].
  { split; [|done]. by apply Hk. }
  rewrite Hd. apply findOne_Some in Hd as (Hdin & Hdh & Hda).
  eexists. split; [done|]. simpl.
  pose proof (Hh d Hdin Hdh) as Hdi.
  split; [done|]. split; [by apply Hk|]. split.
  - intros Hno.
    by apply (runCalls_onShard sha256hex N _ _ _ _ calls db1 Htr Hno Hon).
  - intros before shard nowAssign after -> Hno.
    apply (onShard_after_reassign sha256hex N (_id rec) (sha256hex token)
             (team rec) before shard nowAssign after db1 Hsole Htr Hno);
      [by exists t|done..].
Qed.

Lemma resolve_round_trip_witness :
  (∃ r rec,
     (createIngestionToken sampleHash 2 "65f0000000000000000000bb" None None "E"
        "65f000000000000000000005" 70%Z [sampleA; sampleB]).2
       = Ok ("hdx_ingest_E", rec) ∧
     resolveIngestionToken sampleHash "hdx_ingest_E"
       (runCalls sampleHash 2
          [CallRevoke "65f0000000000000000000bb" "65f000000000000000000002" 80%Z;
           CallMarkUsed "65f000000000000000000005" 81%Z]
          ([sampleA; sampleB] ++ [rec])%list) = Some r ∧
     r_teamId r = "65f0000000000000000000bb" ∧
     r_assignedShard r = Some "shard-1") ∧
  (∃ r,
     resolveIngestionToken sampleHash "hdx_ingest_E"
       (runCalls sampleHash 2
          [CallAssign "65f0000000000000000000bb" "65f000000000000000000005"
             "shard-0" 82%Z;
           CallAssign "65f0000000000000000000bb" "65f000000000000000000005"
             "shard-7" 83%Z;
           CallMarkUsed "65f000000000000000000005" 84%Z]
          [sampleA; sampleB; sampleE]) = Some r ∧
     r_assignedShard r = Some "shard-7").
Proof.
  split.
  - pose (rec := newDoc sampleHash "65f0000000000000000000bb" None (Some "shard-1")
                   "E" "65f000000000000000000005" 70%Z).
    destruct (resolve_round_trip sampleHash 2 "65f0000000000000000000bb" None None
                "E" "65f000000000000000000005" 70%Z [sampleA; sampleB]
                ([sampleA; sampleB] ++ [rec])%list "hdx_ingest_E" rec
                [CallRevoke "65f0000000000000000000bb" "65f000000000000000000002" 80%Z;
                 CallMarkUsed "65f000000000000000000005" 81%Z])
      as (r & Hr & _ & Htm & Hsh & _).
    + reflexivity.
    + eexists. split.
      * apply list_elem_of_lookup. exists 2. reflexivity.
      * split; reflexivity.
    + exists r, rec. split; [reflexivity|]. split; [exact Hr|].
      split; [exact Htm|]. apply Hsh.
      repeat constructor; simpl; tauto.
  - destruct (resolve_round_trip sampleHash 2 "65f0000000000000000000bb" None None
                "E" "65f000000000000000000005" 70%Z [sampleA; sampleB]
                [sampleA; sampleB; sampleE] "hdx_ingest_E" sampleE
                [CallAssign "65f0000000000000000000bb" "65f000000000000000000005"
                   "shard-0" 82%Z;
                 CallAssign "65f0000000000000000000bb" "65f000000000000000000005"
                   "shard-7" 83%Z;
                 CallMarkUsed "65f000000000000000000005" 84%Z])
      as (r & Hr & _ & _ & _ & Hsh).
    + reflexivity.
    + eexists. split.
      * apply list_elem_of_lookup. exists 2. reflexivity.
      * split; reflexivity.
    + exists r. split; [exact Hr|].
      apply (Hsh [CallAssign "65f0000000000000000000bb"
                    "65f000000000000000000005" "shard-0" 82%Z]
               "shard-7" 83%Z [CallMarkUsed "65f000000000000000000005" 84%Z]).
      * reflexivity.
      * repeat constructor; simpl; tauto.
Defined.

(** *** One tenant per shard *)

Lemma I3_update (P : IIngestionToken → Prop) `{!∀ d, Decision (P d)} upd db :
  keepsRouting upd → I3 db → I3 (Mongo.findOneAndUpdate P upd db).1.
Proof.
  intros Hr HI s t1 t2 H1 H2 Ha1 Ha2 Hs1 Hs2.
  destruct (active_after_update P upd Hr db t1 H1 Ha1)
    as (d1 & Hd1 & Hda1 & Hdt1 & Hds1).
  destruct (active_after_update P upd Hr db t2 H2 Ha2)
    as (d2 & Hd2 & Hda2 & Hdt2 & Hds2).
  rewrite <- Hdt1, <- Hdt2. apply (HI s); congruence.
Qed.

Section Isolation.
Variable sha256hex : string → string.
Variable N : nat.

(** Without an explicit shard, the active tokens already on the chosen
    shard are the team's own. *)
Lemma chooseShard_isolated teamId db s :
  I3 db → chooseShard N teamId None db = (db, Ok (Some s)) →
  ∀ t, t ∈ db → status t = active → assignedShard t = Some s → team t = teamId.
Proof.
  intros HI Hc t Hin Hact Hsh.
  destruct (truthy (Mongo.findOne (λ d, team d = teamId ∧ status d = active) db
                      ≫= assignedShard)) eqn:Et.
  - apply truthy_true in Et as (s0 & Hs0 & Hne).
    destruct (Mongo.findOne (λ d, team d = teamId ∧ status d = active) db)
      as [t0|] eqn:Ef; [|done]. simpl in Hs0.
    rewrite (chooseShard_inherits N teamId db t0 s0 Ef Hs0 Hne) in Hc.
    injection Hc as ->.
    apply findOne_Some in Ef as (Hin0 & Htm0 & Hact0).
    rewrite <- Htm0. by apply (HI s).
  - rewrite chooseShard_allocates in Hc by done. unfold allocated in Hc.
    destruct (findNextAvailableShard N None db) as [s'|] eqn:Ea; [|done].
    injection Hc as ->.
    apply findNextAvailableShard_Some in Ea as (i & -> & _ & Hfree & _).
    destruct Hfree. by exists t.
Qed.

Lemma createIngestionToken_I3 teamId desc raw newId now db :
  I3 db →
  I3 (createIngestionToken sha256hex N teamId desc None raw newId now db).1.
Proof.
  intros HI.
  pose proof (chooseShard_store N teamId None db) as Hst.
  destruct (chooseShard N teamId None db) as [db1 [sh|e]] eqn:Hc;
    simpl in Hst; subst db1.
  - rewrite (createIngestionToken_chosen _ _ _ _ _ _ _ _ _ _ _ Hc).
    pose proof (create_result (newDoc sha256hex teamId desc sh raw newId now) db) as Hr.
    destruct (create _ db) as [db2 [d|e]]; simpl; [|by subst db2].
    destruct Hr as (-> & -> & _).
    intros s t1 t2 Hin1 Hin2 Ha1 Ha2 Hs1 Hs2.
    apply elem_of_app in Hin1 as [Hin1|Hin1];
      apply elem_of_app in Hin2 as [Hin2|Hin2];
      try (apply list_elem_of_singleton in Hin1; subst t1);
      try (apply list_elem_of_singleton in Hin2; subst t2);
      simpl in *.
    + by apply (HI s).
    + subst sh. by apply (chooseShard_isolated teamId db s).
    + subst sh. symmetry. by apply (chooseShard_isolated teamId db s).
    + done.
  - by rewrite (createIngestionToken_throws _ _ _ _ _ _ _ _ _ _ _ Hc).
Qed.

Lemma step_I3 db c : plainCall c → I3 db → I3 (step sha256hex N db c).
Proof.
  intros Hplain HI. destruct c as [tm' d p raw newId now|tm' id' now
    |tm' id' nowR raw newId nowC|tm' id' shard now|id' now]; simpl in *.
  - subst p. by apply createIngestionToken_I3.
  - rewrite revokeIngestionToken_store.
    by apply I3_update; [apply keepsRouting_setRevoked|].
  - rewrite rotateIngestionToken_store, revokeIngestionToken_store.
    apply createIngestionToken_I3.
    by apply I3_update; [apply keepsRouting_setRevoked|].
  - done.
  - by apply I3_update; [apply keepsRouting_setLastUsedAt|].
Qed.

(** X8. One tenant per shard is kept by every sequence of creations,
    revocations, rotations and usage marks in which no shard is imposed by
    hand: if the active tokens of each shard belong to one team before,
    they do after. *)
Theorem one_team_per_shard_preserved (calls : list Call) (db : Tokens) :
  Forall plainCall calls → I3 db → I3 (runCalls sha256hex N calls db).
Proof.
  revert db. induction calls as [|c calls IH]; intros db Hall HI; [done|].
  apply Forall_cons in Hall as [Hc Hall]. simpl.
  apply IH; [done|]. by apply step_I3.
Qed.

(** X9. Along the same sequences every active token keeps a shard (I2)
    and the active tokens of a team keep sharing one shard (I4). *)
Theorem team_shard_invariants_preserved (calls : list Call) (db : Tokens) :
  Forall plainCall calls → I2 db → (∀ tm, I4 db tm) →
  I2 (runCalls sha256hex N calls db) ∧
  ∀ tm, I4 (runCalls sha256hex N calls db) tm.
Proof.
  revert db. induction calls as [|c calls IH]; intros db Hall H2 H4; [done|].
  apply Forall_cons in Hall as [Hc Hall]. simpl.
  destruct (step_I2_I4 sha256hex N db c Hc H2 H4) as [H2' H4']. by apply IH.
Qed.

(** X10. For a team without an active token, a creation that names no
    shard fails with the exhaustion error exactly when every one of
    [shard-0..shard-(N-1)] carries an active token; the collection is
    untouched and POST hands the error to the error middleware. *)
Theorem create_exhausted_iff (teamId : ObjectId) (desc : option string)
    (raw : string) (newId : ObjectId) (now : Date) (db : Tokens) :
  (∀ t, t ∈ db → team t = teamId → status t = revoked) →
  (createIngestionToken sha256hex N teamId desc None raw newId now db
     = (db, Throw exhausted)
   ↔ ∀ i, i < N → occupied db (shardIdOf i)) ∧
  ((∀ i, i < N → occupied db (shardIdOf i)) →
   Router.postToken sha256hex N teamId desc raw newId now db
     = (db, Router.Next exhausted)).
Proof.
  intros Hnone.
  assert (Hc : chooseShard N teamId None db = (db, allocated N db)).
  { apply chooseShard_allocates.
    assert (Mongo.findOne (λ d, team d = teamId ∧ status d = active) db = None)
      as ->; [|done].
    apply findOne_None. intros d Hd [Htm Hact]. by rewrite (Hnone d Hd Htm) in Hact. }
  assert (Hfull : (∀ i, i < N → occupied db (shardIdOf i)) →
            createIngestionToken sha256hex N teamId desc None raw newId now db
              = (db, Throw exhausted)).
  { intros Hocc. apply createIngestionToken_throws. rewrite Hc. unfold allocated.
    destruct (findNextAvailableShard N None db) as [s|] eqn:Ea; [|done].
    apply findNextAvailableShard_Some in Ea as (i & -> & Hi & Hfree & _).
    destruct Hfree. by apply Hocc. }
  split; [split; [|done]|].
  - intros Hthrow. unfold allocated in Hc.
    destruct (findNextAvailableShard N None db) as [s|] eqn:Ea.
    + rewrite (createIngestionToken_chosen _ _ _ _ _ _ _ _ _ _ _ Hc) in Hthrow.
      unfold create in Hthrow.
      destruct (decide (Exists _ db)); discriminate Hthrow.
    + by apply findNextAvailableShard_None.
  - intros Hocc. unfold Router.postToken. by rewrite (Hfull Hocc).
Qed.
End Isolation.

Lemma one_team_per_shard_preserved_witness :
  I3 (runCalls sampleHash 3
        [CallCreate "65f0000000000000000000dd" None None "L"
           "65f00000000000000000000c" 60%Z;
         CallRotate "65f0000000000000000000bb" "65f000000000000000000002" 61%Z
           "M" "65f00000000000000000000d" 62%Z;
         CallCreate "65f0000000000000000000aa" None None "N"
           "65f00000000000000000000e" 63%Z;
         CallMarkUsed "65f000000000000000000006" 64%Z]
        [sampleA; sampleB; sampleC]).
Proof.
  apply (one_team_per_shard_preserved sampleHash 3).
  - repeat constructor.
  - intros s t1 t2 H1 H2. set_unfold.
    destruct H1 as [->|[->|[->|[]]]]; destruct H2 as [->|[->|[->|[]]]];
      simpl; congruence.
Defined.

Lemma team_shard_invariants_preserved_witness :
  I2 (runCalls sampleHash 3
        [CallCreate "65f0000000000000000000bb" None None "L"
           "65f00000000000000000000c" 60%Z;
         CallRevoke "65f0000000000000000000cc" "65f000000000000000000006" 61%Z]
        [sampleA; sampleB; sampleC]) ∧
  I4 (runCalls sampleHash 3
        [CallCreate "65f0000000000000000000bb" None None "L"
           "65f00000000000000000000c" 60%Z;
         CallRevoke "65f0000000000000000000cc" "65f000000000000000000006" 61%Z]
        [sampleA; sampleB; sampleC]) "65f0000000000000000000bb".
Proof.
  destruct (team_shard_invariants_preserved sampleHash 3
              [CallCreate "65f0000000000000000000bb" None None "L"
                 "65f00000000000000000000c" 60%Z;
               CallRevoke "65f0000000000000000000cc" "65f000000000000000000006"
                 61%Z]
              [sampleA; sampleB; sampleC]) as [H2 H4].
  - repeat constructor.
  - intros t H. set_unfold. destruct H as [->|[->|[->|[]]]]; simpl; done.
  - intros tm t1 t2 H1 H2. set_unfold.
    destruct H1 as [->|[->|[->|[]]]]; destruct H2 as [->|[->|[->|[]]]];
      simpl; congruence.
  - split; [exact H2|exact (H4 _)].
Defined.

Lemma create_exhausted_iff_witness :
  Router.postToken sampleHash 2 "65f0000000000000000000aa" None "P"
    "65f00000000000000000000f" 65%Z [sampleA; sampleB; sampleC]
  = ([sampleA; sampleB; sampleC], Router.Next exhausted).
Proof.
  apply (create_exhausted_iff sampleHash 2 "65f0000000000000000000aa" None "P"
           "65f00000000000000000000f" 65%Z [sampleA; sampleB; sampleC]).
  - intros t H. set_unfold. destruct H as [->|[->|[->|[]]]]; simpl; done.
  - intros i Hi.
    destruct i as [|[|i]]; [exists sampleC|exists sampleB|lia];
      (split; [set_solver|split; reflexivity]).
Defined.

(** *** Usage marks, listings and the stored prefix *)

(** Replacing a document by one that matches the filter exactly when the
    old one did leaves the position of the first match alone. *)
Lemma list_find_insert_compat {A} (Q : A → Prop) `{!∀ d, Decision (Q d)}
    (l : list A) (i : nat) (d0 x : A) :
  l !! i = Some d0 → (Q x ↔ Q d0) →
  list_find Q (<[i := x]> l)
  = (λ jd, (jd.1, if decide (jd.1 = i) then x else jd.2)) <$> list_find Q l.
Proof.
  intros Hi HQ. destruct (list_find Q l) as [[j y]|] eqn:E; simpl.
  - apply list_find_Some in E as (Hj & HQy & Hlow).
    apply list_find_Some. split; [|split].
    + destruct (decide (j = i)) as [->|Hne].
      * apply list_lookup_insert_eq. by eapply lookup_lt_Some.
      * by rewrite list_lookup_insert_ne.
    + destruct (decide (j = i)) as [->|Hne]; [|done].
      apply HQ. congruence.
    + intros k z Hk Hkj. destruct (decide (i = k)) as [->|Hne].
      * rewrite list_lookup_insert_eq in Hk by (by eapply lookup_lt_Some).
        injection Hk as <-. rewrite HQ. by eapply Hlow.
      * rewrite list_lookup_insert_ne in Hk by done. by eapply Hlow.
  - apply list_find_None in E. apply list_find_None.
    rewrite Forall_forall in *. intros z Hz.
    apply list_elem_of_lookup in Hz as [k Hk].
    destruct (decide (i = k)) as [->|Hne].
    + rewrite list_lookup_insert_eq in Hk by (by eapply lookup_lt_Some).
      injection Hk as <-. rewrite HQ. apply E. by eapply list_elem_of_lookup_2.
    + rewrite list_lookup_insert_ne in Hk by done.
      apply E. by eapply list_elem_of_lookup_2.
Qed.

Lemma StronglySorted_lookup {A} (R : relation A) (l : list A) :
  StronglySorted R l →
  ∀ i j a b, l !! i = Some a → l !! j = Some b → i < j → R a b.
Proof.
  induction 1 as [|x l Hs IH Hall]; intros i j a b Hi Hj Hij; [done|].
  destruct i as [|i], j as [|j]; try lia; simpl in *.
  - injection Hi as <-. rewrite Forall_forall in Hall.
    apply Hall. by eapply list_elem_of_lookup_2.
  - apply (IH i j); [done..|lia].
Qed.

Global Instance newerFirst_total : Total newerFirst.
Proof. intros a b. unfold newerFirst. lia. Qed.

Global Instance newerFirst_trans : Transitive newerFirst.
Proof. intros a b c. unfold newerFirst. lia. Qed.

Section Views.
Variable sha256hex : string → string.
Variable N : nat.

(** X11. Marking a token as used never throws and never changes what a
    plaintext resolves to: for every token, [resolve] gives the same
    answer after the mark as before. *)
Theorem mark_used_keeps_resolution (tokenId : ObjectId) (now : Date)
    (db : Tokens) (token : string) :
  (markIngestionTokenUsed tokenId now db).2 = Ok () ∧
  resolveIngestionToken sha256hex token (markIngestionTokenUsed tokenId now db).1
  = resolveIngestionToken sha256hex token db.
Proof.
  split; [done|]. unfold markIngestionTokenUsed. simpl.
  pose proof (findOneAndUpdate_result (λ d, _id d = tokenId)
                (setLastUsedAt now) db) as Hr.
  destruct (Mongo.findOneAndUpdate _ _ db) as [db' [u|]]; simpl.
  - destruct Hr as (i & d0 & Hi & _ & _ & ->).
    unfold resolveIngestionToken, Mongo.findOne.
    rewrite (list_find_insert_compat _ db i d0) by done.
    destruct (list_find _ db) as [[j y]|] eqn:E; simpl; [|done].
    destruct (decide (j = i)) as [->|Hne]; [|done].
    apply list_find_Some in E as (Hj & _). rewrite Hi in Hj. by injection Hj as <-.
  - by destruct Hr as [-> _].
Qed.

(** X12. The listing of a team is exactly the team's tokens, revoked
    ones included and each as often as it is stored, and it is ordered by
    creation time, newest first. *)
Theorem list_is_team_view (teamId : ObjectId) (db : Tokens) :
  listIngestionTokens teamId db ≡ₚ filter (λ d, team d = teamId) db ∧
  ∀ i j a b,
    listIngestionTokens teamId db !! i = Some a →
    listIngestionTokens teamId db !! j = Some b → i < j →
    (default 0 (createdAt b) ≤ default 0 (createdAt a))%Z.
Proof.
  unfold listIngestionTokens, Mongo.find. split.
  - apply merge_sort_Permutation.
  - intros i j a b Hi Hj Hij.
    pose proof (Sorted_merge_sort newerFirst
                  (filter (λ d, team d = teamId) db)) as Hs.
    apply Sorted_StronglySorted in Hs; [|apply _].
    by apply (StronglySorted_lookup newerFirst _ Hs i j a b).
Qed.

(** X13. Of the secret body [raw] of a token, the stored prefix shows
    the first character and nothing more: the plaintext is
    [hdx_ingest_] followed by [raw], the record keeps its hash and the
    twelve-character prefix. *)
Theorem stored_prefix_shows_one_character
    (teamId : ObjectId) (desc param : option string) (raw : string)
    (newId : ObjectId) (now : Date) (db0 db1 : Tokens) (token : string)
    (rec : IIngestionToken) :
  createIngestionToken sha256hex N teamId desc param raw newId now db0
    = (db1, Ok (token, rec)) →
  token = "hdx_ingest_" +:+ raw ∧
  tokenHash rec = sha256hex token ∧
  tokenPrefix rec = "hdx_ingest_" +:+ String.substring 0 1 raw.
Proof.
  intros Hcreate.
  pose proof (chooseShard_store N teamId param db0) as Hst.
  destruct (chooseShard N teamId param db0) as [db' [sh|e]] eqn:Hc;
    simpl in Hst; subst db'.
  - rewrite (createIngestionToken_chosen _ _ _ _ _ _ _ _ _ _ _ Hc) in Hcreate.
    pose proof (create_result (newDoc sha256hex teamId desc sh raw newId now) db0)
      as Hr.
    destruct (create _ db0) as [db2 [d|e]]; [|done].
    destruct Hr as (-> & _ & _). injection Hcreate as _ <- <-.
    repeat split.
  - by rewrite (createIngestionToken_throws _ _ _ _ _ _ _ _ _ _ _ Hc) in Hcreate.
Qed.
End Views.

Lemma stored_prefix_shows_one_character_witness :
  tokenPrefix sampleE = "hdx_ingest_E" ∧
  tokenPrefix (newDoc sampleHash "65f0000000000000000000bb" None (Some "shard-1")
                 "Zk3vQ9" "65f000000000000000000010" 71%Z) = "hdx_ingest_Z".
Proof.
  split.
  - rewrite (proj2 (proj2 (stored_prefix_shows_one_character sampleHash 2
               "65f0000000000000000000bb" None None "E"
               "65f000000000000000000005" 70%Z [sampleA; sampleB; sampleC]
               [sampleA; sampleB; sampleC; sampleE] "hdx_ingest_E" sampleE
               eq_refl))).
    reflexivity.
  - rewrite (proj2 (proj2 (stored_prefix_shows_one_character sampleHash 2
               "65f0000000000000000000bb" None None "Zk3vQ9"
               "65f000000000000000000010" 71%Z [sampleA; sampleB; sampleC]
               _ "hdx_ingest_Zk3vQ9"
               (newDoc sampleHash "65f0000000000000000000bb" None (Some "shard-1")
                  "Zk3vQ9" "65f000000000000000000010" 71%Z)
               eq_refl))).
    reflexivity.
Defined.

(** *** The calls of one team and the tokens of another *)

Section OtherTeams.
Variable sha256hex : string → string.
Variable N : nat.

Lemma step_other_team db c i t tm :
  callTeam c = Some tm → tm ≠ team t →
  db !! i = Some t → step sha256hex N db c !! i = Some t.
Proof.
  intros Hc Hne Hi. destruct c as [tm' d p raw newId now|tm' id' now
    |tm' id' nowR raw newId nowC|tm' id' shard now|id' now];
    simpl in *; try injection Hc as ->.
  - by apply later_after_createIngestionToken.
  - rewrite revokeIngestionToken_store.
    destruct (lookup_findOneAndUpdate (λ d, _id d = id' ∧ team d = tm)
                (setRevoked now) db i t Hi) as [H|[[_ Ht] _]]; [done|].
    by destruct Hne.
  - rewrite rotateIngestionToken_store, revokeIngestionToken_store.
    apply later_after_createIngestionToken.
    destruct (lookup_findOneAndUpdate (λ d, _id d = id' ∧ team d = tm)
                (setRevoked nowR) db i t Hi) as [H|[[_ Ht] _]]; [done|].
    by destruct Hne.
  - rewrite assignIngestionTokenShard_store.
    destruct (lookup_findOneAndUpdate
                (λ d, _id d = id' ∧ team d = tm ∧ status d = active)
                (setAssignedShard shard now) db i t Hi) as [H|[(_ & Ht & _) _]];
      [done|].
    by destruct Hne.
  - done.
Qed.

(** X28. The calls one team makes never touch the token of another:
    whatever creations, revocations, rotations and shard reassignments are
    made on behalf of other teams, with whatever token ids, a stored record
    stays exactly as it is. *)
Theorem calls_leave_other_teams_alone (calls : list Call) (db : Tokens)
    (i : nat) (t : IIngestionToken) :
  Forall (λ c, ∃ tm, callTeam c = Some tm ∧ tm ≠ team t) calls →
  db !! i = Some t →
  runCalls sha256hex N calls db !! i = Some t.
Proof.
  revert db. induction calls as [|c calls IH]; intros db Hall Hi; [done|].
  apply Forall_cons in Hall as [(tm & Hc & Hne) Hall]. simpl.
  apply IH; [done|]. by apply (step_other_team db c i t tm).
Qed.
End OtherTeams.

Lemma calls_leave_other_teams_alone_witness :
  runCalls sampleHash 2
    [CallRevoke "65f0000000000000000000aa" "65f000000000000000000002" 90%Z;
     CallAssign "65f0000000000000000000cc" "65f000000000000000000002"
       "shard-0" 91%Z;
     CallRotate "65f0000000000000000000cc" "65f000000000000000000002" 92%Z
       "R" "65f000000000000000000011" 93%Z]
    [sampleA; sampleB; sampleC] !! 1 = Some sampleB.
Proof.
  apply (calls_leave_other_teams_alone sampleHash 2).
  - repeat (constructor; [eexists; split; [reflexivity|done]|]). constructor.
  - reflexivity.
Defined.

(** ** The collector-config synthesizer *)

Import Collector.

Lemma nopConfig_literals : nopConfigNoConnection = nopConfigNoTeam.
Proof. reflexivity. Qed.

Lemma elem_of_distinct_foldl (xs seen : list string) (x : string) :
  x ∈ foldl (λ seen x, if decide (x ∈ seen) then seen else (seen ++ [x])%list) seen xs
  ↔ x ∈ seen ∨ x ∈ xs.
Proof.
  revert seen. induction xs as [|y xs IH]; intros seen; simpl.
  - rewrite elem_of_nil. tauto.
  - rewrite IH, elem_of_cons. destruct (decide (y ∈ seen)) as [Hy|Hy].
    + split; [tauto|]. intros [?|[->|?]]; tauto.
    + rewrite elem_of_app, list_elem_of_singleton. tauto.
Qed.

Lemma elem_of_distinct xs x : x ∈ distinct xs ↔ x ∈ xs.
Proof.
  unfold distinct. rewrite elem_of_distinct_foldl, elem_of_nil. tauto.
Qed.

(** The candidates are the teams with an active token on the shard. *)
Lemma elem_of_teamIdsOf shardId db tm :
  tm ∈ teamIdsOf shardId db ↔
  ∃ t, t ∈ db ∧ status t = active ∧ assignedShard t = Some shardId ∧ team t = tm.
Proof.
  unfold teamIdsOf. rewrite merge_sort_Permutation, elem_of_distinct, list_elem_of_fmap.
  split.
  - intros (t & -> & Ht). apply elem_of_find in Ht as [[Ha Hs] Hin]. by exists t.
  - intros (t & Hin & Ha & Hs & <-). exists t. split; [done|].
    apply elem_of_find. by split.
Qed.

Lemma selectedTeam_Some shardId db tm :
  selectedTeam shardId db = Some tm →
  ∃ t, t ∈ db ∧ status t = active ∧ assignedShard t = Some shardId ∧ team t = tm.
Proof.
  intros Hs. apply elem_of_teamIdsOf. by eapply list_elem_of_lookup_2.
Qed.

Lemma selectedTeam_free shardId db :
  ¬ Sharding.occupied db shardId → selectedTeam shardId db = None.
Proof.
  intros Hfree. destruct (selectedTeam shardId db) as [tm|] eqn:E; [|done].
  apply selectedTeam_Some in E as (t & Hin & Ha & Hs & _).
  destruct Hfree. by exists t.
Qed.

(** The selected team is the least of the candidates in the order of
    [.sort()]. *)
Lemma selectedTeam_least shardId db tm tm' :
  selectedTeam shardId db = Some tm →
  tm' ∈ teamIdsOf shardId db → String.le tm tm'.
Proof.
  unfold selectedTeam, teamIdsOf. intros Hhd Hin.
  pose proof (StronglySorted_merge_sort String.le
    (distinct (team <$> Mongo.find
       (λ t, status t = active ∧ assignedShard t = Some shardId) db))) as Hsorted.
  destruct (merge_sort String.le _) as [|x rest]; [done|].
  injection Hhd as ->. apply StronglySorted_inv in Hsorted as [_ Hall].
  apply elem_of_cons in Hin as [->|Hin]; [done|].
  rewrite Forall_forall in Hall. by apply Hall.
Qed.

(** When it is not the tenant literal, the result is the nop literal. *)
Lemma buildShardCollectorConfig_nop shardId db conns :
  (¬ Sharding.occupied db shardId) ∨
  (∀ tm, selectedTeam shardId db = Some tm → ¬ hasManagedPassword conns tm) →
  buildShardCollectorConfig shardId db conns = nopConfigNoTeam.
Proof.
  intros Hcase. unfold buildShardCollectorConfig.
  destruct (selectedTeam shardId db) as [tm|] eqn:E; simpl; [|done].
  destruct Hcase as [Hfree|Hconn].
  { by rewrite (selectedTeam_free _ _ Hfree) in E. }
  destruct (bool_decide (tm ≠ "")); simpl; [|done].
  destruct (Mongo.findOne _ conns) as [c|] eqn:Ec; simpl; [|done].
  destruct (truthy (Connection.password c)) eqn:Ep; simpl; [|done].
  apply findOne_Some in Ec as (Hin & Htm & Hm).
  destruct (Hconn tm eq_refl). by exists c.
Qed.

(** C8. When no team has an active token on the shard, or the selected
    team has no managed connection with a readable password, the
    synthesized configuration has no [clickhouse] exporter, none of its
    pipelines exports to one, and it has a pipeline for each of logs,
    traces and metrics. *)
Theorem nop_safety (shardId : string) (db : Tokens) (conns : Connections) :
  (¬ Sharding.occupied db shardId) ∨
  (∀ tm, selectedTeam shardId db = Some tm → ¬ hasManagedPassword conns tm) →
  let cfg := buildShardCollectorConfig shardId db conns in
  ("clickhouse" ∉ fst <$> exporters cfg) ∧
  (∀ k p, (k, p) ∈ pipelines (service cfg) → "clickhouse" ∉ p_exporters p) ∧
  (∀ signal, signal ∈ ["logs"; "traces"; "metrics"] →
     ∃ k p, (k, p) ∈ pipelines (service cfg) ∧ signalOf k = signal).
Proof.
  intros Hcase cfg. unfold cfg. rewrite (buildShardCollectorConfig_nop _ _ _ Hcase).
  split; [|split].
  - compute_done.
  - intros k p Hin. simpl in Hin.
    repeat (apply elem_of_cons in Hin as [[= -> ->]|Hin]; [compute_done|]).
    by apply elem_of_nil in Hin.
  - intros signal Hs.
    apply elem_of_cons in Hs as [->|Hs];
      [|apply elem_of_cons in Hs as [->|Hs];
        [|apply elem_of_cons in Hs as [->|Hs]; [|by apply elem_of_nil in Hs]]].
    + eexists _, _. split; [apply list_elem_of_lookup; by exists 0|done].
    + eexists _, _. split; [apply list_elem_of_lookup; by exists 1|done].
    + eexists _, _. split; [apply list_elem_of_lookup; by exists 2|done].
Qed.

Lemma nop_safety_witness :
  selectedTeam "shard-1" [sampleA; sampleB] = Some "65f0000000000000000000bb" ∧
  buildShardCollectorConfig "shard-1" [sampleA; sampleB] [unmanagedConnection]
    = nopConfigNoConnection ∧
  "clickhouse" ∉ fst <$> exporters (buildShardCollectorConfig "shard-1"
                               [sampleA; sampleB] [unmanagedConnection]).
Proof.
  split; [reflexivity|]. split; [reflexivity|].
  apply (nop_safety "shard-1" [sampleA; sampleB] [unmanagedConnection]).
  right. intros tm _ (c & Hc & _ & Hm & _).
  apply list_elem_of_singleton in Hc. subst c. discriminate Hm.
Defined.

(** *** Which tenant a shard is routed to *)

Lemma selectedTeam_sole shardId db tm :
  Sharding.occupied db shardId →
  (∀ t, t ∈ db → status t = active → assignedShard t = Some shardId → team t = tm) →
  selectedTeam shardId db = Some tm.
Proof.
  intros (t & Hin & Ha & Hs) Hsole.
  assert (Hmem : team t ∈ teamIdsOf shardId db).
  { apply elem_of_teamIdsOf. by exists t. }
  unfold selectedTeam. destruct (teamIdsOf shardId db) as [|x rest] eqn:E.
  - by apply elem_of_nil in Hmem.
  - simpl. f_equal.
    assert (Hx : x ∈ teamIdsOf shardId db) by (rewrite E; apply list_elem_of_here).
    apply elem_of_teamIdsOf in Hx as (t' & Hin' & Ha' & Hs' & <-). by apply Hsole.
Qed.

(** X14. Whatever the collections hold, a ClickHouse exporter in the
    synthesized configuration is the one of a team that has an active
    token on that shard, the least such team id: its database and user are
    [tenant_<team>] and its password is the non-empty password of a
    managed connection of that team. *)
Theorem exporter_belongs_to_team_of_shard (shardId : string) (db : Tokens)
    (conns : Connections) (k : string) (c : Clickhouse) :
  (k, ExporterClickhouse c)
    ∈ exporters (buildShardCollectorConfig shardId db conns) →
  ∃ tm conn,
    (∃ t, t ∈ db ∧ status t = active ∧ assignedShard t = Some shardId ∧
          team t = tm) ∧
    (∀ t, t ∈ db → status t = active → assignedShard t = Some shardId →
          String.le tm (team t)) ∧
    conn ∈ conns ∧ Connection.team conn = tm ∧
    Connection.isManaged conn = true ∧
    Connection.password conn = Some (password c) ∧ password c ≠ "" ∧
    database c = "tenant_" +:+ tm ∧ username c = "tenant_" +:+ tm.
Proof.
  assert (Hnop : (k, ExporterClickhouse c) ∉ exporters nopConfigNoTeam).
  { intros Hin. apply list_elem_of_singleton in Hin. discriminate Hin. }
  unfold buildShardCollectorConfig.
  destruct (selectedTeam shardId db) as [tm|] eqn:E; simpl; [|done].
  destruct (bool_decide (tm ≠ "")); simpl; [|done].
  destruct (Mongo.findOne _ conns) as [conn|] eqn:Ec; simpl; [|done].
  destruct (truthy (Connection.password conn)) eqn:Ep; simpl; [|done].
  intros Hin. apply truthy_true in Ep as (pw & Hpw & Hne).
  assert (c = {| endpoint := "${env:CLICKHOUSE_ENDPOINT}";
                 database := "tenant_" +:+ tm; username := "tenant_" +:+ tm;
                 password := default "" (Connection.password conn);
                 ttl := "720h"; timeout := "5s";
                 retry_on_failure :=
                   {| enabled := true; initial_interval := "5s";
                      max_interval := "30s"; max_elapsed_time := "300s" |} |})
    as ->.
  { apply elem_of_cons in Hin as [Hin|Hin]; [discriminate Hin|].
    apply list_elem_of_singleton in Hin. by injection Hin as _ ->. }
  simpl. rewrite Hpw. simpl.
  apply findOne_Some in Ec as (Hcin & Hct & Hcm).
  exists tm, conn. split; [by apply selectedTeam_Some|].
  split; [|done].
  intros t Hin' Ha Hs. apply (selectedTeam_least shardId db); [done|].
  apply elem_of_teamIdsOf. by exists t.
Qed.

(** [findOne] returns the first managed connection of the team. *)
Lemma findOne_firstManaged conns tm conn :
  firstManaged conns tm conn →
  Mongo.findOne (λ c, Connection.team c = tm ∧ Connection.isManaged c = true)
    conns = Some conn.
Proof.
  intros (i & Hi & Ht & Hm & Hlow). unfold Mongo.findOne.
  assert (list_find
            (λ c, Connection.team c = tm ∧ Connection.isManaged c = true) conns
          = Some (i, conn)) as ->; [|done].
  apply list_find_Some. split; [done|]. split; [done|].
  intros j c Hj Hlt. by apply (Hlow j c).
Qed.

(** The configuration of a shard that one team has to itself. *)
Lemma buildShardCollectorConfig_sole shardId db conns tm conn pw :
  tm ≠ "" → pw ≠ "" →
  Sharding.occupied db shardId →
  (∀ t, t ∈ db → status t = active → assignedShard t = Some shardId →
        team t = tm) →
  firstManaged conns tm conn →
  Connection.password conn = Some pw →
  buildShardCollectorConfig shardId db conns
  = tenantConfig ("tenant_" +:+ tm) ("tenant_" +:+ tm) pw.
Proof.
  intros Htm Hpw Hocc Hsole Hfirst Hpass.
  unfold buildShardCollectorConfig.
  rewrite (selectedTeam_sole shardId db tm Hocc Hsole). simpl.
  rewrite bool_decide_eq_true_2 by done. simpl.
  rewrite (findOne_firstManaged conns tm conn Hfirst). simpl.
  rewrite Hpass. simpl.
  by rewrite bool_decide_eq_true_2.
Qed.

(** X15. A shard whose active tokens all belong to one team is routed
    to that team when the first managed connection stored for the team,
    the one [findOne] returns, has a non-empty password: the configuration
    is the tenant one, with database and user [tenant_<team>] and that
    password, and every pipeline exports to ClickHouse only. *)
Theorem sole_team_is_routed (shardId : string) (db : Tokens)
    (conns : Connections) (tm : string) (conn : Connection.IConnection)
    (pw : string) :
  tm ≠ "" → pw ≠ "" →
  Sharding.occupied db shardId →
  (∀ t, t ∈ db → status t = active → assignedShard t = Some shardId →
        team t = tm) →
  firstManaged conns tm conn →
  Connection.password conn = Some pw →
  let cfg := buildShardCollectorConfig shardId db conns in
  cfg = tenantConfig ("tenant_" +:+ tm) ("tenant_" +:+ tm) pw ∧
  (∀ key p, (key, p) ∈ pipelines (service cfg) → p_exporters p = ["clickhouse"]) ∧
  (∀ signal, signal ∈ ["logs"; "traces"; "metrics"] →
     ∃ p, (signal, p) ∈ pipelines (service cfg)).
Proof.
  intros Htm Hpw Hocc Hsole Hconn Hpass cfg.
  assert (Hcfg : cfg = tenantConfig ("tenant_" +:+ tm) ("tenant_" +:+ tm) pw)
    by (by apply (buildShardCollectorConfig_sole shardId db conns tm conn pw)).
  rewrite Hcfg. split; [done|]. split.
  - intros key p Hin. simpl in Hin.
    repeat (apply elem_of_cons in Hin as [[= _ ->]|Hin]; [done|]).
    by apply elem_of_nil in Hin.
  - intros signal Hs. exists tenantPipeline. simpl.
    repeat (apply elem_of_cons in Hs as [->|Hs]; [repeat constructor|]).
    by apply elem_of_nil in Hs.
Qed.

Lemma exporter_belongs_to_team_of_shard_witness :
  ∃ tm conn,
    (∃ t, t ∈ [sampleA; sampleB; sampleC] ∧ status t = active ∧
          assignedShard t = Some "shard-1" ∧ team t = tm) ∧
    conn ∈ [unmanagedConnection; managedConnectionB] ∧
    Connection.password conn = Some "5ca1ab1e" ∧
    "tenant_65f0000000000000000000bb" = "tenant_" +:+ tm.
Proof.
  destruct (exporter_belongs_to_team_of_shard "shard-1"
              [sampleA; sampleB; sampleC]
              [unmanagedConnection; managedConnectionB] "clickhouse"
              {| endpoint := "${env:CLICKHOUSE_ENDPOINT}";
                 database := "tenant_65f0000000000000000000bb";
                 username := "tenant_65f0000000000000000000bb";
                 password := "5ca1ab1e"; ttl := "720h"; timeout := "5s";
                 retry_on_failure :=
                   {| enabled := true; initial_interval := "5s";
                      max_interval := "30s"; max_elapsed_time := "300s" |} |})
    as (tm & conn & Ht & _ & Hc & _ & _ & Hp & _ & Hd & _).
  - apply list_elem_of_lookup. exists 1. reflexivity.
  - exists tm, conn. split; [exact Ht|]. split; [exact Hc|].
    split; [exact Hp|exact Hd].
Defined.

Lemma sole_team_is_routed_witness :
  buildShardCollectorConfig "shard-1" [sampleA; sampleB; sampleC; sampleE]
    [unmanagedConnection; managedConnectionB; managedWithoutPassword]
  = tenantConfig "tenant_65f0000000000000000000bb"
      "tenant_65f0000000000000000000bb" "5ca1ab1e".
Proof.
  apply (sole_team_is_routed "shard-1" [sampleA; sampleB; sampleC; sampleE]
           [unmanagedConnection; managedConnectionB; managedWithoutPassword]
           "65f0000000000000000000bb" managedConnectionB "5ca1ab1e").
  - done.
  - done.
  - exists sampleB. split; [repeat constructor|split; reflexivity].
  - intros t H. set_unfold.
    destruct H as [->|[->|[->|[->|[]]]]]; simpl; congruence.
  - exists 1. split; [reflexivity|]. split; [reflexivity|]. split; [reflexivity|].
    intros j c Hj Hlt. assert (j = 0) as -> by lia.
    injection Hj as <-. by intros [_ Hm].
  - reflexivity.
Defined.

(** *** From a creation to the routing of the shard *)

Section CreatedThenRouted.
Variable sha256hex : string → string.
Variable N : nat.

(** X27. When the shards hold one team each, a token created without
    naming a shard makes its shard the team's: when the first managed
    connection stored for the team, the one [findOne] returns, has a
    non-empty password, the configuration synthesized for the shard of the
    new token is the tenant configuration of that team. *)
Theorem created_token_routes_its_team
    (teamId : ObjectId) (desc : option string) (raw : string)
    (newId : ObjectId) (now : Date) (db0 db1 : Tokens) (token : string)
    (rec : IIngestionToken) (conns : Connections)
    (conn : Connection.IConnection) (pw : string) :
  I3 db0 →
  createIngestionToken sha256hex N teamId desc None raw newId now db0
    = (db1, Ok (token, rec)) →
  teamId ≠ "" → pw ≠ "" →
  firstManaged conns teamId conn →
  Connection.password conn = Some pw →
  ∃ shard,
    assignedShard rec = Some shard ∧
    buildShardCollectorConfig shard db1 conns
    = tenantConfig ("tenant_" +:+ teamId) ("tenant_" +:+ teamId) pw.
Proof.
  intros HI Hcreate Htm Hpw Hconn Hpass.
  pose proof (createIngestionToken_I3 sha256hex N teamId desc raw newId now db0 HI)
    as HI1.
  rewrite Hcreate in HI1. simpl in HI1.
  assert (Hsh : ∃ shard, assignedShard rec = Some shard).
  { pose proof (chooseShard_store N teamId None db0) as Hst.
    destruct (chooseShard N teamId None db0) as [db' [sh|e]] eqn:Hc;
      simpl in Hst; subst db'.
    - rewrite (createIngestionToken_chosen _ _ _ _ _ _ _ _ _ _ _ Hc) in Hcreate.
      pose proof (create_result (newDoc sha256hex teamId desc sh raw newId now) db0)
        as Hr.
      destruct (create _ db0) as [db2 [d|e]]; [|done].
      destruct Hr as (-> & _ & _). injection Hcreate as _ _ <-. simpl.
      unfold chooseShard, bind, query, ret, throw in Hc. simpl in Hc.
      destruct (truthy (_ ≫= assignedShard)) eqn:Et.
      + injection Hc as <-. apply truthy_true in Et as (s & -> & _). by exists s.
      + destruct (findNextAvailableShard N None db0) as [s|]; simpl in Hc.
        * destruct (negb _); [done|]. injection Hc as <-. by exists s.
        * done.
    - by rewrite (createIngestionToken_throws _ _ _ _ _ _ _ _ _ _ _ Hc) in Hcreate. }
  destruct Hsh as [shard Hshard]. exists shard. split; [done|].
  apply createIngestionToken_tracks in Hcreate
    as (_ & _ & Hteam & Hact & Hdb1 & _ & _).
  assert (Hrec : rec ∈ db1).
  { rewrite Hdb1. apply elem_of_app. right. apply list_elem_of_here. }
  apply (buildShardCollectorConfig_sole shard db1 conns teamId conn pw);
    [done|done| | |done|done].
  - by exists rec.
  - intros t Hin Ha Hs. rewrite <- Hteam. by apply (HI1 shard).
Qed.
End CreatedThenRouted.

Lemma created_token_routes_its_team_witness :
  buildShardCollectorConfig "shard-1" [sampleA; sampleB; sampleC; sampleE]
    [unmanagedConnection; managedConnectionB; managedWithoutPassword]
  = tenantConfig "tenant_65f0000000000000000000bb"
      "tenant_65f0000000000000000000bb" "5ca1ab1e".
Proof.
  destruct (created_token_routes_its_team sampleHash 2
              "65f0000000000000000000bb" None "E" "65f000000000000000000005"
              70%Z [sampleA; sampleB; sampleC]
              [sampleA; sampleB; sampleC; sampleE] "hdx_ingest_E" sampleE
              [unmanagedConnection; managedConnectionB; managedWithoutPassword]
              managedConnectionB "5ca1ab1e")
    as (shard & Hshard & Hcfg).
  - intros s t1 t2 H1 H2.
    repeat (apply elem_of_cons in H1 as [->|H1]);
      [..|by apply elem_of_nil in H1];
      (repeat (apply elem_of_cons in H2 as [->|H2]);
       [..|by apply elem_of_nil in H2]); simpl; congruence.
  - reflexivity.
  - done.
  - done.
  - exists 1. split; [reflexivity|]. split; [reflexivity|]. split; [reflexivity|].
    intros j c Hj Hlt. assert (j = 0) as -> by lia.
    injection Hj as <-. by intros [_ Hm].
  - reflexivity.
  - injection Hshard as <-. exact Hcfg.
Defined.

(** ** The OpAMP endpoint *)

Import Opamp AgentService OpampController.

Lemma getStringAttr_lacking attrs k :
  (∀ l, attrs = Some l → ∀ a, a ∈ l → key a ≠ k) →
  getStringAttr attrs k = None.
Proof.
  intros Hlack. unfold getStringAttr. destruct attrs as [l|]; simpl; [|done].
  destruct (list_find (λ a, key a = k) l) as [[i a]|] eqn:E; simpl; [|done].
  apply list_find_Some in E as (Hi & Hk & _).
  destruct (Hlack l eq_refl a); [by eapply list_elem_of_lookup_2|done].
Qed.

Section Endpoint.
Context {RemoteConfig : Type}.
Variable decodeAgentToServer : list byte → result AgentToServer.
Variable serverCapabilities : N.
Variable createRemoteConfig : list (string * list byte) → string → RemoteConfig.
Variable encodeServerToAgent :
  list byte → N → option RemoteConfig → list byte.
Variable stringify : Collector.CollectorConfig → list byte.

Abbreviation handle_ :=
  (handleOpampMessage decodeAgentToServer serverCapabilities
     createRemoteConfig encodeServerToAgent stringify).

(** C3, as amended. A request of an agent that accepts remote config
    but whose identifying attributes have no [hdx.shard_id] key is answered
    500; the two collections are untouched, and the agent registry is the
    one the heartbeat has just been merged into, so it holds the agent's
    entry whether or not it did before. *)
Theorem misconfigured_agent_500 (req : Request) (now : Date)
    (st : ServerState) (msg : AgentToServer) :
  contentType req = protobuf →
  decodeAgentToServer (body req) = Ok msg →
  let agent := (processAgentStatus msg now (agents st)).2 in
  agentAcceptsRemoteConfig agent = true →
  lacksShardId agent →
  let st' := (handle_ req now st).1 in
  (handle_ req now st).2 = internalServerError ∧
  tokens st' = tokens st ∧ connections st' = connections st ∧
  agents st' = (processAgentStatus msg now (agents st)).1 ∧
  agents st' !! Hex.toHex (a2s_instanceUid msg) = Some agent.
Proof.
  intros Hct Hdec agent Hacc Hlack.
  unfold handleOpampMessage. rewrite Hct.
  destruct (decide (protobuf ≠ Some "application/x-protobuf")) as [Hne|_];
    [by destruct Hne|].
  rewrite Hdec. unfold agent in *. clear agent.
  destruct (processAgentStatus msg now (agents st)) as [registry agent] eqn:Ep.
  simpl in *. rewrite Hacc.
  rewrite getStringAttr_lacking by exact Hlack. simpl.
  repeat split.
  unfold processAgentStatus in Ep. injection Ep as <- <-.
  apply lookup_insert_eq.
Qed.

(** C4, as amended. Any content type other than
    [application/x-protobuf] is answered 415 and an undecodable protobuf
    body 500, both without touching the state; whatever the request, the
    status is one of 415, 500 and 200. *)
Theorem opamp_status_codes (req : Request) (now : Date) (st : ServerState) :
  (contentType req ≠ protobuf →
     handle_ req now st = (st, unsupportedMediaType)) ∧
  (contentType req = protobuf →
     (∃ e, decodeAgentToServer (body req) = Throw e) →
     handle_ req now st = (st, internalServerError)) ∧
  status (handle_ req now st).2 ∈ [415; 500; 200].
Proof.
  unfold handleOpampMessage, protobuf. split; [|split].
  - intros Hct. by destruct (decide (contentType req ≠ _)).
  - intros Hct [e He]. rewrite He.
    destruct (decide (contentType req ≠ _)) as [Hne|_]; [by destruct Hne|done].
  - destruct (decide (contentType req ≠ _)); [set_solver|].
    destruct (decodeAgentToServer (body req)); [|set_solver].
    destruct (processAgentStatus _ now (agents st)) as [registry agent].
    destruct (agentAcceptsRemoteConfig agent); [|set_solver].
    destruct (negb (truthy _)); set_solver.
Qed.
End Endpoint.

Lemma misconfigured_agent_500_witness :
  agents sampleState !! "2a" = None ∧
  status (sampleHandle heartbeatRequest 5%Z sampleState).2 = 500 ∧
  is_Some (agents (sampleHandle heartbeatRequest 5%Z sampleState).1 !! "2a").
Proof.
  split; [reflexivity|].
  destruct (misconfigured_agent_500 (RemoteConfig := list byte)
              sampleDecode 0%N (λ files _, default [] (snd <$> head files))
              (λ uid _ cfg, (uid ++ default [] cfg)%list) (λ _, [])
              heartbeatRequest 5%Z sampleState
              {| a2s_instanceUid := [x2a]; a2s_agentDescription := None;
                 a2s_capabilities := Some 2%N; a2s_lastRemoteConfigHash := None |})
    as (Hresp & _ & _ & _ & Hagent).
  - reflexivity.
  - reflexivity.
  - reflexivity.
  - intros attrs Hattrs. discriminate Hattrs.
  - split.
    + unfold sampleHandle. rewrite Hresp. reflexivity.
    + unfold sampleHandle. eexists. exact Hagent.
Defined.

(** C3, as stated, fails: the first heartbeat of a misconfigured agent is
    answered 500 and yet the registry, empty before, holds the agent
    afterwards. *)
Lemma misconfigured_agent_changes_registry :
  ¬ misconfiguredAgentLeavesState (RemoteConfig := list byte)
      sampleDecode 0%N (λ files _, default [] (snd <$> head files))
      (λ uid _ cfg, (uid ++ default [] cfg)%list) (λ _, []).
Proof.
  intros Hclaim.
  destruct (Hclaim heartbeatRequest 5%Z sampleState
              {| a2s_instanceUid := [x2a]; a2s_agentDescription := None;
                 a2s_capabilities := Some 2%N; a2s_lastRemoteConfigHash := None |})
    as [_ Hsame].
  - reflexivity.
  - reflexivity.
  - reflexivity.
  - intros attrs Hattrs. discriminate Hattrs.
  - apply (f_equal (λ s, agents s !! "2a")) in Hsame.
    vm_compute in Hsame. discriminate Hsame.
Qed.

Lemma opamp_status_codes_witness :
  sampleHandle jsonRequest 5%Z sampleState = (sampleState, unsupportedMediaType) ∧
  sampleHandle truncatedRequest 5%Z sampleState = (sampleState, internalServerError).
Proof.
  split.
  - apply (opamp_status_codes (RemoteConfig := list byte)
             sampleDecode 0%N (λ files _, default [] (snd <$> head files))
             (λ uid _ cfg, (uid ++ default [] cfg)%list) (λ _, [])
             jsonRequest 5%Z sampleState).
    discriminate.
  - apply (opamp_status_codes (RemoteConfig := list byte)
             sampleDecode 0%N (λ files _, default [] (snd <$> head files))
             (λ uid _ cfg, (uid ++ default [] cfg)%list) (λ _, [])
             truncatedRequest 5%Z sampleState).
    + reflexivity.
    + eexists. reflexivity.
Defined.

(** C4, as stated, fails: a protobuf body that does not decode is
    answered 500, not 400. *)
Lemma undecodable_body_is_not_400 :
  ¬ undecodableIs400 (RemoteConfig := list byte)
      sampleDecode 0%N (λ files _, default [] (snd <$> head files))
      (λ uid _ cfg, (uid ++ default [] cfg)%list) (λ _, []).
Proof.
  intros Hclaim.
  destruct (Hclaim truncatedRequest 5%Z sampleState) as [H400 _].
  assert (status (sampleHandle truncatedRequest 5%Z sampleState).2 = 400) as Hbad.
  { apply H400; [reflexivity|]. eexists. reflexivity. }
  vm_compute in Hbad. discriminate Hbad.
Qed.

(** *** Attribute lookup and what the endpoint leaves alone *)

(** X16. [getStringAttr] reads the first attribute that carries the
    key: later attributes with the same key are ignored, and when that
    first attribute has no string value the result is [null] even if a
    later one has. *)
Theorem getStringAttr_first_match (pre post : list KeyValue) (a : KeyValue)
    (k : string) :
  key a = k → (∀ b, b ∈ pre → key b ≠ k) →
  getStringAttr (Some (pre ++ a :: post)%list) k = value a ≫= stringValue.
Proof.
  intros Hk Hpre. unfold getStringAttr. simpl.
  assert (list_find (λ b, key b = k) (pre ++ a :: post)%list = Some (length pre, a))
    as ->; [|done].
  apply list_find_Some. split; [|split; [done|]].
  - by rewrite list_lookup_middle.
  - intros j y Hj Hlt. rewrite lookup_app_l in Hj by done.
    apply Hpre. by eapply list_elem_of_lookup_2.
Qed.

Section EndpointFrame.
Context {RemoteConfig : Type}.
Variable decodeAgentToServer : list byte → result AgentToServer.
Variable serverCapabilities : N.
Variable createRemoteConfig : list (string * list byte) → string → RemoteConfig.
Variable encodeServerToAgent :
  list byte → N → option RemoteConfig → list byte.
Variable stringify : Collector.CollectorConfig → list byte.

(** X17. The endpoint only reads the two collections: whatever the
    request and whatever the answer, the tokens and the connections are
    the same after it as before. *)
Theorem endpoint_never_writes_collections (req : Request) (now : Date)
    (st : ServerState) :
  let st' :=
    (handleOpampMessage decodeAgentToServer serverCapabilities
       createRemoteConfig encodeServerToAgent stringify req now st).1 in
  tokens st' = tokens st ∧ connections st' = connections st.
Proof.
  unfold handleOpampMessage.
  destruct (decide (contentType req ≠ _)); [done|].
  destruct (decodeAgentToServer (body req)); [|done].
  destruct (processAgentStatus _ now (agents st)) as [registry agent].
  destruct (agentAcceptsRemoteConfig agent); [|done].
  by destruct (negb (truthy _)).
Qed.
End EndpointFrame.

Lemma getStringAttr_first_match_witness :
  getStringAttr
    (Some [{| key := "service.name"; value := Some {| stringValue := Some "otelcol" |} |};
           {| key := "hdx.shard_id"; value := Some {| stringValue := None |} |};
           {| key := "hdx.shard_id"; value := Some {| stringValue := Some "shard-1" |} |}])
    "hdx.shard_id" = None.
Proof.
  apply (getStringAttr_first_match
           [{| key := "service.name";
               value := Some {| stringValue := Some "otelcol" |} |}]
           [{| key := "hdx.shard_id";
               value := Some {| stringValue := Some "shard-1" |} |}]
           {| key := "hdx.shard_id"; value := Some {| stringValue := None |} |}
           "hdx.shard_id").
  - reflexivity.
  - intros b Hb. apply list_elem_of_singleton in Hb. by subst b.
Defined.

(** ** The tenant storage provisioner *)

Import Provisioning.

Lemma append_cons (x : ascii) (a b : string) :
  String x a +:+ b = String x (a +:+ b).
Proof. reflexivity. Qed.

Lemma append_nil (b : string) : "" +:+ b = b.
Proof. reflexivity. Qed.

Lemma append_assoc (a b c : string) : (a +:+ b) +:+ c = a +:+ b +:+ c.
Proof.
  induction a as [|x a IH]; [done|]. by rewrite !append_cons, IH.
Qed.

Lemma prefix_append (n post : string) : String.prefix n (n +:+ post) = true.
Proof.
  induction n as [|x n IH].
  - rewrite append_nil. by destruct post.
  - rewrite append_cons. simpl. destruct (ascii_dec x x); [exact IH|done].
Qed.

Lemma contains_prefix (n hay : string) :
  String.prefix n hay = true → contains n hay = true.
Proof.
  intros Hp.
  assert (contains n hay = String.prefix n hay ||
            match hay with
            | EmptyString => false
            | String _ rest => contains n rest
            end) as -> by (by destruct hay).
  by rewrite Hp.
Qed.

Lemma contains_append (pre n post : string) :
  contains n (pre +:+ n +:+ post) = true.
Proof.
  induction pre as [|x pre IH].
  - rewrite append_nil. apply contains_prefix, prefix_append.
  - rewrite append_cons. simpl. rewrite IH. apply orb_true_r.
Qed.

Lemma createsTable_statement (q table rest : string) :
  createsTable q table
    ("
CREATE TABLE IF NOT EXISTS " +:+ q +:+ ("." +:+ table) +:+ rest).
Proof.
  unfold createsTable.
  pose proof (contains_append "
" ("CREATE TABLE IF NOT EXISTS " +:+ q +:+ "." +:+ table) rest) as H.
  rewrite !append_assoc in H. rewrite !append_assoc. exact H.
Qed.

Section ProvisionerFacts.
Variable host : string.
Variable respond : string → FetchOutcome.
Hypothesis Hhost : truthy (Some host) = true.
Hypothesis Haccepts : ∀ sql, respond sql = ResOk.

Lemma clickhouseAdminQuery_accepted sql executed :
  clickhouseAdminQuery (Some host) respond sql executed
  = ((executed ++ [sql])%list, Ok ()).
Proof. unfold clickhouseAdminQuery. by rewrite Hhost, Haccepts. Qed.
End ProvisionerFacts.

(** C2, as stated, fails: no statement the provisioner executes creates
    [otel_metrics_gauge]. *)
Lemma provisioner_skips_metric_tables : ¬ provisionsCanonicalTables.
Proof.
  intros Hclaim.
  destruct (Hclaim "http://clickhouse:8123" "65f0000000000000000000aa" []
              "otel_metrics_gauge") as (stmt & Hin & Hcreates).
  - reflexivity.
  - unfold canonicalTables. set_solver.
  - unfold createsTable in Hcreates.
    vm_compute in Hin.
    repeat (apply elem_of_cons in Hin as [->|Hin];
            [vm_compute in Hcreates; discriminate Hcreates|]).
    by apply elem_of_nil in Hin.
Qed.

(** *** Refusals, missing configuration and quoting *)

Lemma statementsOf_eq (teamId : string) (randomBytes : list byte) :
  let q := quoteIdent (getTenantDbName teamId) in
  statementsOf teamId randomBytes
  = ["CREATE DATABASE IF NOT EXISTS " +:+ q;
     "CREATE USER IF NOT EXISTS " +:+ q +:+
       " IDENTIFIED WITH plaintext_password BY " +:+
       quoteStr (Hex.toHex randomBytes);
     "GRANT SELECT, INSERT, ALTER, CREATE, DROP, TRUNCATE ON " +:+ q +:+
       ".* TO " +:+ q;
     "
CREATE TABLE IF NOT EXISTS " +:+ q +:+ otel_logs_schema;
     "
CREATE TABLE IF NOT EXISTS " +:+ q +:+ otel_traces_schema;
     "
CREATE TABLE IF NOT EXISTS " +:+ q +:+ hyperdx_sessions_schema].
Proof.
  intros q. unfold statementsOf, provisionTenantClickhouse, bind. cbn [negb].
  by rewrite !(clickhouseAdminQuery_accepted "http://clickhouse:8123"
                 (λ _, ResOk) eq_refl (λ _, eq_refl)).
Qed.

Section Refusals.
Variable host : option string.
Variable respond : string → FetchOutcome.

(** The provisioner is its six statements sent in order, followed by the
    credentials. *)
Lemma provision_as_sendAll teamId randomBytes executed :
  provisionTenantClickhouse host true respond teamId randomBytes executed
  = match sendAll host respond (statementsOf teamId randomBytes) executed with
    | (executed', Ok _) =>
        (executed', Ok (Some {| database := "tenant_" +:+ teamId;
                                username := "tenant_" +:+ teamId;
                                password := Hex.toHex randomBytes |}))
    | (executed', Throw e) => (executed', Throw e)
    end.
Proof.
  rewrite statementsOf_eq.
  unfold provisionTenantClickhouse, sendAll, bind, ret. cbn [negb].
  repeat (destruct (clickhouseAdminQuery host respond _ _) as [? [[]|?]];
          [|reflexivity]).
  reflexivity.
Qed.

Lemma sendAll_spec (stmts executed : list string) :
  truthy host = true →
  match list_find (λ s, respond s ≠ ResOk) stmts with
  | None => sendAll host respond stmts executed = ((executed ++ stmts)%list, Ok ())
  | Some (k, _) =>
      ∃ e, sendAll host respond stmts executed
           = ((executed ++ take k stmts)%list, Throw e)
  end.
Proof.
  intros Hhost. revert executed.
  induction stmts as [|sql rest IH]; intros executed; simpl.
  - by rewrite app_nil_r.
  - unfold bind, clickhouseAdminQuery. rewrite Hhost. cbn [negb].
    destruct (decide (respond sql ≠ ResOk)) as [Hne|Heq]; simpl.
    + rewrite app_nil_r. destruct (respond sql); [done|by eexists..].
    + apply dec_stable in Heq. rewrite Heq.
      specialize (IH (executed ++ [sql])%list).
      destruct (list_find _ rest) as [[k s]|]; simpl.
      * destruct IH as [e ->]. exists e. by rewrite <- app_assoc.
      * rewrite IH. by rewrite <- app_assoc.
Qed.

(** X18. With provisioning enabled and the admin host set, the
    provisioner stops at the first statement the endpoint refuses: the
    statements before it stay executed, none after it is sent and the call
    throws. Only when all six are accepted does it return the
    credentials. *)
Theorem provisioning_stops_at_first_refusal (teamId : string)
    (randomBytes : list byte) (executed : list string) :
  truthy host = true →
  let stmts := statementsOf teamId randomBytes in
  let out :=
    provisionTenantClickhouse host true respond teamId randomBytes executed in
  length stmts = 6 ∧
  match list_find (λ s, respond s ≠ ResOk) stmts with
  | None =>
      out = ((executed ++ stmts)%list,
             Ok (Some {| database := "tenant_" +:+ teamId;
                         username := "tenant_" +:+ teamId;
                         password := Hex.toHex randomBytes |}))
  | Some (k, _) =>
      k < 6 ∧ out.1 = (executed ++ take k stmts)%list ∧ ∃ e, out.2 = Throw e
  end.
Proof.
  intros Hhost stmts out. unfold out, stmts.
  split; [by rewrite statementsOf_eq|].
  rewrite provision_as_sendAll.
  pose proof (sendAll_spec (statementsOf teamId randomBytes) executed Hhost) as Hs.
  destruct (list_find _ (statementsOf teamId randomBytes)) as [[k s]|] eqn:E.
  - destruct Hs as [e ->]. simpl. split; [|by eauto].
    apply list_find_Some in E as (Hk & _). apply lookup_lt_Some in Hk.
    by rewrite statementsOf_eq in Hk.
  - by rewrite Hs.
Qed.

(** X19. With provisioning disabled the provisioner returns [null] and
    sends nothing, whether or not an admin host is configured; enabled but
    without an admin host, it throws before any statement is sent,
    whatever the endpoint would answer. *)
Theorem provisioning_off_or_unconfigured (enabled : bool) (teamId : string)
    (randomBytes : list byte) (executed : list string) :
  (enabled = false →
   provisionTenantClickhouse host enabled respond teamId randomBytes executed
   = (executed, Ok None)) ∧
  (enabled = true → truthy host = false →
   provisionTenantClickhouse host enabled respond teamId randomBytes executed
   = (executed, Throw "CLICKHOUSE_ADMIN_HOST is not set")).
Proof.
  split.
  - by intros ->.
  - intros -> Hhost. rewrite provision_as_sendAll, statementsOf_eq.
    unfold sendAll, bind, clickhouseAdminQuery. by rewrite Hhost.
Qed.
End Refusals.

Lemma replaceAll_absent (c : ascii) (by_ s : string) :
  c ∉ chars s → replaceAll c by_ s = s.
Proof.
  induction s as [|a s IH]; [done|]. intros Hc. simpl.
  destruct (Ascii.eqb_spec a c) as [->|Hne].
  - destruct Hc. apply list_elem_of_here.
  - f_equal. apply IH. intros Hin. apply Hc. by apply list_elem_of_further.
Qed.

Lemma replaceAll_removes (c : ascii) (s : string) :
  c ∉ chars (replaceAll c "" s).
Proof.
  induction s as [|a s IH]; simpl; [apply not_elem_of_nil|].
  destruct (Ascii.eqb_spec a c) as [->|Hne]; [by rewrite append_nil|].
  intros Hin. apply elem_of_cons in Hin as [->|Hin]; [done|]. by apply IH.
Qed.

(** X20. A quoted identifier is the name without its backticks, between
    two backticks: no backtick of the name survives inside the quotes, a
    name without backticks is quoted as it is, and quoting the stripped
    name gives the same. *)
Theorem quoteIdent_strips_backticks (name : string) :
  ∃ safe,
    quoteIdent name = "`" +:+ safe +:+ "`" ∧
    ("`"%char ∉ chars safe) ∧
    ("`"%char ∉ chars name → safe = name) ∧
    quoteIdent safe = quoteIdent name.
Proof.
  exists (replaceAll "`" "" name). split; [done|].
  split; [apply replaceAll_removes|]. split; [apply replaceAll_absent|].
  unfold quoteIdent. by rewrite replaceAll_absent by apply replaceAll_removes.
Qed.

Lemma chars_app (a b : string) : chars (a +:+ b) = (chars a ++ chars b)%list.
Proof. induction a as [|x a IH]; [done|]. rewrite append_cons. simpl. by f_equal. Qed.

Lemma length_chars (s : string) : length (chars s) = String.length s.
Proof. induction s as [|x s IH]; simpl; by f_equal. Qed.

Lemma hexOfByte_digits (b : byte) :
  ∃ h l, Hex.hexOfByte b = String h (String l EmptyString) ∧
         isHexDigit h ∧ isHexDigit l.
Proof.
  unfold isHexDigit.
  destruct b; (eexists _, _; split; [reflexivity|split; compute_done]).
Qed.

Lemma toHex_digits (bytes : list byte) :
  Forall isHexDigit (chars (Hex.toHex bytes)) ∧
  length (chars (Hex.toHex bytes)) = 2 * length bytes.
Proof.
  induction bytes as [|b bytes [IHd IHl]]; [by split|].
  change (Hex.toHex (b :: bytes)) with (Hex.hexOfByte b +:+ Hex.toHex bytes).
  destruct (hexOfByte_digits b) as (h & l & -> & Hh & Hl).
  rewrite !append_cons, append_nil. simpl. split.
  - constructor; [done|]. by constructor.
  - rewrite IHl. lia.
Qed.

(** X21. The generated password is two lowercase hexadecimal digits per
    random byte, and quoting it as an SQL string leaves it as it is between
    the two quotes: there is nothing in it to escape. *)
Theorem password_is_hex_and_quoted_verbatim (randomBytes : list byte) :
  let password_ := Hex.toHex randomBytes in
  String.length password_ = 2 * length randomBytes ∧
  Forall isHexDigit (chars password_) ∧
  quoteStr password_ = "'" +:+ password_ +:+ "'".
Proof.
  intros password_. destruct (toHex_digits randomBytes) as [Hd Hl].
  fold password_ in Hd, Hl. split; [by rewrite <- length_chars|].
  split; [done|]. unfold quoteStr. rewrite replaceAll_absent; [done|].
  intros Hin. rewrite Forall_forall in Hd. specialize (Hd _ Hin).
  unfold isHexDigit in Hd. revert Hd. compute_done.
Qed.

Lemma provisioning_stops_at_first_refusal_witness :
  (provisionTenantClickhouse (Some "http://clickhouse:8123") true refusesGrant
     "65f0000000000000000000aa" [x0a; xff] []).1
  = ["CREATE DATABASE IF NOT EXISTS `tenant_65f0000000000000000000aa`";
     "CREATE USER IF NOT EXISTS `tenant_65f0000000000000000000aa` IDENTIFIED WITH plaintext_password BY '0aff'"].
Proof.
  pose proof (provisioning_stops_at_first_refusal (Some "http://clickhouse:8123")
                refusesGrant "65f0000000000000000000aa" [x0a; xff] [] eq_refl)
    as Hrun.
  vm_compute in Hrun. exact (proj1 (proj2 (proj2 Hrun))).
Defined.

(** *** The statements and the tables they create *)

Lemma append_nil_r (s : string) : s +:+ "" = s.
Proof. induction s as [|a s IH]; [done|]. by rewrite append_cons, IH. Qed.

Lemma prefix_spec (n hay : string) :
  String.prefix n hay = true → ∃ post, hay = n +:+ post.
Proof.
  revert hay. induction n as [|a n IH]; intros hay Hp.
  - exists hay. by rewrite append_nil.
  - destruct hay as [|b hay]; [done|]. simpl in Hp.
    destruct (ascii_dec a b) as [->|]; [|done].
    destruct (IH hay Hp) as [post ->]. exists post. by rewrite append_cons.
Qed.

Lemma contains_cons (n : string) (b : ascii) (hay : string) :
  contains n (String b hay) = String.prefix n (String b hay) || contains n hay.
Proof. reflexivity. Qed.

Lemma contains_spec (n hay : string) :
  contains n hay = true → ∃ pre post, hay = pre +:+ n +:+ post.
Proof.
  induction hay as [|b hay IH]; intros Hc.
  - destruct n; [|done]. by exists "", "".
  - rewrite contains_cons in Hc. apply orb_true_iff in Hc as [Hp|Hc].
    + apply prefix_spec in Hp as [post ->]. exists "", post. by rewrite append_nil.
    + destruct (IH Hc) as (pre & post & ->). exists (String b pre), post.
      by rewrite append_cons.
Qed.

(** A statement that contains a text contains every end of it. *)
Lemma contains_end (a b hay : string) :
  contains (a +:+ b) hay = true → contains b hay = true.
Proof.
  intros Hc. apply contains_spec in Hc as (pre & post & ->).
  rewrite append_assoc, <- (append_assoc pre a). apply contains_append.
Qed.

(** A text that begins with [c] does not begin inside a text without
    [c]. *)
Lemma contains_skip (c : ascii) (n' X rest : string) :
  c ∉ chars X →
  contains (String c n') (X +:+ rest) = contains (String c n') rest.
Proof.
  induction X as [|a X IH]; intros Hc; [by rewrite append_nil|].
  rewrite append_cons, contains_cons. rewrite IH.
  - simpl. destruct (ascii_dec c a) as [->|]; [|done].
    destruct Hc. apply list_elem_of_here.
  - intros Hin. apply Hc. by apply list_elem_of_further.
Qed.

Lemma contains_none (c : ascii) (n' X : string) :
  c ∉ chars X → contains (String c n') X = false.
Proof.
  intros Hc. rewrite <- (append_nil_r X), contains_skip by done. by destruct n'.
Qed.

(** Where a text that begins with a backtick can occur in a statement
    around a quoted identifier. *)
Lemma contains_quoted (n' pre safe post : string) :
  "`"%char ∉ chars pre → "`"%char ∉ chars safe →
  String.prefix n' (safe +:+ "`" +:+ post) = false →
  contains (String "`" n') (pre +:+ ("`" +:+ safe +:+ "`") +:+ post)
  = String.prefix n' post || contains (String "`" n') post.
Proof.
  intros Hpre Hsafe Hp.
  rewrite contains_skip by done.
  rewrite !append_assoc, append_cons, append_nil, contains_cons.
  assert (String.prefix (String "`" n') (String "`" (safe +:+ "`" +:+ post))
          = String.prefix n' (safe +:+ "`" +:+ post)) as -> by reflexivity.
  rewrite Hp. simpl orb.
  rewrite contains_skip by done.
  by rewrite append_cons, append_nil, contains_cons.
Qed.

Lemma quoteIdent_tenant (teamId : string) :
  ∃ safe, quoteIdent (getTenantDbName teamId)
          = "`" +:+ ("tenant_" +:+ safe) +:+ "`" ∧
          "`"%char ∉ chars ("tenant_" +:+ safe).
Proof.
  exists (replaceAll "`" "" teamId). split.
  - unfold quoteIdent, getTenantDbName. rewrite !append_cons, !append_nil.
    reflexivity.
  - rewrite chars_app. intros Hin. apply elem_of_app in Hin as [Hin|Hin].
    + revert Hin. compute_done.
    + by apply replaceAll_removes in Hin.
Qed.

Lemma prefix_dot_tenant (n X rest : string) :
  String.prefix (String "." n) (("tenant_" +:+ X) +:+ rest) = false.
Proof. rewrite !append_cons. reflexivity. Qed.

Lemma hex_no_quotes (c : ascii) (bytes : list byte) :
  ¬ isHexDigit c → c ∉ chars (Hex.toHex bytes).
Proof.
  intros Hc Hin. destruct (toHex_digits bytes) as [Hd _].
  rewrite Forall_forall in Hd. by apply Hc, Hd.
Qed.

Lemma quoteStr_hex (bytes : list byte) :
  quoteStr (Hex.toHex bytes) = "'" +:+ Hex.toHex bytes +:+ "'".
Proof.
  unfold quoteStr. rewrite replaceAll_absent; [done|].
  apply hex_no_quotes. unfold isHexDigit. compute_done.
Qed.

(** No statement of the provisioner has a backtick followed by a dot and
    the name of a metric table. *)
Lemma metric_tables_absent (teamId : string) (randomBytes : list byte)
    (table stmt : string) :
  let q := quoteIdent (getTenantDbName teamId) in
  table ∈ metricTables →
  stmt ∈ ["CREATE DATABASE IF NOT EXISTS " +:+ q;
          "CREATE USER IF NOT EXISTS " +:+ q +:+
            " IDENTIFIED WITH plaintext_password BY " +:+
            quoteStr (Hex.toHex randomBytes);
          "GRANT SELECT, INSERT, ALTER, CREATE, DROP, TRUNCATE ON " +:+ q +:+
            ".* TO " +:+ q;
          "
CREATE TABLE IF NOT EXISTS " +:+ q +:+ otel_logs_schema;
          "
CREATE TABLE IF NOT EXISTS " +:+ q +:+ otel_traces_schema;
          "
CREATE TABLE IF NOT EXISTS " +:+ q +:+ hyperdx_sessions_schema] →
  contains ("`." +:+ table) stmt = false.
Proof.
  intros q Htable Hstmt. unfold q in *. clear q.
  destruct (quoteIdent_tenant teamId) as (safe & Eq & Hsafe).
  rewrite Eq in Hstmt. clear Eq.
  assert (Hlast : ∀ n pre,
            "`"%char ∉ chars pre →
            contains (String "`" (String "." n))
              (pre +:+ "`" +:+ ("tenant_" +:+ safe) +:+ "`") = false).
  { intros n pre Hpre.
    rewrite <- (append_nil_r (pre +:+ _)), append_assoc.
    rewrite contains_quoted by (done || apply prefix_dot_tenant). done. }
  assert (Hmid : ∀ n pre post,
            "`"%char ∉ chars pre →
            contains (String "`" (String "." n))
              (pre +:+ ("`" +:+ ("tenant_" +:+ safe) +:+ "`") +:+ post)
            = String.prefix (String "." n) post
              || contains (String "`" (String "." n)) post).
  { intros n pre post Hpre.
    by rewrite contains_quoted by (done || apply prefix_dot_tenant). }
  assert (∃ n, "`." +:+ table = String "`" (String "." n) ∧
               String.prefix (String "." n) otel_logs_schema
                 || contains (String "`" (String "." n)) otel_logs_schema = false ∧
               String.prefix (String "." n) otel_traces_schema
                 || contains (String "`" (String "." n)) otel_traces_schema = false ∧
               String.prefix (String "." n) hyperdx_sessions_schema
                 || contains (String "`" (String "." n)) hyperdx_sessions_schema
                 = false ∧
               String.prefix (String "." n) (".* TO " +:+ "`" +:+ ("tenant_" +:+ safe) +:+ "`") = false)
    as (n & -> & Hlogs & Htraces & Hsessions & Hto).
  { unfold metricTables in Htable.
    repeat (apply elem_of_cons in Htable as [->|Htable];
            [eexists; split; [reflexivity|];
             split; [by vm_compute|]; split; [by vm_compute|];
             split; [by vm_compute|];
             rewrite !append_cons; reflexivity|]).
    by apply elem_of_nil in Htable. }
  repeat (apply elem_of_cons in Hstmt as [->|Hstmt]).
  - apply (Hlast n "CREATE DATABASE IF NOT EXISTS "). compute_done.
  - rewrite (Hmid n "CREATE USER IF NOT EXISTS "
               (" IDENTIFIED WITH plaintext_password BY " +:+
                quoteStr (Hex.toHex randomBytes))) by compute_done.
    rewrite quoteStr_hex, contains_none.
    + rewrite append_cons. reflexivity.
    + rewrite !chars_app. intros Hin.
      repeat (apply elem_of_app in Hin as [Hin|Hin]);
        try (revert Hin; compute_done).
      revert Hin. apply hex_no_quotes. unfold isHexDigit. compute_done.
  - rewrite (Hmid n "GRANT SELECT, INSERT, ALTER, CREATE, DROP, TRUNCATE ON "
               (".* TO " +:+ "`" +:+ ("tenant_" +:+ safe) +:+ "`"))
      by compute_done.
    rewrite Hto. apply (Hlast n ".* TO "). compute_done.
  - by rewrite (Hmid n "
CREATE TABLE IF NOT EXISTS " otel_logs_schema) by compute_done.
  - by rewrite (Hmid n "
CREATE TABLE IF NOT EXISTS " otel_traces_schema) by compute_done.
  - by rewrite (Hmid n "
CREATE TABLE IF NOT EXISTS " hyperdx_sessions_schema) by compute_done.
  - by apply elem_of_nil in Hstmt.
Qed.

(** C2, as amended. With provisioning enabled and an admin endpoint that
    accepts every statement, the provisioner executes six statements on
    [tenant_<team_id>] and nothing else: the database, the user, the grant,
    and an idempotent [CREATE TABLE] for each of [otel_logs], [otel_traces]
    and [hyperdx_sessions]; it returns the database, the user and the
    password. None of the statements creates [otel_metrics_gauge],
    [otel_metrics_sum] or [otel_metrics_histogram]: none so much as names
    one of them in the tenant database. *)
Theorem provisioner_creates_three_tables (host : string)
    (respond : string → FetchOutcome) (teamId : string)
    (randomBytes : list byte) :
  truthy (Some host) = true →
  (∀ sql, respond sql = ResOk) →
  let q := quoteIdent (getTenantDbName teamId) in
  let logs := "
CREATE TABLE IF NOT EXISTS " +:+ q +:+ otel_logs_schema in
  let traces := "
CREATE TABLE IF NOT EXISTS " +:+ q +:+ otel_traces_schema in
  let sessions := "
CREATE TABLE IF NOT EXISTS " +:+ q +:+ hyperdx_sessions_schema in
  let run :=
    provisionTenantClickhouse (Some host) true respond teamId randomBytes [] in
  run = (["CREATE DATABASE IF NOT EXISTS " +:+ q;
          "CREATE USER IF NOT EXISTS " +:+ q +:+
            " IDENTIFIED WITH plaintext_password BY " +:+
            quoteStr (Hex.toHex randomBytes);
          "GRANT SELECT, INSERT, ALTER, CREATE, DROP, TRUNCATE ON " +:+ q +:+
            ".* TO " +:+ q;
          logs; traces; sessions],
         Ok (Some {| database := "tenant_" +:+ teamId;
                     username := "tenant_" +:+ teamId;
                     password := Hex.toHex randomBytes |})) ∧
  createsTable q "otel_logs" logs ∧
  createsTable q "otel_traces" traces ∧
  createsTable q "hyperdx_sessions" sessions ∧
  (∀ table stmt, table ∈ metricTables → stmt ∈ run.1 →
     contains (q +:+ "." +:+ table) stmt = false ∧
     ¬ createsTable q table stmt).
Proof.
  intros Hhost Hok q logs traces sessions run.
  assert (Hrun : run = (["CREATE DATABASE IF NOT EXISTS " +:+ q;
          "CREATE USER IF NOT EXISTS " +:+ q +:+
            " IDENTIFIED WITH plaintext_password BY " +:+
            quoteStr (Hex.toHex randomBytes);
          "GRANT SELECT, INSERT, ALTER, CREATE, DROP, TRUNCATE ON " +:+ q +:+
            ".* TO " +:+ q;
          logs; traces; sessions],
         Ok (Some {| database := "tenant_" +:+ teamId;
                     username := "tenant_" +:+ teamId;
                     password := Hex.toHex randomBytes |}))).
  { unfold run, provisionTenantClickhouse, bind. cbn [negb].
    by rewrite !(clickhouseAdminQuery_accepted host respond Hhost Hok). }
  split; [exact Hrun|]. split; [|split; [|split]].
  - assert (∃ rest, otel_logs_schema = ".otel_logs" +:+ rest) as [rest E]
      by (eexists; reflexivity).
    unfold logs. rewrite E. apply (createsTable_statement _ "otel_logs").
  - assert (∃ rest, otel_traces_schema = ".otel_traces" +:+ rest) as [rest E]
      by (eexists; reflexivity).
    unfold traces. rewrite E. apply (createsTable_statement _ "otel_traces").
  - assert (∃ rest, hyperdx_sessions_schema = ".hyperdx_sessions" +:+ rest)
      as [rest E] by (eexists; reflexivity).
    unfold sessions. rewrite E.
    apply (createsTable_statement _ "hyperdx_sessions").
  - intros table stmt Htable Hstmt. rewrite Hrun in Hstmt. simpl in Hstmt.
    pose proof (metric_tables_absent teamId randomBytes table stmt Htable Hstmt)
      as Habsent.
    assert (Hmention : contains (q +:+ "." +:+ table) stmt = false).
    { destruct (contains (q +:+ "." +:+ table) stmt) eqn:Hc; [|done].
      assert (Hneedle : q +:+ "." +:+ table
              = ("`" +:+ replaceAll "`" "" (getTenantDbName teamId))
                +:+ "`." +:+ table).
      { unfold q, quoteIdent. by rewrite !append_assoc, !append_cons, !append_nil. }
      rewrite Hneedle in Hc. apply contains_end in Hc.
      by rewrite Habsent in Hc. }
    split; [done|]. intros Hcreates. unfold createsTable in Hcreates.
    apply (contains_end "CREATE TABLE IF NOT EXISTS ") in Hcreates.
    by rewrite Hmention in Hcreates.
Qed.

Lemma provisioner_creates_three_tables_witness :
  (∃ logs traces sessions,
     (provisionTenantClickhouse (Some "http://clickhouse:8123") true (λ _, ResOk)
        "65f0000000000000000000aa" [x0a; xff] []).1
     = ["CREATE DATABASE IF NOT EXISTS `tenant_65f0000000000000000000aa`";
        "CREATE USER IF NOT EXISTS `tenant_65f0000000000000000000aa` IDENTIFIED WITH plaintext_password BY '0aff'";
        "GRANT SELECT, INSERT, ALTER, CREATE, DROP, TRUNCATE ON `tenant_65f0000000000000000000aa`.* TO `tenant_65f0000000000000000000aa`";
        logs; traces; sessions] ∧
     createsTable "`tenant_65f0000000000000000000aa`" "hyperdx_sessions" sessions) ∧
  (∀ stmt,
     stmt ∈ (provisionTenantClickhouse (Some "http://clickhouse:8123") true
               (λ _, ResOk) "65f0000000000000000000aa" [x0a; xff] []).1 →
     ¬ createsTable "`tenant_65f0000000000000000000aa`" "otel_metrics_sum" stmt).
Proof.
  destruct (provisioner_creates_three_tables "http://clickhouse:8123" (λ _, ResOk)
              "65f0000000000000000000aa" [x0a; xff])
    as (Hrun & _ & _ & Hsessions & Hnone).
  - reflexivity.
  - reflexivity.
  - split.
    + eexists _, _, _. split; [|exact Hsessions]. rewrite Hrun. reflexivity.
    + intros stmt Hstmt. apply (Hnone "otel_metrics_sum" stmt); [|exact Hstmt].
      unfold metricTables. repeat constructor.
Defined.

(** ** Team memberships *)

Section Memberships.
Variable toObjectId : string → result string.

Abbreviation ensure_ := (TeamMembershipController.ensureTeamMembership toObjectId).
Abbreviation hasMembership_ := (TeamMembershipController.userHasMembership toObjectId).

(** X23. [ensureTeamMembership] never alters a membership that exists:
    when the user already has one in the team it is returned as stored and
    nothing is written, whatever role is asked for. In particular a
    disabled or invited member is not made active, and
    [userHasMembership] keeps answering [false]. *)
Theorem ensure_keeps_existing_membership (userId teamId : string)
    (u t : string) (roleIfCreate : option TeamMembership.TeamRole)
    (newId : string) (db : Memberships) (m : TeamMembership.ITeamMembership) :
  toObjectId userId = Ok u → toObjectId teamId = Ok t →
  m ∈ db → TeamMembership.user m = u → TeamMembership.team m = t →
  (∃ m0, ensure_ userId teamId roleIfCreate newId db = (db, Ok m0) ∧
         m0 ∈ db ∧ TeamMembership.user m0 = u ∧ TeamMembership.team m0 = t) ∧
  ((∀ m', m' ∈ db → TeamMembership.user m' = u → TeamMembership.team m' = t →
          TeamMembership.status m' ≠ TeamMembership.active) →
   hasMembership_ userId teamId
     (ensure_ userId teamId roleIfCreate newId db).1
   = (db, Ok false)).
Proof.
  intros Hu Ht Hin Hmu Hmt.
  assert (He : ∃ m0, ensure_ userId teamId roleIfCreate newId db = (db, Ok m0) ∧
             m0 ∈ db ∧ TeamMembership.user m0 = u ∧ TeamMembership.team m0 = t).
  { unfold TeamMembershipController.ensureTeamMembership,
      TeamMembershipController.newObjectId, bind, query. rewrite Hu, Ht.
    destruct (findOne_is_Some
                (λ m, TeamMembership.user m = u ∧ TeamMembership.team m = t)
                db m Hin (conj Hmu Hmt)) as [m0 Hf].
    rewrite Hf. exists m0. split; [done|].
    by apply findOne_Some in Hf as (? & ? & ?). }
  split; [exact He|]. intros Hnone. destruct He as (m0 & -> & _). simpl.
  unfold TeamMembershipController.userHasMembership,
    TeamMembershipController.newObjectId, bind, query, ret. rewrite Hu, Ht.
  assert (Mongo.findOne
            (λ m, TeamMembership.user m = u ∧ TeamMembership.team m = t ∧
                  TeamMembership.status m = TeamMembership.active) db = None)
    as ->; [|done].
  apply findOne_None. intros d Hd (Hdu & Hdt & Hda). by apply (Hnone d).
Qed.

(** X24. For a user without a membership in the team,
    [ensureTeamMembership] stores one active membership, with the role
    asked for or [member]; from then on [userHasMembership] answers [true],
    and ensuring again, with whatever role, returns that membership and
    writes nothing. *)
Theorem ensure_creates_once (userId teamId : string) (u t : string)
    (roleIfCreate roleAgain : option TeamMembership.TeamRole)
    (newId newIdAgain : string) (db : Memberships) :
  toObjectId userId = Ok u → toObjectId teamId = Ok t →
  (∀ m, m ∈ db → TeamMembership._id m ≠ newId ∧
                 ¬ (TeamMembership.user m = u ∧ TeamMembership.team m = t)) →
  let doc := {| TeamMembership._id := newId; TeamMembership.team := t;
                TeamMembership.user := u;
                TeamMembership.role :=
                  default TeamMembership.member roleIfCreate;
                TeamMembership.status := TeamMembership.active |} in
  let db' := (db ++ [doc])%list in
  ensure_ userId teamId roleIfCreate newId db = (db', Ok doc) ∧
  hasMembership_ userId teamId db' = (db', Ok true) ∧
  ensure_ userId teamId roleAgain newIdAgain db' = (db', Ok doc).
Proof.
  intros Hu Ht Hfresh doc db'.
  assert (Hnone : Mongo.findOne
            (λ m, TeamMembership.user m = u ∧ TeamMembership.team m = t) db = None).
  { apply findOne_None. intros d Hd Hut. by destruct (Hfresh d Hd) as [_ []]. }
  assert (Hfirst : ∀ (Q : TeamMembership.ITeamMembership → Prop)
                     `{!∀ d, Decision (Q d)},
            (∀ d, Q d → TeamMembership.user d = u ∧ TeamMembership.team d = t) →
            Q doc → Mongo.findOne Q db' = Some doc).
  { intros Q ? HQ Hdoc. unfold Mongo.findOne.
    assert (list_find Q db' = Some (length db, doc)) as ->; [|done].
    apply list_find_Some. split; [|split; [done|]].
    - unfold db'. by rewrite list_lookup_middle.
    - intros j y Hj Hlt Hy. unfold db' in Hj. rewrite lookup_app_l in Hj by done.
      destruct (Hfresh y) as [_ []]; [by eapply list_elem_of_lookup_2|by apply HQ]. }
  split; [|split].
  - unfold TeamMembershipController.ensureTeamMembership,
      TeamMembershipController.newObjectId, bind, query. rewrite Hu, Ht, Hnone.
    unfold TeamMembershipController.create.
    destruct (decide (Exists _ db)) as [E|_]; [|done].
    apply Exists_exists in E as (d & Hd & [Hid|[Htm Hus]]).
    + by destruct (Hfresh d Hd) as [[] _].
    + by destruct (Hfresh d Hd) as [_ []].
  - unfold TeamMembershipController.userHasMembership,
      TeamMembershipController.newObjectId, bind, query, ret. rewrite Hu, Ht.
    rewrite (Hfirst _ _); [done|by intros d (? & ? & _)|done].
  - unfold TeamMembershipController.ensureTeamMembership,
      TeamMembershipController.newObjectId, bind, query. rewrite Hu, Ht.
    rewrite (Hfirst _ _); done.
Qed.
End Memberships.

Lemma ensure_keeps_existing_membership_witness :
  TeamMembershipController.ensureTeamMembership sampleObjectId
    "65f000000000000000000u01" "65f0000000000000000000aa"
    (Some TeamMembership.owner) "65f0000000000000000000e2" [disabledMember]
  = ([disabledMember], Ok disabledMember) ∧
  TeamMembershipController.userHasMembership sampleObjectId
    "65f000000000000000000u01" "65f0000000000000000000aa" [disabledMember]
  = ([disabledMember], Ok false).
Proof.
  destruct (ensure_keeps_existing_membership sampleObjectId
              "65f000000000000000000u01" "65f0000000000000000000aa"
              "65f000000000000000000u01" "65f0000000000000000000aa"
              (Some TeamMembership.owner) "65f0000000000000000000e2"
              [disabledMember] disabledMember)
    as [(m0 & He & _) Hhas].
  - reflexivity.
  - reflexivity.
  - apply list_elem_of_here.
  - reflexivity.
  - reflexivity.
  - split; [reflexivity|]. apply Hhas.
    intros m' Hm' _ _. apply list_elem_of_singleton in Hm'. by subst m'.
Defined.

Lemma ensure_creates_once_witness :
  ∃ doc,
    TeamMembershipController.ensureTeamMembership sampleObjectId
      "65f000000000000000000u02" "65f0000000000000000000aa" None
      "65f0000000000000000000e3" [disabledMember]
    = ([disabledMember; doc], Ok doc) ∧
    TeamMembership.role doc = TeamMembership.member ∧
    TeamMembershipController.ensureTeamMembership sampleObjectId
      "65f000000000000000000u02" "65f0000000000000000000aa"
      (Some TeamMembership.owner) "65f0000000000000000000e4"
      [disabledMember; doc]
    = ([disabledMember; doc], Ok doc).
Proof.
  destruct (ensure_creates_once sampleObjectId
              "65f000000000000000000u02" "65f0000000000000000000aa"
              "65f000000000000000000u02" "65f0000000000000000000aa"
              None (Some TeamMembership.owner)
              "65f0000000000000000000e3" "65f0000000000000000000e4"
              [disabledMember])
    as (Hfirst & _ & Hagain).
  - reflexivity.
  - reflexivity.
  - intros m Hm. apply list_elem_of_singleton in Hm. subst m.
    split; [done|]. by intros [? _].
  - eexists. split; [exact Hfirst|]. split; [reflexivity|exact Hagain].
Defined.

(** ** Team database names *)

Lemma replaceNonWord_word (name : string) :
  Forall (λ c, TeamDatabase.isWordChar c = true)
    (chars (TeamDatabase.replaceNonWord name)).
Proof.
  induction name as [|c name IH]; simpl; [constructor|].
  constructor; [|done]. by destruct (TeamDatabase.isWordChar c) eqn:E.
Qed.

Lemma replaceNonWord_fixed (name : string) :
  Forall (λ c, TeamDatabase.isWordChar c = true) (chars name) →
  TeamDatabase.replaceNonWord name = name.
Proof.
  induction name as [|c name IH]; simpl; [done|].
  intros Hall. apply Forall_cons in Hall as [-> Hall]. f_equal. by apply IH.
Qed.

(** X25. A sanitized database name is made of letters, digits and
    underscores only and does not start with a digit; a name that already
    is of that form is left as it is, so sanitizing twice is sanitizing
    once. *)
Theorem sanitizeDatabaseName_is_identifier (name : string) :
  let s := TeamDatabase.sanitizeDatabaseName name in
  Forall (λ c, TeamDatabase.isWordChar c = true) (chars s) ∧
  TeamDatabase.startsWithDigit s = false ∧
  TeamDatabase.sanitizeDatabaseName s = s ∧
  (Forall (λ c, TeamDatabase.isWordChar c = true) (chars name) →
   TeamDatabase.startsWithDigit name = false →
   s = name).
Proof.
  intros s.
  assert (Hw : Forall (λ c, TeamDatabase.isWordChar c = true) (chars s)).
  { unfold s, TeamDatabase.sanitizeDatabaseName.
    destruct (TeamDatabase.startsWithDigit _); [|apply replaceNonWord_word].
    rewrite !append_cons, append_nil. simpl.
    repeat (constructor; [done|]). apply replaceNonWord_word. }
  assert (Hd : TeamDatabase.startsWithDigit s = false).
  { unfold s, TeamDatabase.sanitizeDatabaseName.
    destruct (TeamDatabase.startsWithDigit (TeamDatabase.replaceNonWord name))
      eqn:E; [|done].
    by rewrite append_cons. }
  split; [done|]. split; [done|]. split.
  - unfold TeamDatabase.sanitizeDatabaseName at 1.
    rewrite (replaceNonWord_fixed s Hw). by rewrite Hd.
  - intros Hall Hnd. unfold s, TeamDatabase.sanitizeDatabaseName.
    rewrite (replaceNonWord_fixed name Hall). by rewrite Hnd.
Qed.

Lemma sanitizeDatabaseName_is_identifier_witness :
  TeamDatabase.sanitizeDatabaseName "65f0-acme corp" = "db_65f0_acme_corp" ∧
  TeamDatabase.sanitizeDatabaseName "tenant_65f0" = "tenant_65f0".
Proof.
  split; [reflexivity|].
  apply (sanitizeDatabaseName_is_identifier "tenant_65f0").
  - repeat constructor.
  - reflexivity.
Defined.
